(** * oddt.interactions: proximity join and angular strictness

    A shallow embedding of [oddt/interactions.py].  Every definition below
    follows one function (or one numpy primitive used by a function) of that
    module; the theorems at the end of the file are stated about these
    definitions.

    Numbers.  The module computes on IEEE binary floating point.  What its
    logic depends on is (a) the order of finite values, (b) the not-a-number
    value, which fails every comparison, (c) [np.nan_to_num] and (d) the
    rounding of the bounds it compares the angles with.  A float is embedded
    as [fnum]: either [NaN] or a rational.  Sums and differences are rounded
    to the nearest value of the format, ties to even, with gradual underflow
    ([round_to]: 53 significant bits and smallest positive value [2^-1074]
    for float64, 24 bits and [2^-149] for float32), and a Python scalar
    compared with an array is first converted to the dtype of the array
    ([fcast]).  The infinities are not represented: a bound beyond the
    largest float32 stays a finite number above every float32 value, which
    orders it like the infinity against the finite angles an array holds
    (angles produced by [arccos] are NaN or lie in [0, 180]). *)

From Stdlib Require Import List Bool ZArith QArith Lia Lqa.
From Stdlib Require Import Sorted Permutation FinFun Qabs Qround Qpower.
Import ListNotations.

Set Implicit Arguments.

(** ** Exceptions *)

Inductive exn : Type :=
| IndexError   (* index out of bounds, raised by [np.take] and [x[idx]] *)
| ValueError.  (* operands could not be broadcast together *)

Inductive result (A : Type) : Type :=
| Ok (a : A)
| Raise (e : exn).

Arguments Ok {A} a.
Arguments Raise {A} e.

Definition bind {A B} (m : result A) (k : A -> result B) : result B :=
  match m with
  | Ok a => k a
  | Raise e => Raise e
  end.

Notation "x <- m ;; k" := (bind m (fun x => k))
  (at level 61, m at next level, right associativity).
Notation "' p <- m ;; k" := (bind m (fun p => k))
  (at level 61, p pattern, m at next level, right associativity).

(** [mapM f l] runs [f] over [l] from left to right and stops at the first
    exception. *)
Fixpoint mapM {A B} (f : A -> result B) (l : list A) : result (list B) :=
  match l with
  | [] => Ok []
  | a :: l' => b <- f a ;; bs <- mapM f l' ;; Ok (b :: bs)
  end.

(** ** Floating-point values *)

Inductive fnum : Type :=
| NaN
| Fin (q : Q).

Definition Qlt_bool (x y : Q) : bool := negb (Qle_bool y x).

(** *** Rounding *)

Definition pow2 (e : Z) : Q := Qpower 2 e.

(** [ilog2 x] is the integer [e] with [2^e <= x < 2^(e+1)], for [x > 0]. *)
Definition ilog2 (x : Q) : Z :=
  let k := (Z.log2 (Qnum x) - Z.log2 (Z.pos (Qden x)))%Z in
  if Qle_bool (pow2 k) x then k else (k - 1)%Z.

(** Nearest integer, a tie going to the even one. *)
Definition round_half_even (m : Q) : Z :=
  let f := Qfloor m in
  match Qcompare (m - inject_Z f) (1 # 2) with
  | Lt => f
  | Gt => (f + 1)%Z
  | Eq => if Z.even f then f else (f + 1)%Z
  end.

(** Rounding of a positive number in a binary format with [p] significant
    bits whose smallest positive value is [2^qmin]: the number is written
    [m * 2^e] with [m] in [2^(p-1), 2^p), or with [e = qmin] and a smaller
    [m] when it lies below the normal range (gradual underflow), and [m] is
    rounded to an integer. *)
Definition round_magnitude (p qmin : Z) (x : Q) : Q :=
  let e := Z.max (ilog2 x - (p - 1)) qmin in
  inject_Z (round_half_even (x / pow2 e)) * pow2 e.

(** Round to nearest, ties to even. *)
Definition round_to (p qmin : Z) (x : Q) : Q :=
  match Qcompare x 0 with
  | Eq => 0
  | Gt => round_magnitude p qmin x
  | Lt => - round_magnitude p qmin (- x)
  end.

(** The dtype of an array of floats. *)
Inductive dtype : Type :=
| float32
| float64.

Definition precision (d : dtype) : Z :=
  match d with
  | float32 => 24%Z
  | float64 => 53%Z
  end.

(** Exponent of the smallest positive value, a subnormal one. *)
Definition min_exponent (d : dtype) : Z :=
  match d with
  | float32 => (-149)%Z
  | float64 => (-1074)%Z
  end.

Definition round_dtype (d : dtype) (x : Q) : Q :=
  round_to (precision d) (min_exponent d) x.

Definition round_double (x : Q) : Q := round_dtype float64 x.

(** Conversion of a scalar to a dtype. *)
Definition fcast (d : dtype) (a : fnum) : fnum :=
  match a with
  | NaN => NaN
  | Fin q => Fin (round_dtype d q)
  end.

(** Sum and difference of two values of dtype [d]. *)
Definition fadd_at (d : dtype) (a b : fnum) : fnum :=
  match a, b with
  | Fin x, Fin y => Fin (round_dtype d (x + y))
  | _, _ => NaN
  end.

Definition fsub_at (d : dtype) (a b : fnum) : fnum :=
  match a, b with
  | Fin x, Fin y => Fin (round_dtype d (x - y))
  | _, _ => NaN
  end.

(** Sum and difference in double precision: Python floats, and a float64
    array with a Python scalar. *)
Definition fadd (a b : fnum) : fnum :=
  match a, b with
  | Fin x, Fin y => Fin (round_double (x + y))
  | _, _ => NaN
  end.

Definition fsub (a b : fnum) : fnum :=
  match a, b with
  | Fin x, Fin y => Fin (round_double (x - y))
  | _, _ => NaN
  end.

(** [a < b], [a <= b], [a > b]: false as soon as one side is NaN. *)
Definition flt (a b : fnum) : bool :=
  match a, b with
  | Fin x, Fin y => Qlt_bool x y
  | _, _ => false
  end.

Definition fle (a b : fnum) : bool :=
  match a, b with
  | Fin x, Fin y => Qle_bool x y
  | _, _ => false
  end.

Definition fgt (a b : fnum) : bool := flt b a.

(** [np.nan_to_num]: NaN becomes 0.0, every other value is kept. *)
Definition nan_to_num (a : fnum) : fnum :=
  match a with
  | NaN => Fin 0
  | Fin q => Fin q
  end.

Definition is_nan (a : fnum) : bool :=
  match a with
  | NaN => true
  | Fin _ => false
  end.

(** ** numpy primitives *)

(** [np.take(a, i)] in its default mode ['raise']: an index in [0, len) reads
    from the front, an index in [-len, 0) reads from the back, any other index
    raises. *)
Definition np_take {A} (a : list A) (i : Z) : result A :=
  let n := Z.of_nat (length a) in
  let j := if (i <? 0)%Z then (i + n)%Z else i in
  if ((0 <=? j)%Z && (j <? n)%Z)%bool then
    match nth_error a (Z.to_nat j) with
    | Some v => Ok v
    | None => Raise IndexError
    end
  else Raise IndexError.

(** [x[idx]] with an integer array [idx] of non-negative entries. *)
Definition fancy_index {A} (x : list A) (idx : list nat) : result (list A) :=
  mapM (fun i => match nth_error x i with
                 | Some v => Ok v
                 | None => Raise IndexError
                 end) idx.

Fixpoint zip_with {A B C} (f : A -> B -> C) (xs : list A) (ys : list B)
  : list C :=
  match xs, ys with
  | x :: xs', y :: ys' => f x y :: zip_with f xs' ys'
  | _, _ => []
  end.

(** Broadcasting of a binary operation along the leading axis: an axis of
    length one is stretched, equal lengths are paired, anything else raises. *)
Definition broadcast2 {A B C} (f : A -> B -> C) (xs : list A) (ys : list B)
  : result (list C) :=
  match xs, ys with
  | [x], _ => Ok (map (f x) ys)
  | _, [y] => Ok (map (fun x => f x y) xs)
  | _, _ =>
      if Nat.eqb (length xs) (length ys) then Ok (zip_with f xs ys)
      else Raise ValueError
  end.

(** [np.argwhere] on a two-dimensional boolean array: the (row, column)
    positions holding [true], in row-major order. *)
Fixpoint argwhere_row (i j : nat) (row : list bool) : list (nat * nat) :=
  match row with
  | [] => []
  | b :: row' =>
      if b then (i, j) :: argwhere_row i (S j) row'
      else argwhere_row i (S j) row'
  end.

Fixpoint argwhere_from (i : nat) (m : list (list bool)) : list (nat * nat) :=
  match m with
  | [] => []
  | row :: m' => argwhere_row i 0 row ++ argwhere_from (S i) m'
  end.

Definition argwhere (m : list (list bool)) : list (nat * nat) :=
  argwhere_from 0 m.

(** ** The ideal-angle table *)

Definition BASE_ANGLES : list fnum :=
  [Fin 0; Fin 180; Fin 120; Fin (219 # 2); Fin 90].

(** ** _check_angles *)

(** [angles > bound] and [angles < bound] for [angles] of shape (N, K) against
    a column [bound] of shape (M, 1): the trailing axis of [bound] is
    stretched over the K slots, the leading axes are broadcast. *)
Definition gt_column (angles : list (list fnum)) (bound : list fnum)
  : result (list (list bool)) :=
  broadcast2 (fun row b => map (fun a => fgt a b) row) angles bound.

Definition lt_column (angles : list (list fnum)) (bound : list fnum)
  : result (list (list bool)) :=
  broadcast2 (fun row b => map (fun a => flt a b) row) angles bound.

(** [m1 & m2] on boolean arrays of one shape, and [.any(axis=-1)]. *)
Definition mat_and (m1 m2 : list (list bool)) : list (list bool) :=
  zip_with (zip_with andb) m1 m2.

Definition any_last_axis (m : list (list bool)) : list bool :=
  map (existsb (fun b => b)) m.

(** [BASE_ANGLES] is a float64 array, so the two bounds are float64 arrays
    computed in double precision, and comparing them with [angles], float32
    or float64, takes place in float64, which holds every float32 value as
    it is: the angles enter the comparisons unrounded. *)
Definition _check_angles (angles : list (list fnum)) (hybridizations : list Z)
  (tolerance : fnum) : result (list bool) :=
  let angles := map (map nan_to_num) angles in
  ideal_angles <- mapM (np_take BASE_ANGLES) hybridizations ;;
  let lower_bound := map (fun i => fsub i tolerance) ideal_angles in
  let upper_bound := map (fun i => fadd i tolerance) ideal_angles in
  above <- gt_column angles lower_bound ;;
  below <- lt_column angles upper_bound ;;
  Ok (any_last_axis (mat_and above below)).

(** ** Atom and ring records *)

Record point : Type := mkpoint { px : fnum; py : fnum; pz : fnum }.

(** [p + q] and [p - q] on coordinate arrays of dtype [d]. *)
Definition padd (d : dtype) (p q : point) : point :=
  mkpoint (fadd_at d (px p) (px q)) (fadd_at d (py p) (py q))
          (fadd_at d (pz p) (pz q)).

Definition psub (d : dtype) (p q : point) : point :=
  mkpoint (fsub_at d (px p) (px q)) (fsub_at d (py p) (py q))
          (fsub_at d (pz p) (pz q)).

(** One row of [atom_dict], with the columns this module reads.  A missing
    neighbor slot holds NaN coordinates. *)
Record atom : Type := mkatom {
  coords : point;
  neighbors : list point;
  hybridization : Z;
  isacceptor : bool;
  isdonor : bool;
  ishalogen : bool;
  isplus : bool;
  isminus : bool;
  ishydrophobe : bool;
  ismetal : bool
}.

(** One row of [ring_dict]. *)
Record ring : Type := mkring { centroid : point; vector : point }.

Record Molecule : Type := mkmol {
  atom_dict : list atom;
  ring_dict : list ring
}.

(** Default arguments of the detectors. *)
Definition cutoff_low_default : fnum := Fin 0.
Definition tolerance_default : fnum := Fin 30.
Definition hbond_cutoff_default : fnum := Fin (7 # 2).
Definition pi_cutoff_default : fnum := Fin 5.
Definition contact_cutoff_default : fnum := Fin 4.

Section Interactions.

(** The geometry primitives of [oddt.spatial] on single points and vectors:
    euclidean distance of two points, the angle at the second of three
    points, the angle between two free vectors (degrees; NaN when a vector
    has no direction or a coordinate is NaN). *)
Variable point_distance : point -> point -> fnum.
Variable point_angle : point -> point -> point -> fnum.
Variable vector_angle : point -> point -> fnum.

(** The dtype of the coordinate columns ([coords], [centroid], [vector]),
    which is also the dtype of the angle arrays [oddt.spatial] computes
    from them; the toolkits fill them as float32. *)
Variable coords_dtype : dtype.

(** Modelled from the spec: [oddt.spatial.distance], which is imported by the
    module and not part of it: the all-pairs distance matrix, row [i] holding
    the distances from [x[i]] to every point of [y]. *)
Definition distance (x y : list point) : list (list fnum) :=
  map (fun p => map (point_distance p) y) x.

(** Modelled from the spec: [oddt.spatial.angle] on three aligned arrays of
    points, one angle per position. *)
Fixpoint angle (p1 p2 p3 : list point) : list fnum :=
  match p1, p2, p3 with
  | a :: p1', b :: p2', c :: p3' => point_angle a b c :: angle p1' p2' p3'
  | _, _, _ => []
  end.

(** Modelled from the spec: [oddt.spatial.angle] called as
    [angle(p1[:, np.newaxis, :], p2[:, np.newaxis, :], nbrs)]: for every
    position, one angle per neighbor slot. *)
Fixpoint angle_newaxis (p1 p2 : list point) (nbrs : list (list point))
  : list (list fnum) :=
  match p1, p2, nbrs with
  | a :: p1', b :: p2', ns :: nbrs' =>
      map (point_angle a b) ns :: angle_newaxis p1' p2' nbrs'
  | _, _, _ => []
  end.

(** Modelled from the spec: [oddt.spatial.angle_2v] on two aligned arrays of
    vectors. *)
Definition angle_2v (v1 v2 : list point) : list fnum :=
  zip_with vector_angle v1 v2.

(** ** close_contacts *)

(** [(d > cutoff_low) & (d <= cutoff)] on the distance matrix. *)
Definition window_mask (d : list (list fnum)) (cutoff_low cutoff : fnum)
  : list (list bool) :=
  mat_and (map (map (fun v => fgt v cutoff_low)) d)
          (map (map (fun v => fle v cutoff)) d).

Definition close_contacts {A B} (x : list A) (y : list B) (cutoff : fnum)
  (x_column : A -> point) (y_column : B -> point) (cutoff_low : fnum)
  : result (list A * list B) :=
  if (0 <? length (map x_column x)) && (0 <? length (map x_column x)) then
    let d := distance (map x_column x) (map y_column y) in
    let index := argwhere (window_mask d cutoff_low cutoff) in
    xs <- fancy_index x (map fst index) ;;
    ys <- fancy_index y (map snd index) ;;
    Ok (xs, ys)
  else
    Ok ([], []).

(** ** Detectors *)

Definition hbond_acceptor_donor (mol1 mol2 : Molecule)
  (cutoff tolerance : fnum) : result (list atom * list atom * list bool) :=
  '(a, d) <- close_contacts (filter isacceptor (atom_dict mol1))
                            (filter isdonor (atom_dict mol2))
                            cutoff coords coords cutoff_low_default ;;
  if (0 <? length a) && (0 <? length d) then
    let angle1 := angle_newaxis (map coords d) (map coords a)
                                (map neighbors a) in
    let angle2 := angle_newaxis (map coords a) (map coords d)
                                (map neighbors d) in
    s1 <- _check_angles angle1 (map hybridization a) tolerance ;;
    s2 <- _check_angles angle2 (map hybridization d) tolerance ;;
    strict <- broadcast2 andb s1 s2 ;;
    Ok (a, d, strict)
  else
    Ok (a, d, []).

Definition hbonds (mol1 mol2 : Molecule) (cutoff tolerance : fnum)
  : result (list atom * list atom * list bool) :=
  '(a1, d1, s1) <- hbond_acceptor_donor mol1 mol2 cutoff tolerance ;;
  '(a2, d2, s2) <- hbond_acceptor_donor mol2 mol1 cutoff tolerance ;;
  Ok (a1 ++ d2, d1 ++ a2, s1 ++ s2).

Definition halogenbond_acceptor_halogen (mol1 mol2 : Molecule)
  (tolerance cutoff : fnum) : result (list atom * list atom * list bool) :=
  '(a, h) <- close_contacts (filter isacceptor (atom_dict mol1))
                            (filter ishalogen (atom_dict mol2))
                            cutoff coords coords cutoff_low_default ;;
  if (0 <? length a) && (0 <? length h) then
    let angle1 := angle_newaxis (map coords h) (map coords a)
                                (map neighbors a) in
    let angle2 := angle_newaxis (map coords a) (map coords h)
                                (map neighbors h) in
    s1 <- _check_angles angle1 (map hybridization a) tolerance ;;
    s2 <- _check_angles angle2 (map hybridization h) tolerance ;;
    strict <- broadcast2 andb s1 s2 ;;
    Ok (a, h, strict)
  else
    Ok (a, h, []).

Definition halogenbonds (mol1 mol2 : Molecule) (cutoff tolerance : fnum)
  : result (list atom * list atom * list bool) :=
  '(a1, h1, s1) <- halogenbond_acceptor_halogen mol1 mol2 tolerance cutoff ;;
  '(a2, h2, s2) <- halogenbond_acceptor_halogen mol2 mol1 tolerance cutoff ;;
  Ok (a1 ++ h2, h1 ++ a2, s1 ++ s2).

(** [(angle > 180 - tolerance) | (angle < tolerance)]: the bounds are
    Python scalars, [180 - tolerance] computed in double precision, and each
    is converted to the dtype of the angle array it is compared with. *)
Definition near_axis (tolerance : fnum) (a : fnum) : bool :=
  fgt a (fcast coords_dtype (fsub (Fin 180) tolerance)) ||
  flt a (fcast coords_dtype tolerance).

(** [(angle > 90 - tolerance) & (angle < 90 + tolerance)] *)
Definition near_normal (tolerance : fnum) (a : fnum) : bool :=
  fgt a (fcast coords_dtype (fsub (Fin 90) tolerance)) &&
  flt a (fcast coords_dtype (fadd (Fin 90) tolerance)).

Definition pi_stacking (mol1 mol2 : Molecule) (cutoff tolerance : fnum)
  : result (list ring * list ring * list bool * list bool) :=
  '(r1, r2) <- close_contacts (ring_dict mol1) (ring_dict mol2)
                              cutoff centroid centroid cutoff_low_default ;;
  if (0 <? length r1) && (0 <? length r2) then
    let angle1 := angle_2v (map vector r1) (map vector r2) in
    let angle2 := angle (zip_with (padd coords_dtype)
                                  (map vector r1) (map centroid r1))
                        (map centroid r1) (map centroid r2) in
    strict_parallel <-
      broadcast2 andb (map (near_axis tolerance) angle1)
                      (map (near_axis tolerance) angle2) ;;
    strict_perpendicular <-
      broadcast2 andb (map (near_normal tolerance) angle1)
                      (map (near_axis tolerance) angle2) ;;
    Ok (r1, r2, strict_parallel, strict_perpendicular)
  else
    Ok (r1, r2, [], []).

Definition salt_bridge_plus_minus (mol1 mol2 : Molecule) (cutoff : fnum)
  : result (list atom * list atom) :=
  '(m1_plus, m2_minus) <-
    close_contacts (filter isplus (atom_dict mol1))
                   (filter isminus (atom_dict mol2))
                   cutoff coords coords cutoff_low_default ;;
  Ok (m1_plus, m2_minus).

Definition salt_bridges (mol1 mol2 : Molecule) (cutoff : fnum)
  : result (list atom * list atom) :=
  '(m1_plus, m2_minus) <- salt_bridge_plus_minus mol1 mol2 cutoff ;;
  '(m2_plus, m1_minus) <- salt_bridge_plus_minus mol2 mol1 cutoff ;;
  Ok (m1_plus ++ m1_minus, m2_minus ++ m2_plus).

Definition hydrophobic_contacts (mol1 mol2 : Molecule) (cutoff : fnum)
  : result (list atom * list atom) :=
  '(h1, h2) <- close_contacts (filter ishydrophobe (atom_dict mol1))
                              (filter ishydrophobe (atom_dict mol2))
                              cutoff coords coords cutoff_low_default ;;
  Ok (h1, h2).

Definition pi_cation (mol1 mol2 : Molecule) (cutoff tolerance : fnum)
  : result (list ring * list atom * list bool) :=
  '(r1, plus2) <- close_contacts (ring_dict mol1)
                                 (filter isplus (atom_dict mol2))
                                 cutoff centroid coords cutoff_low_default ;;
  if (0 <? length r1) && (0 <? length plus2) then
    let angle1 := angle_2v (map vector r1)
                           (zip_with (psub coords_dtype) (map coords plus2)
                                     (map centroid r1)) in
    let strict := map (near_axis tolerance) angle1 in
    Ok (r1, plus2, strict)
  else
    Ok (r1, plus2, []).

Definition acceptor_metal (mol1 mol2 : Molecule) (tolerance cutoff : fnum)
  : result (list atom * list atom * list bool) :=
  '(a, m) <- close_contacts (filter isacceptor (atom_dict mol1))
                            (filter ismetal (atom_dict mol2))
                            cutoff coords coords cutoff_low_default ;;
  if (0 <? length a) && (0 <? length m) then
    let angle1 := angle_newaxis (map coords m) (map coords a)
                                (map neighbors a) in
    strict <- _check_angles angle1 (map hybridization a) tolerance ;;
    Ok (a, m, strict)
  else
    Ok (a, m, []).

Definition pi_metal (mol1 mol2 : Molecule) (cutoff tolerance : fnum)
  : result (list ring * list atom * list bool) :=
  '(r1, m) <- close_contacts (ring_dict mol1)
                             (filter ismetal (atom_dict mol2))
                             cutoff centroid coords cutoff_low_default ;;
  if (0 <? length r1) && (0 <? length m) then
    let angle1 := angle_2v (map vector r1)
                           (zip_with (psub coords_dtype) (map coords m)
                                     (map centroid r1)) in
    let strict := map (near_axis tolerance) angle1 in
    Ok (r1, m, strict)
  else
    Ok (r1, m, []).

End Interactions.

(** * Vocabulary of the statements *)

(** [ideal - tolerance < a < ideal + tolerance], both ends open. *)
Definition in_band (ideal tolerance a : fnum) : bool :=
  fgt a (fsub ideal tolerance) && flt a (fadd ideal tolerance).

(** What [_check_angles] computes for one pair: some slot of the row, after
    [nan_to_num], lies in the band around the ideal angle. *)
Definition row_strict (tolerance : fnum) (row : list fnum) (ideal : fnum)
  : bool :=
  existsb (fun a => in_band ideal tolerance (nan_to_num a)) row.

(** The hybridization codes [np.take] accepts on the five-entry table. *)
Definition valid_code (h : Z) : Prop := (-5 <= h < 5)%Z.

(** Number of pairs of a detector's outcome, [None] when it raised. *)
Definition pair_count2 {A B} (r : result (list A * list B)) : option nat :=
  match r with
  | Ok (l, _) => Some (length l)
  | Raise _ => None
  end.

Definition pair_count3 {A B C} (r : result (list A * list B * C))
  : option nat :=
  match r with
  | Ok (l, _, _) => Some (length l)
  | Raise _ => None
  end.

(** The measured angles of one acceptor-partner pair: at the acceptor,
    between the partner and each neighbor of the acceptor; at the partner,
    between the acceptor and each neighbor of the partner. *)
Definition acceptor_side_angles (point_angle : point -> point -> point -> fnum)
  (a d : atom) : list fnum :=
  map (point_angle (coords d) (coords a)) (neighbors a).

Definition partner_side_angles (point_angle : point -> point -> point -> fnum)
  (a d : atom) : list fnum :=
  map (point_angle (coords a) (coords d)) (neighbors d).

(** The strictness computation shared by [hbond_acceptor_donor] and
    [halogenbond_acceptor_halogen] on the aligned arrays [a] and [d]. *)
Definition two_sided_strict (point_angle : point -> point -> point -> fnum)
  (a d : list atom) (tolerance : fnum) : result (list bool) :=
  s1 <- _check_angles
          (angle_newaxis point_angle (map coords d) (map coords a)
                         (map neighbors a))
          (map hybridization a) tolerance ;;
  s2 <- _check_angles
          (angle_newaxis point_angle (map coords a) (map coords d)
                         (map neighbors d))
          (map hybridization d) tolerance ;;
  broadcast2 andb s1 s2.

(** The two angles [pi_stacking] measures on a pair of rings. *)
Definition normals_angle (vector_angle : point -> point -> fnum)
  (ra rb : ring) : fnum :=
  vector_angle (vector ra) (vector rb).

Definition centroid_angle (point_angle : point -> point -> point -> fnum)
  (coords_dtype : dtype) (ra rb : ring) : fnum :=
  point_angle (padd coords_dtype (vector ra) (centroid ra)) (centroid ra)
              (centroid rb).

(** The classifier agrees with the open band, pair by pair: it returns one
    flag per pair, and the flag of pair [k] is true exactly when some measured
    angle of that pair lies strictly inside the band around the ideal angle
    of the pair's hybridization code. *)
Definition classifier_matches_band (angles : list (list fnum))
  (hybs : list Z) (t : fnum) : Prop :=
  exists res,
    _check_angles angles hybs t = Ok res /\
    length res = length angles /\
    forall k row h,
      nth_error angles k = Some row ->
      nth_error hybs k = Some h ->
      exists ideal,
        np_take BASE_ANGLES h = Ok ideal /\
        (nth_error res k = Some true <->
         exists a, In a row /\ in_band ideal t a = true).

(** [lo < d <= hi]: the window of [close_contacts] on one distance. *)
Definition in_window (lo hi d : fnum) : bool := fgt d lo && fle d hi.

(** The index array [index] computed inside [close_contacts]. *)
Definition contact_index (point_distance : point -> point -> fnum) {A B}
  (x : list A) (y : list B) (cutoff : fnum)
  (x_column : A -> point) (y_column : B -> point) (cutoff_low : fnum)
  : list (nat * nat) :=
  argwhere (window_mask
              (distance point_distance (map x_column x) (map y_column y))
              cutoff_low cutoff).

(** The shape shared by [hbonds] and [halogenbonds]: the single-sided
    detector is run in both directions and the results are concatenated, the
    arrays of the second run in swapped order. *)
Definition symmetrize
  (single : Molecule -> Molecule ->
            result (list atom * list atom * list bool))
  (mol1 mol2 : Molecule) : result (list atom * list atom * list bool) :=
  '(a1, d1, s1) <- single mol1 mol2 ;;
  '(a2, d2, s2) <- single mol2 mol1 ;;
  Ok (a1 ++ d2, d1 ++ a2, s1 ++ s2).

(** Every atom of [l] is a row of the molecule's [atom_dict]. *)
Definition atoms_of (mol : Molecule) (l : list atom) : Prop :=
  Forall (fun v => In v (atom_dict mol)) l.

(** Every hybridization code of the molecule indexes the ideal-angle
    table. *)
Definition valid_codes (mol : Molecule) : Prop :=
  Forall (fun v => valid_code (hybridization v)) (atom_dict mol).

(** What a single-sided, strictness-classifying detector returns when it
    returns: aligned arrays, the first of atoms of [mol1], the second of
    atoms of [mol2]. *)
Definition single_sided_sound
  (single : Molecule -> Molecule ->
            result (list atom * list atom * list bool)) : Prop :=
  forall mol1 mol2 a d s,
    single mol1 mol2 = Ok (a, d, s) ->
    length d = length a /\ length s = length a /\
    atoms_of mol1 a /\ atoms_of mol2 d.

(** What is claimed of a detector [both] that searches in both directions
    with the single-sided detector [single]: swapping the structures does not
    change the number of pairs; on structures with valid hybridization codes
    it returns; and what it returns is the concatenation of the two
    single-sided results, arranged so that the first array holds atoms of
    [mol1] only and the second atoms of [mol2] only, the three arrays being
    aligned. *)
Definition bidirectional_spec
  (single both : Molecule -> Molecule ->
                 result (list atom * list atom * list bool))
  (mol1 mol2 : Molecule) : Prop :=
  pair_count3 (both mol1 mol2) = pair_count3 (both mol2 mol1) /\
  (valid_codes mol1 -> valid_codes mol2 -> exists r, both mol1 mol2 = Ok r) /\
  forall m1s m2s s,
    both mol1 mol2 = Ok (m1s, m2s, s) ->
    exists a1 d1 s1 a2 d2 s2,
      single mol1 mol2 = Ok (a1, d1, s1) /\
      single mol2 mol1 = Ok (a2, d2, s2) /\
      m1s = a1 ++ d2 /\ m2s = d1 ++ a2 /\ s = s1 ++ s2 /\
      atoms_of mol1 m1s /\ atoms_of mol2 m2s /\
      length m2s = length m1s /\ length s = length m1s.

(** * Sample structures

    Two small structures on which the statements are instantiated: an
    acceptor with one neighbor and a ring in the first, a donor with one
    neighbor and a ring in the second; a structure without atoms or rings;
    and an acceptor whose hybridization code lies outside the table. *)

Definition at_xyz (x y z : Q) : point := mkpoint (Fin x) (Fin y) (Fin z).

Definition sample_acceptor : atom :=
  mkatom (at_xyz 0 0 0) [at_xyz (-1) 0 0] 1
         true false false false false false false.

Definition sample_donor : atom :=
  mkatom (at_xyz 3 0 0) [at_xyz 4 0 0] 1
         false true false false false false false.

Definition sample_acceptor_code7 : atom :=
  mkatom (at_xyz 0 0 0) [at_xyz (-1) 0 0] 7
         true false false false false false false.

(** An acceptor of hybridization code 0 whose two neighbor slots are
    unused, and a metal ion. *)
Definition nan_point : point := mkpoint NaN NaN NaN.

Definition sample_acceptor_code0 : atom :=
  mkatom (at_xyz 0 0 0) [nan_point; nan_point] 0
         true false false false false false false.

Definition sample_metal : atom :=
  mkatom (at_xyz 3 0 0) [nan_point; nan_point] 0
         false false false false false false true.

Definition sample_ring_a : ring := mkring (at_xyz 0 0 0) (at_xyz 0 0 1).
Definition sample_ring_b : ring := mkring (at_xyz 0 0 4) (at_xyz 0 0 1).

Definition sample_mol1 : Molecule := mkmol [sample_acceptor] [sample_ring_a].
Definition sample_mol2 : Molecule := mkmol [sample_donor] [sample_ring_b].
Definition sample_mol_code7 : Molecule := mkmol [sample_acceptor_code7] [].
Definition empty_mol : Molecule := mkmol [] [].

(** Geometry on the sample structures: every pair of points is 3.0 (resp.
    4.0) apart, every measured angle is 179 (resp. 0) degrees. *)
Definition distance_3 (p q : point) : fnum := Fin 3.
Definition distance_4 (p q : point) : fnum := Fin 4.
Definition angle_179 (p1 p2 p3 : point) : fnum := Fin 179.
Definition angle_0 (p1 p2 p3 : point) : fnum := Fin 0.
Definition angle_2v_0 (v1 v2 : point) : fnum := Fin 0.

(** The angle to an unused neighbor slot. *)
Definition angle_nan (p1 p2 p3 : point) : fnum := NaN.

(** Row-major order of positions in a two-dimensional array: by row, then
    by column. *)
Definition row_major_lt (p q : nat * nat) : Prop :=
  (fst p < fst q)%nat \/ (fst p = fst q /\ (snd p < snd q)%nat).

(** A position of the distance matrix of [(x, y)] read in that of
    [(y, x)]. *)
Definition transpose_position (p : nat * nat) : nat * nat := (snd p, fst p).

(** Distance of two points by their first coordinate, the euclidean distance
    of points on one axis. *)
Definition distance_x (p q : point) : fnum :=
  match px p, px q with
  | Fin a, Fin b => Fin (Qabs (a - b))
  | _, _ => NaN
  end.

(** [a] and [b] form a contact of the two structures under the selectors
    [f] and [g]: [a] is a row of [mol1] selected by [f], [b] a row of [mol2]
    selected by [g], and their distance lies in the window
    [(0, cutoff]]. *)
Definition contact_of (point_distance : point -> point -> fnum)
  (cutoff : fnum) (mol1 mol2 : Molecule) (f g : atom -> bool) (a b : atom)
  : Prop :=
  In a (atom_dict mol1) /\ f a = true /\
  In b (atom_dict mol2) /\ g b = true /\
  fgt (point_distance (coords a) (coords b)) cutoff_low_default = true /\
  fle (point_distance (coords a) (coords b)) cutoff = true.

(** The angle [pi_cation] and [pi_metal] measure on a ring and an atom:
    between the ring normal and the vector from the centroid to the atom. *)
Definition ring_atom_angle (vector_angle : point -> point -> fnum)
  (coords_dtype : dtype) (ra : ring) (b : atom) : fnum :=
  vector_angle (vector ra) (psub coords_dtype (coords b) (centroid ra)).

(** [ra] and [b] form a ring-atom contact under the selector [g]. *)
Definition ring_contact_of (point_distance : point -> point -> fnum)
  (cutoff : fnum) (mol1 mol2 : Molecule) (g : atom -> bool)
  (ra : ring) (b : atom) : Prop :=
  In ra (ring_dict mol1) /\ In b (atom_dict mol2) /\ g b = true /\
  fgt (point_distance (centroid ra) (coords b)) cutoff_low_default = true /\
  fle (point_distance (centroid ra) (coords b)) cutoff = true.

(** [b] is implied by [b']: a flag that can only be switched on. *)
Definition flag_le (b b' : bool) : Prop := b = true -> b' = true.

(** Further sample atoms: two hydrophobes 2.0 apart on the first axis, a
    halogen with one neighbor, and a metal whose hybridization code lies
    outside the table. *)
Definition sample_hydrophobe_a : atom :=
  mkatom (at_xyz 0 0 0) [nan_point] 3
         false false false false false true false.

Definition sample_hydrophobe_b : atom :=
  mkatom (at_xyz 2 0 0) [nan_point] 3
         false false false false false true false.

Definition sample_halogen : atom :=
  mkatom (at_xyz 3 0 0) [at_xyz 4 0 0] 0
         false false true false false false false.

Definition sample_metal_code9 : atom :=
  mkatom (at_xyz 3 0 0) [nan_point] 9
         false false false false false false true.

Definition sample_mol_hydrophobes : Molecule :=
  mkmol [sample_hydrophobe_a; sample_hydrophobe_b] [].

(** A measured angle of the row, that is a slot that is not NaN, lies
    strictly inside the band around the ideal angle. *)
Definition measured_in_band (ideal tolerance : fnum) (row : list fnum)
  : Prop :=
  exists x, In x row /\ is_nan x = false /\ in_band ideal tolerance x = true.

(** One side of a pair passes the angular check: a measured angle of that
    side lies inside the band; or one of the slots is NaN and 0.0, the value
    [np.nan_to_num] puts in its place, lies inside the band. *)
Definition side_passes (ideal tolerance : fnum) (row : list fnum) : Prop :=
  measured_in_band ideal tolerance row \/
  (In NaN row /\ in_band ideal tolerance (Fin 0) = true).

(** An acceptor of hybridization code 1 without neighbors: its only neighbor
    slot is the NaN padding.  In the geometry [angle_179_measured] an angle
    to a padding slot is NaN and every other angle is 179 degrees. *)
Definition sample_acceptor_bare : atom :=
  mkatom (at_xyz 0 0 0) [nan_point] 1
         true false false false false false false.

Definition sample_mol_bare : Molecule := mkmol [sample_acceptor_bare] [].

Definition angle_179_measured (p1 p2 p3 : point) : fnum :=
  match px p3 with
  | NaN => NaN
  | Fin _ => Fin 179
  end.

(** * Properties *)

(** ** Comparisons *)

Lemma Qlt_bool_iff (x y : Q) : Qlt_bool x y = true <-> x < y.
Proof.
  unfold Qlt_bool. rewrite negb_true_iff. split; intro H.
  - apply Qnot_le_lt. intro Hle. apply Qle_bool_iff in Hle. congruence.
  - destruct (Qle_bool y x) eqn:E; [|reflexivity].
    apply Qle_bool_iff in E. exfalso. apply (Qlt_not_le _ _ H E).
Qed.

Lemma flt_Fin (x y : Q) : flt (Fin x) (Fin y) = true <-> x < y.
Proof. apply Qlt_bool_iff. Qed.

Lemma fgt_Fin (x y : Q) : fgt (Fin x) (Fin y) = true <-> y < x.
Proof. apply Qlt_bool_iff. Qed.

Lemma fle_Fin (x y : Q) : fle (Fin x) (Fin y) = true <-> x <= y.
Proof. apply Qle_bool_iff. Qed.

Lemma flt_true_inv (a b : fnum) :
  flt a b = true -> exists x y, a = Fin x /\ b = Fin y /\ x < y.
Proof.
  destruct a as [|x], b as [|y]; simpl; try discriminate.
  intro H. exists x, y. repeat split. now apply Qlt_bool_iff.
Qed.

Lemma fle_true_inv (a b : fnum) :
  fle a b = true -> exists x y, a = Fin x /\ b = Fin y /\ x <= y.
Proof.
  destruct a as [|x], b as [|y]; simpl; try discriminate.
  intro H. exists x, y. repeat split. now apply Qle_bool_iff.
Qed.

Lemma flt_irrefl (a : fnum) : flt a a = false.
Proof.
  destruct (flt a a) eqn:E; [|reflexivity].
  apply flt_true_inv in E as (x & y & -> & Hy & Hlt).
  injection Hy as <-. exfalso. apply (Qlt_irrefl _ Hlt).
Qed.

Lemma nan_to_num_Fin (a : fnum) : is_nan a = false -> nan_to_num a = a.
Proof. destruct a; [discriminate | reflexivity]. Qed.

(** ** Rounding to nearest

    What the proofs use of [round_to]: it is monotone, it keeps the sign, and
    it depends on the value of its argument only. *)

Unset Implicit Arguments.

Lemma pow2_pos (e : Z) : 0 < pow2 e.
Proof. apply Qpower_0_lt. reflexivity. Qed.

Lemma pow2_plus (a b : Z) : pow2 (a + b) == pow2 a * pow2 b.
Proof. apply Qpower_plus. discriminate. Qed.

Lemma pow2_minus (a b : Z) : pow2 (a - b) == pow2 a / pow2 b.
Proof. apply Qpower_minus. discriminate. Qed.

Lemma pow2_succ (a : Z) : pow2 (a + 1) == 2 * pow2 a.
Proof. rewrite pow2_plus. unfold pow2 at 2. rewrite Qpower_1_r. ring. Qed.

Lemma pow2_le (a b : Z) : (a <= b)%Z -> pow2 a <= pow2 b.
Proof. intro H. apply Qpower_le_compat_l; [assumption|]. discriminate. Qed.

Lemma pow2_lt_inv (a b : Z) : pow2 a < pow2 b -> (a < b)%Z.
Proof. intro H. apply (Qpower_lt_compat_l_inv 2); [assumption|reflexivity]. Qed.

Lemma pow2_inject (n : Z) : (0 <= n)%Z -> inject_Z (2 ^ n) == pow2 n.
Proof. intro H. unfold pow2. now rewrite Zpower_Qpower. Qed.

Lemma log2_bounds_Q (n : Z) :
  (0 < n)%Z ->
  pow2 (Z.log2 n) <= inject_Z n /\ inject_Z n < 2 * pow2 (Z.log2 n).
Proof.
  intro H. destruct (Z.log2_spec n H) as [Hlo Hhi].
  pose proof (Z.log2_nonneg n) as Hnn.
  split.
  - rewrite <- pow2_inject by assumption. now rewrite <- Zle_Qle.
  - rewrite <- pow2_succ. rewrite <- pow2_inject by lia.
    rewrite <- Zlt_Qlt. exact Hhi.
Qed.

Lemma ilog2_spec (x : Q) :
  0 < x -> pow2 (ilog2 x) <= x /\ x < pow2 (ilog2 x + 1).
Proof.
  intro Hx. destruct x as [n d].
  assert (Hn : (0 < n)%Z).
  { unfold Qlt in Hx. cbn in Hx. lia. }
  unfold ilog2. cbn [Qnum Qden].
  set (a := Z.log2 n). set (b := Z.log2 (Z.pos d)).
  destruct (log2_bounds_Q n Hn) as [Ha1 Ha2]. fold a in Ha1, Ha2.
  destruct (log2_bounds_Q (Z.pos d) eq_refl) as [Hb1 Hb2].
  fold b in Hb1, Hb2.
  pose proof (pow2_pos a) as Pa. pose proof (pow2_pos b) as Pb.
  assert (Hk : pow2 (a - b) * pow2 b == pow2 a).
  { rewrite <- pow2_plus. apply Qpower_comp; [reflexivity|lia]. }
  assert (Hk1 : pow2 (a - b - 1 + 1) == pow2 (a - b)).
  { apply Qpower_comp; [reflexivity|lia]. }
  pose proof (pow2_succ (a - b)) as Hs.
  pose proof (pow2_succ (a - b - 1)) as Hs'. rewrite Hk1 in Hs'.
  pose proof (pow2_pos (a - b)) as Pk.
  pose proof (pow2_pos (a - b - 1)) as Pk'.
  assert (Hxd : (n # d) * inject_Z (Z.pos d) == inject_Z n).
  { rewrite (Qmake_Qdiv n d). field. discriminate. }
  assert (Pd : 0 < inject_Z (Z.pos d)) by reflexivity.
  set (X := n # d) in *. set (D := inject_Z (Z.pos d)) in *.
  set (N := inject_Z n) in *.
  destruct (Qle_bool (pow2 (a - b)) X) eqn:E.
  - apply Qle_bool_iff in E. split; [assumption|].
    rewrite Hs. nra.
  - assert (E' : X < pow2 (a - b)).
    { apply Qnot_le_lt. intro H. apply Qle_bool_iff in H. congruence. }
    rewrite Hk1. split; [|assumption].
    nra.
Qed.

Lemma ilog2_unique (x : Q) (e : Z) :
  pow2 e <= x -> x < pow2 (e + 1) -> 0 < x -> ilog2 x = e.
Proof.
  intros Hlo Hhi Hx. destruct (ilog2_spec x Hx) as [H1 H2].
  assert (A : (e < ilog2 x + 1)%Z).
  { apply pow2_lt_inv. eapply Qle_lt_trans; eassumption. }
  assert (B : (ilog2 x < e + 1)%Z).
  { apply pow2_lt_inv. eapply Qle_lt_trans; eassumption. }
  lia.
Qed.

Lemma ilog2_mono (x y : Q) : 0 < x -> x <= y -> (ilog2 x <= ilog2 y)%Z.
Proof.
  intros Hx Hxy. assert (Hy : 0 < y) by lra.
  destruct (ilog2_spec x Hx) as [H1 _].
  destruct (ilog2_spec y Hy) as [_ H2].
  assert (A : (ilog2 x < ilog2 y + 1)%Z).
  { apply pow2_lt_inv. lra. }
  lia.
Qed.

Lemma round_half_even_near (m : Q) :
  inject_Z (round_half_even m) - (1 # 2) <= m /\
  m <= inject_Z (round_half_even m) + (1 # 2).
Proof.
  unfold round_half_even.
  pose proof (Qfloor_le m) as Hlo. pose proof (Qlt_floor m) as Hhi.
  rewrite inject_Z_plus in Hhi.
  change (inject_Z 1) with 1 in Hhi.
  destruct (Qcompare (m - inject_Z (Qfloor m)) (1 # 2)) eqn:E.
  - apply Qeq_alt in E.
    destruct (Z.even (Qfloor m)); rewrite ?inject_Z_plus;
      change (inject_Z 1) with 1; split; lra.
  - apply Qlt_alt in E. split; lra.
  - apply Qgt_alt in E. rewrite inject_Z_plus.
    change (inject_Z 1) with 1. split; lra.
Qed.

Lemma round_half_even_comp (m m' : Q) :
  m == m' -> round_half_even m = round_half_even m'.
Proof.
  intro H. unfold round_half_even.
  rewrite (Qfloor_comp _ _ H).
  assert (E : m - inject_Z (Qfloor m') == m' - inject_Z (Qfloor m'))
    by (rewrite H; reflexivity).
  now rewrite (Qcompare_comp _ _ E _ _ (Qeq_refl (1 # 2))).
Qed.

Lemma round_half_even_mono (m m' : Q) :
  m <= m' -> (round_half_even m <= round_half_even m')%Z.
Proof.
  intro H.
  destruct (Z_le_gt_dec (round_half_even m) (round_half_even m'))
    as [Hle|Hgt]; [assumption|].
  exfalso.
  destruct (round_half_even_near m) as [A _].
  destruct (round_half_even_near m') as [_ B].
  assert (C : inject_Z (round_half_even m') + 1
              <= inject_Z (round_half_even m)).
  { change 1 with (inject_Z 1). rewrite <- inject_Z_plus.
    rewrite <- Zle_Qle. lia. }
  assert (E : m == m') by lra.
  apply round_half_even_comp in E. lia.
Qed.

Lemma round_half_even_Z (n : Z) : round_half_even (inject_Z n) = n.
Proof.
  unfold round_half_even. rewrite Qfloor_Z.
  assert (E : Qcompare (inject_Z n - inject_Z n) (1 # 2) = Lt).
  { rewrite <- Qlt_alt. set (z := inject_Z n).
    assert (H : z - z == 0) by ring. rewrite H. reflexivity. }
  now rewrite E.
Qed.

Section Precision.

Variable p : Z.
Variable qmin : Z.
Hypothesis p_pos : (1 <= p)%Z.

Lemma round_half_even_nonneg (m : Q) : 0 <= m -> (0 <= round_half_even m)%Z.
Proof.
  intro H. apply round_half_even_mono in H.
  change (round_half_even 0) with 0%Z in H. exact H.
Qed.

Lemma round_magnitude_nonneg (x : Q) : 0 < x -> 0 <= round_magnitude p qmin x.
Proof.
  intro Hx. unfold round_magnitude.
  set (e := Z.max (ilog2 x - (p - 1)) qmin).
  pose proof (pow2_pos e) as Pe.
  assert (Hm : 0 <= x / pow2 e).
  { apply Qle_shift_div_l; [assumption|]. lra. }
  apply round_half_even_nonneg in Hm. rewrite Zle_Qle in Hm.
  change (inject_Z 0) with 0 in Hm.
  apply Qmult_le_0_compat; lra.
Qed.

Lemma round_magnitude_upper (x : Q) :
  0 < x -> round_magnitude p qmin x <= pow2 (ilog2 x + 1).
Proof.
  intro Hx. destruct (ilog2_spec x Hx) as [_ Hhi].
  unfold round_magnitude.
  set (e := Z.max (ilog2 x - (p - 1)) qmin).
  pose proof (pow2_pos e) as Pe.
  set (k := (ilog2 x + 1 - e)%Z).
  assert (E : pow2 (ilog2 x + 1) == pow2 k * pow2 e).
  { rewrite <- pow2_plus. apply Qpower_comp; [reflexivity|]. unfold k. lia. }
  assert (Hm : x / pow2 e <= pow2 k).
  { apply Qle_shift_div_r; [assumption|]. lra. }
  destruct (Z_le_gt_dec 0 k) as [Hk|Hk].
  - pose proof (pow2_inject k Hk) as I.
    assert (Hm2 : x / pow2 e <= inject_Z (2 ^ k)) by lra.
    apply round_half_even_mono in Hm2. rewrite round_half_even_Z in Hm2.
    rewrite Zle_Qle in Hm2.
    rewrite E. apply Qmult_le_compat_r; lra.
  - assert (Hh : pow2 k <= 1 # 2).
    { assert (L : pow2 k <= pow2 (-1)) by (apply pow2_le; lia).
      assert (L' : pow2 (-1) == 1 # 2) by reflexivity. lra. }
    assert (Hm' : x / pow2 e <= 1 # 2) by lra.
    apply round_half_even_mono in Hm'.
    change (round_half_even (1 # 2)) with 0%Z in Hm'.
    rewrite Zle_Qle in Hm'. change (inject_Z 0) with 0 in Hm'.
    pose proof (pow2_pos (ilog2 x + 1)) as Pu.
    assert (Hz : inject_Z (round_half_even (x / pow2 e)) * pow2 e <= 0).
    { rewrite <- (Qmult_0_l (pow2 e)). apply Qmult_le_compat_r; lra. }
    lra.
Qed.

Lemma round_magnitude_lower (x : Q) :
  0 < x -> (qmin <= ilog2 x - (p - 1))%Z ->
  pow2 (ilog2 x) <= round_magnitude p qmin x.
Proof.
  intros Hx Hn. destruct (ilog2_spec x Hx) as [Hlo _].
  unfold round_magnitude. rewrite Z.max_l by assumption.
  set (e := (ilog2 x - (p - 1))%Z).
  pose proof (pow2_pos e) as Pe.
  assert (E : pow2 (ilog2 x) == pow2 (p - 1) * pow2 e).
  { rewrite <- pow2_plus. apply Qpower_comp; [reflexivity|]. unfold e. lia. }
  assert (Hm : pow2 (p - 1) <= x / pow2 e).
  { apply Qle_shift_div_l; [assumption|]. lra. }
  assert (I : inject_Z (2 ^ (p - 1)) == pow2 (p - 1))
    by (apply pow2_inject; lia).
  assert (Hm2 : inject_Z (2 ^ (p - 1)) <= x / pow2 e) by lra.
  apply round_half_even_mono in Hm2. rewrite round_half_even_Z in Hm2.
  rewrite Zle_Qle in Hm2.
  rewrite E. apply Qmult_le_compat_r; lra.
Qed.

Lemma round_magnitude_mono (x y : Q) :
  0 < x -> x <= y -> round_magnitude p qmin x <= round_magnitude p qmin y.
Proof.
  intros Hx Hxy. assert (Hy : 0 < y) by lra.
  pose proof (ilog2_mono x y Hx Hxy) as Hl.
  destruct (Z.eq_dec (Z.max (ilog2 x - (p - 1)) qmin)
                     (Z.max (ilog2 y - (p - 1)) qmin)) as [E|N].
  - unfold round_magnitude. rewrite E.
    set (e := Z.max (ilog2 y - (p - 1)) qmin).
    pose proof (pow2_pos e) as Pe.
    apply Qmult_le_compat_r; [|lra].
    rewrite <- Zle_Qle. apply round_half_even_mono.
    apply Qmult_le_compat_r; [assumption|].
    apply Qlt_le_weak. now apply Qinv_lt_0_compat.
  - pose proof (round_magnitude_upper x Hx) as A.
    assert (B : pow2 (ilog2 y) <= round_magnitude p qmin y)
      by (apply round_magnitude_lower; [assumption|lia]).
    assert (C : pow2 (ilog2 x + 1) <= pow2 (ilog2 y)) by (apply pow2_le; lia).
    lra.
Qed.

Lemma round_magnitude_comp (x y : Q) :
  0 < x -> x == y -> round_magnitude p qmin x == round_magnitude p qmin y.
Proof.
  intros Hx E. assert (Hy : 0 < y) by lra.
  apply Qle_antisym; apply round_magnitude_mono; lra.
Qed.

Lemma round_to_nonneg (x : Q) : 0 <= x -> 0 <= round_to p qmin x.
Proof.
  intro Hx. unfold round_to.
  destruct (Qcompare x 0) eqn:E.
  - lra.
  - apply Qlt_alt in E. lra.
  - apply Qgt_alt in E. now apply round_magnitude_nonneg.
Qed.

Lemma round_to_nonpos (x : Q) : x <= 0 -> round_to p qmin x <= 0.
Proof.
  intro Hx. unfold round_to.
  destruct (Qcompare x 0) eqn:E.
  - lra.
  - apply Qlt_alt in E.
    assert (H : 0 <= round_magnitude p qmin (- x))
      by (apply round_magnitude_nonneg; lra).
    lra.
  - apply Qgt_alt in E. lra.
Qed.

Lemma round_to_mono (x y : Q) :
  x <= y -> round_to p qmin x <= round_to p qmin y.
Proof.
  intro Hxy.
  destruct (Qlt_le_dec x 0) as [Hx|Hx]; destruct (Qlt_le_dec y 0) as [Hy|Hy].
  - unfold round_to.
    assert (Ex : Qcompare x 0 = Lt) by (now apply Qlt_alt).
    assert (Ey : Qcompare y 0 = Lt) by (now apply Qlt_alt).
    rewrite Ex, Ey.
    assert (H : round_magnitude p qmin (- y) <= round_magnitude p qmin (- x))
      by (apply round_magnitude_mono; lra).
    lra.
  - assert (A : round_to p qmin x <= 0) by (apply round_to_nonpos; lra).
    pose proof (round_to_nonneg y Hy). lra.
  - lra.
  - destruct (Qlt_le_dec 0 x) as [Px|Zx].
    + unfold round_to.
      assert (Ex : Qcompare x 0 = Gt) by (now apply Qgt_alt).
      assert (Ey : Qcompare y 0 = Gt) by (apply Qgt_alt; lra).
      rewrite Ex, Ey. now apply round_magnitude_mono.
    + assert (A : round_to p qmin x <= 0) by (now apply round_to_nonpos).
      pose proof (round_to_nonneg y Hy). lra.
Qed.

Lemma round_to_comp (x y : Q) :
  x == y -> round_to p qmin x == round_to p qmin y.
Proof. intro E. apply Qle_antisym; apply round_to_mono; lra. Qed.

Hypothesis qmin_nonpos : (qmin <= 0)%Z.

Lemma round_magnitude_inject (z : Z) :
  (0 < z < 2 ^ p)%Z -> round_magnitude p qmin (inject_Z z) == inject_Z z.
Proof.
  intros [Hz Hp].
  assert (Hx : 0 < inject_Z z).
  { change 0 with (inject_Z 0). now rewrite <- Zlt_Qlt. }
  destruct (ilog2_spec (inject_Z z) Hx) as [Hlo _].
  assert (Hl : (ilog2 (inject_Z z) < p)%Z).
  { apply pow2_lt_inv. eapply Qle_lt_trans; [exact Hlo|].
    assert (Hq : inject_Z z < inject_Z (2 ^ p)) by (now rewrite <- Zlt_Qlt).
    rewrite pow2_inject in Hq by lia. exact Hq. }
  unfold round_magnitude.
  set (e := Z.max (ilog2 (inject_Z z) - (p - 1)) qmin).
  assert (He : (e <= 0)%Z) by (unfold e; lia).
  pose proof (pow2_pos e) as Pe.
  assert (Hk : pow2 e * inject_Z (2 ^ (- e)) == 1).
  { rewrite pow2_inject by lia. rewrite <- pow2_plus.
    replace (e + - e)%Z with 0%Z by lia. reflexivity. }
  assert (HK : inject_Z (2 ^ (- e)) == / pow2 e).
  { rewrite <- (Qmult_1_l (/ pow2 e)). rewrite <- Hk. field. lra. }
  assert (Hm : inject_Z z / pow2 e == inject_Z (z * 2 ^ (- e))).
  { rewrite inject_Z_mult, HK. reflexivity. }
  rewrite (round_half_even_comp _ _ Hm), round_half_even_Z.
  rewrite inject_Z_mult, HK. field. lra.
Qed.

Lemma round_to_inject (z : Z) :
  (Z.abs z < 2 ^ p)%Z -> round_to p qmin (inject_Z z) == inject_Z z.
Proof.
  intro Hz. unfold round_to.
  destruct (Z.lt_trichotomy z 0) as [H|[H|H]].
  - assert (E : Qcompare (inject_Z z) 0 = Lt).
    { apply (proj1 (Qlt_alt _ _)). change 0 with (inject_Z 0).
      now rewrite <- Zlt_Qlt. }
    rewrite E.
    assert (P : 0 < - inject_Z z).
    { rewrite <- inject_Z_opp. change 0 with (inject_Z 0).
      rewrite <- Zlt_Qlt. lia. }
    assert (C : - inject_Z z == inject_Z (- z)) by now rewrite inject_Z_opp.
    rewrite (round_magnitude_comp _ _ P C).
    rewrite round_magnitude_inject by lia. rewrite inject_Z_opp. ring.
  - subst z. reflexivity.
  - assert (E : Qcompare (inject_Z z) 0 = Gt).
    { apply (proj1 (Qgt_alt _ _)). change 0 with (inject_Z 0).
      now rewrite <- Zlt_Qlt. }
    rewrite E. apply round_magnitude_inject. lia.
Qed.

End Precision.

Lemma precision_pos (d : dtype) : (1 <= precision d)%Z.
Proof. now destruct d. Qed.

Lemma round_dtype_mono (d : dtype) (x y : Q) :
  x <= y -> round_dtype d x <= round_dtype d y.
Proof.
  intro H. unfold round_dtype.
  apply round_to_mono; [apply precision_pos|exact H].
Qed.

Lemma round_double_mono (x y : Q) : x <= y -> round_double x <= round_double y.
Proof. intro H. unfold round_double. now apply round_dtype_mono. Qed.

Lemma round_dtype_comp (d : dtype) (x y : Q) :
  x == y -> round_dtype d x == round_dtype d y.
Proof.
  intro H. unfold round_dtype.
  apply round_to_comp; [apply precision_pos|exact H].
Qed.

Lemma round_double_comp (x y : Q) : x == y -> round_double x == round_double y.
Proof. intro H. unfold round_double. now apply round_dtype_comp. Qed.

Lemma round_dtype_inject (d : dtype) (z : Z) :
  (Z.abs z < 2 ^ 24)%Z -> round_dtype d (inject_Z z) == inject_Z z.
Proof.
  intro H. unfold round_dtype.
  apply round_to_inject; destruct d; cbn [precision min_exponent]; lia.
Qed.

Lemma round_double_inject (z : Z) :
  (Z.abs z < 2 ^ 53)%Z -> round_double (inject_Z z) == inject_Z z.
Proof.
  intro H. unfold round_double, round_dtype.
  apply round_to_inject; cbn [precision min_exponent]; lia.
Qed.

(** The smallest positive double is not rounded away. *)
Lemma round_double_pos (x : Q) : pow2 (-1074) <= x -> 0 < round_double x.
Proof.
  intro H. apply round_double_mono in H.
  assert (E : round_double (pow2 (-1074)) == pow2 (-1074))
    by (vm_compute; reflexivity).
  pose proof (pow2_pos (-1074)). lra.
Qed.

Lemma round_double_neg (x : Q) : x <= - pow2 (-1074) -> round_double x < 0.
Proof.
  intro H. apply round_double_mono in H.
  assert (E : round_double (- pow2 (-1074)) == - pow2 (-1074))
    by (vm_compute; reflexivity).
  pose proof (pow2_pos (-1074)). lra.
Qed.

(** An integer bound below [2^24] in absolute value survives the double
    precision arithmetic and the conversion to either dtype. *)
Lemma cast_round_inject (d : dtype) (x : Q) (z : Z) :
  (Z.abs z < 2 ^ 24)%Z -> x == inject_Z z ->
  round_dtype d (round_double x) == inject_Z z.
Proof.
  intros H E.
  assert (E1 : round_double x == inject_Z z).
  { rewrite (round_double_comp x (inject_Z z) E).
    apply round_double_inject. lia. }
  rewrite (round_dtype_comp d _ _ E1).
  now apply round_dtype_inject.
Qed.

Lemma Qlt_bool_comp (x x' y y' : Q) :
  x == x' -> y == y' -> Qlt_bool x y = Qlt_bool x' y'.
Proof.
  intros Ex Ey. destruct (Qlt_bool x' y') eqn:E.
  - apply Qlt_bool_iff. apply Qlt_bool_iff in E. lra.
  - destruct (Qlt_bool x y) eqn:E'; [|reflexivity].
    apply Qlt_bool_iff in E'.
    assert (H : x' < y') by lra. apply Qlt_bool_iff in H. congruence.
Qed.

Set Implicit Arguments.

(** ** The error monad and the numpy primitives *)

Lemma mapM_Ok_Forall2 {A B} (f : A -> result B) (l : list A) (r : list B) :
  mapM f l = Ok r <-> Forall2 (fun a b => f a = Ok b) l r.
Proof.
  revert r. induction l as [|a l IH]; intros r; simpl.
  - split; intro H.
    + injection H as <-. constructor.
    + inversion H. reflexivity.
  - destruct (f a) as [b|e] eqn:Ea; simpl.
    + destruct (mapM f l) as [bs|e] eqn:El; simpl.
      * split; intro H.
        -- injection H as <-. constructor; [assumption|]. now apply IH.
        -- inversion H as [|? b' ? bs' Hb Hbs]; subst.
           rewrite Ea in Hb. injection Hb as <-.
           apply IH in Hbs. now injection Hbs as <-.
      * split; intro H; [discriminate|].
        inversion H as [|? b' ? bs' Hb Hbs]; subst.
        apply IH in Hbs. discriminate.
    + split; intro H; [discriminate|].
      inversion H as [|? b' ? bs' Hb Hbs]; subst. congruence.
Qed.

Lemma mapM_Ok_length {A B} (f : A -> result B) (l : list A) (r : list B) :
  mapM f l = Ok r -> length r = length l.
Proof.
  intro H. apply mapM_Ok_Forall2 in H.
  symmetry. eapply Forall2_length; eassumption.
Qed.

Lemma mapM_total {A B} (f : A -> result B) (l : list A) :
  Forall (fun a => exists b, f a = Ok b) l -> exists r, mapM f l = Ok r.
Proof.
  induction 1 as [|a l [b Hb] _ [r Hr]]; simpl.
  - now exists [].
  - rewrite Hb, Hr. simpl. now exists (b :: r).
Qed.

Lemma mapM_Raise {A B} (f : A -> result B) (e : exn) (l : list A) :
  Forall (fun a => (exists b, f a = Ok b) \/ f a = Raise e) l ->
  Exists (fun a => f a = Raise e) l ->
  mapM f l = Raise e.
Proof.
  induction l as [|a l IH]; intros Hall Hex; [inversion Hex|].
  inversion Hall as [|? ? Ha Hl]; subst. simpl.
  destruct Ha as [[b Hb]|Hr]; [|now rewrite Hr].
  rewrite Hb. simpl.
  inversion Hex as [? ? Hbad|? ? Hbad]; subst; [congruence|].
  now rewrite (IH Hl Hbad).
Qed.

Lemma zip_with_length {A B C} (f : A -> B -> C) xs ys :
  length xs = length ys -> length (zip_with f xs ys) = length xs.
Proof.
  revert ys. induction xs as [|x xs IH]; intros [|y ys] H; simpl in *;
    try discriminate; auto.
Qed.

Lemma zip_with_nth_error {A B C} (f : A -> B -> C) xs ys k x y :
  nth_error xs k = Some x -> nth_error ys k = Some y ->
  nth_error (zip_with f xs ys) k = Some (f x y).
Proof.
  revert ys k. induction xs as [|x0 xs IH]; intros [|y0 ys] [|k] Hx Hy;
    simpl in *; try discriminate.
  - now injection Hx as ->; injection Hy as ->.
  - eauto.
Qed.

Lemma broadcast2_aligned {A B C} (f : A -> B -> C) xs ys :
  length xs = length ys -> broadcast2 f xs ys = Ok (zip_with f xs ys).
Proof.
  intro H. unfold broadcast2.
  destruct xs as [|x [|x' xs]], ys as [|y [|y' ys]]; simpl in H;
    try discriminate; try reflexivity.
  injection H as H. cbn [length]. rewrite H, Nat.eqb_refl. reflexivity.
Qed.

(** The shapes on which a broadcast succeeds do not depend on the operation,
    and a pointwise implication between two operations carries over to their
    broadcasts. *)
Lemma broadcast2_mono {A B} (f g : A -> B -> bool) xs ys r :
  (forall x y, f x y = true -> g x y = true) ->
  broadcast2 f xs ys = Ok r ->
  exists r', broadcast2 g xs ys = Ok r' /\
             Forall2 (fun b b' => b = true -> b' = true) r r'.
Proof.
  intros Hfg.
  assert (Hmap : forall (h h' : B -> bool) l,
             (forall y, h y = true -> h' y = true) ->
             Forall2 (fun b b' => b = true -> b' = true) (map h l) (map h' l)).
  { intros h h' l Hh. induction l; simpl; constructor; auto. }
  assert (Hmap' : forall (h h' : A -> bool) l,
             (forall y, h y = true -> h' y = true) ->
             Forall2 (fun b b' => b = true -> b' = true) (map h l) (map h' l)).
  { intros h h' l Hh. induction l; simpl; constructor; auto. }
  assert (Hzip : forall l l',
             Forall2 (fun b b' => b = true -> b' = true)
                     (zip_with f l l') (zip_with g l l')).
  { induction l as [|a l IH]; intros [|b l']; simpl; constructor; auto. }
  unfold broadcast2.
  destruct xs as [|x [|x' xs]], ys as [|y [|y' ys]]; simpl; intro H;
    try discriminate;
    try (destruct (Nat.eqb (length xs) (length ys)); [|discriminate]);
    injection H as <-; eexists; (split; [reflexivity|]);
    repeat (constructor; auto).
Qed.

(** ** The ideal-angle lookup *)

Lemma np_take_BASE_valid (h : Z) :
  valid_code h -> exists q, np_take BASE_ANGLES h = Ok (Fin q).
Proof.
  unfold valid_code. intro H.
  assert (Hc : (h = -5 \/ h = -4 \/ h = -3 \/ h = -2 \/ h = -1 \/
                h = 0 \/ h = 1 \/ h = 2 \/ h = 3 \/ h = 4)%Z) by lia.
  repeat (destruct Hc as [-> | Hc]); try subst h;
    (eexists; vm_compute; reflexivity).
Qed.

Lemma np_take_BASE_invalid (h : Z) :
  ~ valid_code h -> np_take BASE_ANGLES h = Raise IndexError.
Proof.
  unfold valid_code, np_take. intro H.
  change (Z.of_nat (length BASE_ANGLES)) with 5%Z. cbv zeta.
  destruct (h <? 0)%Z eqn:Hneg.
  - apply Z.ltb_lt in Hneg.
    destruct (0 <=? h + 5)%Z eqn:E1; [|reflexivity].
    apply Z.leb_le in E1. exfalso. apply H. lia.
  - apply Z.ltb_ge in Hneg.
    destruct (0 <=? h)%Z; [|reflexivity].
    destruct (h <? 5)%Z eqn:E2; [|reflexivity].
    apply Z.ltb_lt in E2. exfalso. apply H. lia.
Qed.

Lemma valid_code_dec (h : Z) : {valid_code h} + {~ valid_code h}.
Proof.
  unfold valid_code.
  destruct (Z_le_dec (-5) h); destruct (Z_lt_dec h 5);
    [left|right|right|right]; lia.
Qed.

Lemma np_take_BASE_cases (h : Z) :
  (exists q, np_take BASE_ANGLES h = Ok (Fin q)) \/
  np_take BASE_ANGLES h = Raise IndexError.
Proof.
  destruct (valid_code_dec h) as [Hv|Hv].
  - left. now apply np_take_BASE_valid.
  - right. now apply np_take_BASE_invalid.
Qed.

Lemma ideal_angles_total (hybs : list Z) :
  Forall valid_code hybs ->
  exists ideals, mapM (np_take BASE_ANGLES) hybs = Ok ideals.
Proof.
  intro H. apply mapM_total.
  eapply Forall_impl; [|exact H].
  intros h Hh. destruct (np_take_BASE_valid Hh) as [q Hq]. eauto.
Qed.

Lemma ideal_angles_raise (hybs : list Z) :
  Exists (fun h => ~ valid_code h) hybs ->
  mapM (np_take BASE_ANGLES) hybs = Raise IndexError.
Proof.
  intro H. apply mapM_Raise.
  - apply Forall_forall. intros h _.
    destruct (np_take_BASE_cases h) as [[q Hq]|Hr]; eauto.
  - eapply Exists_impl; [|exact H].
    intros h Hh. now apply np_take_BASE_invalid.
Qed.

(** ** _check_angles, row by row *)

Lemma any_and_row (p q : fnum -> bool) (row : list fnum) :
  existsb (fun b => b)
    (zip_with andb (map p (map nan_to_num row)) (map q (map nan_to_num row)))
  = existsb (fun a => p (nan_to_num a) && q (nan_to_num a)) row.
Proof.
  induction row as [|a row IH]; simpl; [reflexivity|].
  now rewrite IH.
Qed.

Lemma check_angles_rows (angles : list (list fnum)) (hybs : list Z)
  (t : fnum) :
  _check_angles angles hybs t =
  (ideals <- mapM (np_take BASE_ANGLES) hybs ;;
   broadcast2 (row_strict t) angles ideals).
Proof.
  unfold _check_angles.
  destruct (mapM (np_take BASE_ANGLES) hybs) as [ideals|e]; simpl;
    [|reflexivity].
  unfold gt_column, lt_column, any_last_axis, mat_and, row_strict, in_band.
  assert (Hstretch_row : forall row l,
    map (existsb (fun b => b))
      (zip_with (zip_with andb)
         (map (fun b => map (fun a => fgt a b) (map nan_to_num row))
              (map (fun i => fsub i t) l))
         (map (fun b => map (fun a => flt a b) (map nan_to_num row))
              (map (fun i => fadd i t) l)))
    = map (fun ideal =>
             existsb (fun a => fgt (nan_to_num a) (fsub ideal t) &&
                               flt (nan_to_num a) (fadd ideal t)) row) l).
  { intros row l. induction l as [|i l IH]; simpl; [reflexivity|].
    now rewrite IH, any_and_row. }
  assert (Hstretch_col : forall i l,
    map (existsb (fun b => b))
      (zip_with (zip_with andb)
         (map (fun row => map (fun a => fgt a (fsub i t)) row)
              (map (map nan_to_num) l))
         (map (fun row => map (fun a => flt a (fadd i t)) row)
              (map (map nan_to_num) l)))
    = map (fun row =>
             existsb (fun a => fgt (nan_to_num a) (fsub i t) &&
                               flt (nan_to_num a) (fadd i t)) row) l).
  { intros i l. induction l as [|row l IH]; simpl; [reflexivity|].
    now rewrite IH, any_and_row. }
  assert (Hzip : forall l l',
    map (existsb (fun b => b))
      (zip_with (zip_with andb)
         (zip_with (fun row b => map (fun a => fgt a b) row)
            (map (map nan_to_num) l) (map (fun i => fsub i t) l'))
         (zip_with (fun row b => map (fun a => flt a b) row)
            (map (map nan_to_num) l) (map (fun i => fadd i t) l')))
    = zip_with (fun row ideal =>
             existsb (fun a => fgt (nan_to_num a) (fsub ideal t) &&
                               flt (nan_to_num a) (fadd ideal t)) row) l l').
  { induction l as [|row l IH]; intros [|i l']; simpl; try reflexivity.
    now rewrite IH, any_and_row. }
  unfold broadcast2.
  destruct angles as [|r [|r' rs]], ideals as [|i [|i' ideals]];
    cbn [map length bind Nat.eqb];
    rewrite ?length_map;
    try (destruct (Nat.eqb (length rs) (length ideals)) eqn:E);
    cbn [bind]; try reflexivity; f_equal.
  - exact (Hstretch_row r [i]).
  - exact (Hstretch_row r (i :: i' :: ideals)).
  - exact (Hstretch_col i (r :: r' :: rs)).
  - exact (Hzip (r :: r' :: rs) (i :: i' :: ideals)).
Qed.

Lemma Forall2_nth_error_l {A B} (R : A -> B -> Prop) l l' k a :
  Forall2 R l l' -> nth_error l k = Some a ->
  exists b, nth_error l' k = Some b /\ R a b.
Proof.
  intro H. revert k. induction H as [|x y l l' Hxy _ IH]; intros [|k] Hk;
    simpl in *; try discriminate.
  - injection Hk as ->. eauto.
  - eauto.
Qed.

Lemma Forall2_nth_error_r {A B} (R : A -> B -> Prop) l l' k b :
  Forall2 R l l' -> nth_error l' k = Some b ->
  exists a, nth_error l k = Some a /\ R a b.
Proof.
  intro H. revert k. induction H as [|x y l l' Hxy _ IH]; intros [|k] Hk;
    simpl in *; try discriminate.
  - injection Hk as ->. eauto.
  - eauto.
Qed.

Lemma row_strict_true (t : fnum) (row : list fnum) (ideal : fnum) :
  row_strict t row ideal = true <->
  exists a, In a row /\ in_band ideal t (nan_to_num a) = true.
Proof. unfold row_strict. apply existsb_exists. Qed.

Lemma in_band_Fin (i t a : Q) :
  in_band (Fin i) (Fin t) (Fin a) = true <->
  round_double (i - t) < a /\ a < round_double (i + t).
Proof.
  unfold in_band. rewrite andb_true_iff. cbn [fsub fadd].
  now rewrite fgt_Fin, flt_Fin.
Qed.

Lemma in_band_inv (ideal t a : fnum) :
  in_band ideal t a = true ->
  exists i x v, ideal = Fin i /\ t = Fin x /\ a = Fin v /\
                round_double (i - x) < v /\ v < round_double (i + x).
Proof.
  destruct ideal as [|i], t as [|x], a as [|v]; unfold in_band;
    cbn [fsub fadd fgt flt]; rewrite ?andb_false_r; try discriminate.
  intro H. apply (in_band_Fin i x v) in H. exists i, x, v. tauto.
Qed.

Lemma row_strict_side_passes (t : fnum) (row : list fnum) (ideal : fnum) :
  row_strict t row ideal = true <-> side_passes ideal t row.
Proof.
  rewrite row_strict_true. unfold side_passes, measured_in_band. split.
  - intros ([|q] & Hin & Hband); cbn [nan_to_num] in Hband.
    + right. now split.
    + left. exists (Fin q). now repeat split.
  - intros [(x & Hin & Hnan & Hband) | (Hin & Hband)].
    + exists x. split; [assumption|]. now rewrite nan_to_num_Fin.
    + exists NaN. now split.
Qed.

Lemma side_passes_measured (t : fnum) (row : list fnum) (ideal : fnum) :
  (In NaN row -> in_band ideal t (Fin 0) = false) ->
  side_passes ideal t row <-> measured_in_band ideal t row.
Proof.
  intro Hinert. unfold side_passes. split; [|now left].
  intros [H | [Hin Hband]]; [exact H|].
  rewrite (Hinert Hin) in Hband. discriminate.
Qed.

Lemma in_band_mono (ideal t1 t2 a : fnum) :
  fle t1 t2 = true -> in_band ideal t1 a = true -> in_band ideal t2 a = true.
Proof.
  intros Hle Hin.
  apply in_band_inv in Hin as (i & x & v & -> & -> & -> & Hlo & Hhi).
  apply fle_true_inv in Hle as (x' & y & Hx & -> & Hxy).
  injection Hx as <-. apply in_band_Fin.
  assert (Hlo' : round_double (i - y) <= round_double (i - x))
    by (apply round_double_mono; lra).
  assert (Hhi' : round_double (i + x) <= round_double (i + y))
    by (apply round_double_mono; lra).
  split; lra.
Qed.

Lemma row_strict_mono (t1 t2 : fnum) (row : list fnum) (ideal : fnum) :
  fle t1 t2 = true ->
  row_strict t1 row ideal = true -> row_strict t2 row ideal = true.
Proof.
  intros Hle H. apply row_strict_true in H as (a & Ha & Hin).
  apply row_strict_true. exists a. split; [assumption|].
  eapply in_band_mono; eassumption.
Qed.

(** With one hybridization code per row the classifier neither stretches an
    axis nor raises [ValueError]. *)
Lemma check_angles_aligned (angles : list (list fnum)) (hybs : list Z)
  (t : fnum) :
  length angles = length hybs ->
  _check_angles angles hybs t =
  (ideals <- mapM (np_take BASE_ANGLES) hybs ;;
   Ok (zip_with (row_strict t) angles ideals)).
Proof.
  intro Hlen. rewrite check_angles_rows.
  destruct (mapM (np_take BASE_ANGLES) hybs) as [ideals|e] eqn:E; simpl;
    [|reflexivity].
  apply broadcast2_aligned. apply mapM_Ok_length in E. congruence.
Qed.

Lemma check_angles_total (angles : list (list fnum)) (hybs : list Z)
  (t : fnum) :
  length angles = length hybs -> Forall valid_code hybs ->
  exists res, _check_angles angles hybs t = Ok res /\
              length res = length angles.
Proof.
  intros Hlen Hv. rewrite check_angles_aligned by assumption.
  destruct (ideal_angles_total Hv) as [ideals E]. rewrite E. simpl.
  eexists. split; [reflexivity|].
  apply zip_with_length. apply mapM_Ok_length in E. congruence.
Qed.

Lemma check_angles_raise (angles : list (list fnum)) (hybs : list Z)
  (t : fnum) :
  Exists (fun h => ~ valid_code h) hybs ->
  _check_angles angles hybs t = Raise IndexError.
Proof.
  intro H. rewrite check_angles_rows, (ideal_angles_raise H). reflexivity.
Qed.

(** A row of NaN slots is not strict whenever zero lies outside the band,
    which is the case for codes 1 to 4 up to a tolerance of 90 degrees. *)
Lemma nan_row_not_strict (t i : Q) (n : nat) :
  t <= i -> row_strict (Fin t) (repeat NaN n) (Fin i) = false.
Proof.
  intro H. induction n as [|n IH]; [reflexivity|].
  cbn [repeat]. unfold row_strict in *. cbn [existsb nan_to_num].
  rewrite IH, orb_false_r.
  destruct (in_band (Fin i) (Fin t) (Fin 0)) eqn:E; [|reflexivity].
  apply in_band_Fin in E.
  assert (H0 : round_double 0 <= round_double (i - t))
    by (apply round_double_mono; lra).
  assert (E0 : round_double 0 == 0) by reflexivity.
  lra.
Qed.

(** … and is strict for code 0, whose ideal angle is the value NaN is
    replaced by. *)
Lemma nan_row_strict_code_zero (t : Q) (n : nat) :
  pow2 (-1074) <= t ->
  _check_angles [repeat NaN (S n)] [0%Z] (Fin t) = Ok [true].
Proof.
  intro H. rewrite check_angles_aligned by reflexivity.
  cbn [mapM bind]. change (np_take BASE_ANGLES 0) with (Ok (Fin 0)).
  cbn [bind zip_with repeat]. unfold row_strict. cbn [existsb nan_to_num].
  assert (E : in_band (Fin 0) (Fin t) (Fin 0) = true).
  { apply in_band_Fin. split.
    - apply round_double_neg. lra.
    - apply round_double_pos. lra. }
  now rewrite E.
Qed.

(** ** Claims on the strictness classifier *)

(** C1 (the code departs from the claim).  A pair whose measured angles are
    all NaN is classified strict when its hybridization code is 0, at the
    default tolerance of 30 degrees: [nan_to_num] turns each NaN into 0.0,
    the ideal angle of code 0, although NaN itself lies in no band.  So
    [acceptor_metal] reports an acceptor of code 0 without neighbors as a
    strict partner of a metal 3.0 away. *)
Theorem check_angles_nan_strict_code_zero :
  _check_angles [[NaN; NaN; NaN]] [0%Z] tolerance_default = Ok [true] /\
  np_take BASE_ANGLES 0 = Ok (Fin 0) /\
  in_band (Fin 0) tolerance_default NaN = false /\
  acceptor_metal distance_3 angle_nan
    (mkmol [sample_acceptor_code0] []) (mkmol [sample_metal] [])
    tolerance_default contact_cutoff_default
  = Ok ([sample_acceptor_code0], [sample_metal], [true]).
Proof. repeat split. Qed.

(** Away from NaN the classifier agrees with the open band: for measured
    angles none of which is NaN, one hybridization code per pair and every
    code within the index range of the table, it returns one flag per pair,
    and the flag is true if and only if at least one measured angle [a] of
    the pair satisfies [BASE_ANGLES[h] - t < a < BASE_ANGLES[h] + t], both
    bounds excluded. *)
Lemma check_angles_iff_some_angle_in_band
  (angles : list (list fnum)) (hybs : list Z) (t : fnum) :
  length angles = length hybs ->
  Forall valid_code hybs ->
  Forall (Forall (fun a => is_nan a = false)) angles ->
  classifier_matches_band angles hybs t.
Proof.
  intros Hlen Hv Hfin. unfold classifier_matches_band.
  rewrite check_angles_aligned by assumption.
  destruct (ideal_angles_total Hv) as [ideals E]. rewrite E. cbn [bind].
  eexists. split; [reflexivity|].
  assert (Hli : length ideals = length hybs) by (eapply mapM_Ok_length; eauto).
  split; [apply zip_with_length; congruence|].
  intros k row h Hrow Hh.
  apply mapM_Ok_Forall2 in E.
  destruct (Forall2_nth_error_l _ E Hh) as (ideal & Hideal & Htake).
  exists ideal. split; [assumption|].
  rewrite (zip_with_nth_error _ _ _ _ Hrow Hideal).
  assert (Hrowfin : Forall (fun a => is_nan a = false) row).
  { rewrite Forall_forall in Hfin. apply Hfin.
    eapply nth_error_In; eassumption. }
  rewrite Forall_forall in Hrowfin.
  split.
  - intro H. injection H as H. apply row_strict_true in H as (a & Ha & Hb).
    exists a. split; [assumption|].
    now rewrite (nan_to_num_Fin _ (Hrowfin a Ha)) in Hb.
  - intros (a & Ha & Hb). f_equal. apply row_strict_true.
    exists a. split; [assumption|].
    now rewrite (nan_to_num_Fin _ (Hrowfin a Ha)).
Qed.

Lemma check_angles_iff_some_angle_in_band_sample :
  classifier_matches_band
    [[Fin 179; Fin 60]; [Fin 150; Fin 210]; [Fin 100]] [1; 1; 3]%Z (Fin 30).
Proof.
  apply check_angles_iff_some_angle_in_band.
  - reflexivity.
  - unfold valid_code. repeat constructor; lia.
  - repeat constructor.
Qed.

(** C4 (the code departs from the claim).  With hybridization code 0 and
    tolerance 30 the pair whose only measured angle is NaN is classified
    strict, although no measured angle of the pair lies in the band
    (-30, 30) around the ideal angle 0: the flag is not equivalent to "some
    measured angle lies strictly inside the band". *)
Theorem check_angles_strict_without_angle_in_band :
  _check_angles [[NaN]] [0%Z] (Fin 30) = Ok [true] /\
  np_take BASE_ANGLES 0 = Ok (Fin 0) /\
  (forall a, In a [NaN] -> in_band (Fin 0) (Fin 30) a = false) /\
  ~ classifier_matches_band [[NaN]] [0%Z] (Fin 30).
Proof.
  split; [reflexivity|]. split; [reflexivity|]. split.
  - intros a [<-|[]]. reflexivity.
  - intros (res & Hres & _ & Hk).
    destruct (Hk 0%nat [NaN] 0%Z eq_refl eq_refl) as (ideal & Hideal & Hiff).
    change (_check_angles [[NaN]] [0%Z] (Fin 30)) with (Ok [true]) in Hres.
    injection Hres as <-.
    destruct Hiff as [Hfwd _].
    destruct (Hfwd eq_refl) as (a & [<-|[]] & Hband).
    unfold in_band in Hband. destruct (fsub ideal (Fin 30)); discriminate.
Qed.

(** C7.  The classifier is monotone in the tolerance: when it returns at a
    tolerance [t1] and [t1 <= t2], it returns at [t2] as well, with the same
    number of flags, and every pair strict at [t1] is strict at [t2]. *)
Theorem check_angles_monotone_in_tolerance
  (angles : list (list fnum)) (hybs : list Z) (t1 t2 : fnum)
  (res1 : list bool) :
  fle t1 t2 = true ->
  _check_angles angles hybs t1 = Ok res1 ->
  exists res2,
    _check_angles angles hybs t2 = Ok res2 /\
    Forall2 (fun b1 b2 => b1 = true -> b2 = true) res1 res2.
Proof.
  intros Hle. rewrite !check_angles_rows.
  destruct (mapM (np_take BASE_ANGLES) hybs) as [ideals|e]; cbn [bind];
    [|discriminate].
  apply broadcast2_mono. intros row ideal. now apply row_strict_mono.
Qed.

Lemma check_angles_monotone_in_tolerance_witness :
  exists res2,
    _check_angles [[Fin 170; NaN]; [Fin 90]] [1; 2]%Z (Fin 30) = Ok res2 /\
    Forall2 (fun b1 b2 => b1 = true -> b2 = true) [true; false] res2.
Proof.
  apply (@check_angles_monotone_in_tolerance
           [[Fin 170; NaN]; [Fin 90]] [1; 2]%Z (Fin 15) (Fin 30)
           [true; false]); reflexivity.
Defined.

(** ** argwhere and integer-array indexing *)

Lemma argwhere_row_In (i j0 : nat) (row : list bool) (p : nat * nat) :
  In p (argwhere_row i j0 row) <->
  exists j, p = (i, (j0 + j)%nat) /\ nth_error row j = Some true.
Proof.
  revert j0. induction row as [|b row IH]; intro j0; cbn [argwhere_row].
  - split; [intros []|]. intros (j & _ & Hj). destruct j; discriminate.
  - assert (Htail : In p (argwhere_row i (S j0) row) <->
                    exists j, p = (i, (j0 + S j)%nat) /\
                              nth_error row j = Some true).
    { rewrite IH. split; intros (j & -> & Hj); exists j; split; auto;
        f_equal; lia. }
    destruct b; cbn [In]; rewrite Htail; split.
    + intros [<-|(j & -> & Hj)].
      * exists 0%nat. split; [f_equal; lia|reflexivity].
      * exists (S j). auto.
    + intros ([|j] & -> & Hj).
      * left. f_equal. lia.
      * right. exists j. auto.
    + intros (j & -> & Hj). exists (S j). auto.
    + intros ([|j] & -> & Hj); [discriminate|]. exists j. auto.
Qed.

Lemma argwhere_row_NoDup (i j0 : nat) (row : list bool) :
  NoDup (argwhere_row i j0 row).
Proof.
  revert j0. induction row as [|b row IH]; intro j0; cbn [argwhere_row].
  - constructor.
  - destruct b; [|apply IH]. constructor; [|apply IH].
    intro Hin. apply argwhere_row_In in Hin as (j & Heq & _).
    injection Heq as Heq. lia.
Qed.

Lemma argwhere_from_In (i0 : nat) (m : list (list bool)) (p : nat * nat) :
  In p (argwhere_from i0 m) <->
  exists i row, fst p = (i0 + i)%nat /\ nth_error m i = Some row /\
                nth_error row (snd p) = Some true.
Proof.
  revert i0. induction m as [|r m IH]; intro i0; cbn [argwhere_from].
  - split; [intros []|]. intros (i & row & _ & Hi & _).
    destruct i; discriminate.
  - rewrite in_app_iff, argwhere_row_In, IH. split.
    + intros [(j & -> & Hj)|(i & row & Hp & Hi & Hj)].
      * exists 0%nat, r. cbn. split; [lia|]. split; [reflexivity|exact Hj].
      * exists (S i), row. split; [lia|]. split; assumption.
    + intros ([|i] & row & Hp & Hi & Hj).
      * left. cbn in Hi. injection Hi as ->. exists (snd p).
        destruct p as [a b]. cbn in *. split; [f_equal; lia|assumption].
      * right. exists i, row. split; [lia|]. split; assumption.
Qed.

Lemma argwhere_from_NoDup (i0 : nat) (m : list (list bool)) :
  NoDup (argwhere_from i0 m).
Proof.
  revert i0. induction m as [|r m IH]; intro i0; cbn [argwhere_from].
  - constructor.
  - apply NoDup_app; [apply argwhere_row_NoDup|apply IH|].
    intros p Hrow Hrest.
    apply argwhere_row_In in Hrow as (j & -> & _).
    apply argwhere_from_In in Hrest as (i & row & Hp & _). cbn in Hp. lia.
Qed.

Lemma argwhere_In (m : list (list bool)) (i j : nat) :
  In (i, j) (argwhere m) <->
  exists row, nth_error m i = Some row /\ nth_error row j = Some true.
Proof.
  unfold argwhere. rewrite argwhere_from_In. cbn [fst snd]. split.
  - intros (i' & row & -> & Hi & Hj). exists row. auto.
  - intros (row & Hi & Hj). exists i, row. auto.
Qed.

Lemma fancy_index_Ok {A} (x : list A) (idx : list nat) (l : list A) :
  fancy_index x idx = Ok l <->
  Forall2 (fun i v => nth_error x i = Some v) idx l.
Proof.
  unfold fancy_index. rewrite mapM_Ok_Forall2.
  split; intro H; (eapply Forall2_impl; [|exact H]); cbv beta;
    intros i v; destruct (nth_error x i); congruence.
Qed.

Lemma fancy_index_total {A} (x : list A) (idx : list nat) :
  Forall (fun i => (i < length x)%nat) idx ->
  exists l, fancy_index x idx = Ok l.
Proof.
  intro H. apply mapM_total. eapply Forall_impl; [|exact H].
  intros i Hi. cbv beta in *.
  destruct (nth_error x i) as [v|] eqn:E; [eauto|].
  apply nth_error_None in E. lia.
Qed.

Lemma fancy_index_In {A} (x : list A) (idx : list nat) (l : list A) :
  fancy_index x idx = Ok l -> Forall (fun v => In v x) l.
Proof.
  intro H. apply fancy_index_Ok in H.
  induction H as [|i v idx l Hi _ IH]; constructor; [|assumption].
  eapply nth_error_In; eassumption.
Qed.

(** ** close_contacts *)

Lemma in_window_true (lo hi d : fnum) :
  in_window lo hi d = true <-> fgt d lo = true /\ fle d hi = true.
Proof. unfold in_window. apply andb_true_iff. Qed.

Lemma mat_and_map {T} (f g : T -> bool) (d : list (list T)) :
  mat_and (map (map f) d) (map (map g) d) =
  map (map (fun v => f v && g v)) d.
Proof.
  unfold mat_and. induction d as [|row d IH]; cbn [map zip_with];
    [reflexivity|].
  rewrite IH. f_equal.
  induction row as [|v row IHr]; cbn [map zip_with]; [reflexivity|].
  now rewrite IHr.
Qed.

Section ContactFacts.

Variable point_distance : point -> point -> fnum.
Context {A B : Type}.
Variables (x : list A) (y : list B) (cutoff : fnum).
Variables (x_column : A -> point) (y_column : B -> point).
Variable cutoff_low : fnum.

Local Abbreviation index :=
  (contact_index point_distance x y cutoff x_column y_column cutoff_low).

Lemma window_mask_distance :
  window_mask (distance point_distance (map x_column x) (map y_column y))
              cutoff_low cutoff =
  map (fun a =>
         map (fun b => in_window cutoff_low cutoff
                         (point_distance (x_column a) (y_column b))) y) x.
Proof.
  unfold window_mask, distance. rewrite mat_and_map, !map_map.
  apply map_ext. intro a. rewrite !map_map. reflexivity.
Qed.

Lemma contact_index_In (i j : nat) :
  In (i, j) index <->
  exists a b, nth_error x i = Some a /\ nth_error y j = Some b /\
              in_window cutoff_low cutoff
                (point_distance (x_column a) (y_column b)) = true.
Proof.
  unfold index, contact_index.
  rewrite window_mask_distance, argwhere_In. split.
  - intros (row & Hi & Hj). rewrite nth_error_map in Hi.
    destruct (nth_error x i) as [a|]; [|discriminate].
    injection Hi as <-. rewrite nth_error_map in Hj.
    destruct (nth_error y j) as [b|]; [|discriminate].
    injection Hj as Hj. exists a, b. auto.
  - intros (a & b & Hi & Hj & Hw). eexists. split.
    + rewrite nth_error_map, Hi. reflexivity.
    + rewrite nth_error_map, Hj. cbn. now rewrite Hw.
Qed.

Lemma contact_index_NoDup : NoDup index.
Proof. apply argwhere_from_NoDup. Qed.

Lemma contact_index_rows : Forall (fun i => (i < length x)%nat) (map fst index).
Proof.
  apply Forall_forall. intros i Hi. apply in_map_iff in Hi as ([i' j] & <- & Hin).
  apply contact_index_In in Hin as (a & b & Ha & _). cbn.
  apply nth_error_Some. congruence.
Qed.

Lemma contact_index_cols : Forall (fun j => (j < length y)%nat) (map snd index).
Proof.
  apply Forall_forall. intros j Hj. apply in_map_iff in Hj as ([i j'] & <- & Hin).
  apply contact_index_In in Hin as (a & b & _ & Hb & _). cbn.
  apply nth_error_Some. congruence.
Qed.

(** The emptiness test in front of the distance computation does not change
    the outcome: on an empty [x] the index array is empty as well. *)
Lemma close_contacts_unguarded :
  close_contacts point_distance x y cutoff x_column y_column cutoff_low =
  (xs <- fancy_index x (map fst index) ;;
   ys <- fancy_index y (map snd index) ;;
   Ok (xs, ys)).
Proof.
  unfold close_contacts, index, contact_index.
  destruct x as [|a x']; reflexivity.
Qed.

Lemma close_contacts_Ok :
  exists xs ys,
    close_contacts point_distance x y cutoff x_column y_column cutoff_low
      = Ok (xs, ys) /\
    Forall2 (fun i a => nth_error x i = Some a) (map fst index) xs /\
    Forall2 (fun j b => nth_error y j = Some b) (map snd index) ys.
Proof.
  rewrite close_contacts_unguarded.
  destruct (fancy_index_total _ contact_index_rows) as [xs Hxs].
  destruct (fancy_index_total _ contact_index_cols) as [ys Hys].
  exists xs, ys. rewrite Hxs, Hys. cbn [bind].
  split; [reflexivity|]. split; now apply fancy_index_Ok.
Qed.

Lemma close_contacts_aligned (xs : list A) (ys : list B) :
  close_contacts point_distance x y cutoff x_column y_column cutoff_low
    = Ok (xs, ys) ->
  length xs = length ys /\
  Forall (fun a => In a x) xs /\ Forall (fun b => In b y) ys.
Proof.
  intro H. destruct close_contacts_Ok as (xs' & ys' & H' & Hx & Hy).
  rewrite H in H'. injection H' as <- <-.
  split; [|split].
  - apply Forall2_length in Hx, Hy. rewrite !length_map in *. congruence.
  - apply fancy_index_In with (idx := map fst index). now apply fancy_index_Ok.
  - apply fancy_index_In with (idx := map snd index). now apply fancy_index_Ok.
Qed.

Lemma close_contacts_empty :
  x = [] \/ y = [] ->
  close_contacts point_distance x y cutoff x_column y_column cutoff_low
    = Ok ([], []).
Proof.
  intro H. destruct close_contacts_Ok as (xs & ys & Hcc & Hx & Hy).
  rewrite Hcc.
  assert (Hidx : index = []).
  { destruct index as [|[i j] rest] eqn:E; [reflexivity|].
    assert (Hin : In (i, j) index) by (rewrite E; now left).
    apply contact_index_In in Hin as (a & b & Ha & Hb & _).
    destruct H as [-> | ->]; [destruct i | destruct j]; discriminate. }
  rewrite Hidx in Hx, Hy. inversion Hx. inversion Hy. reflexivity.
Qed.

End ContactFacts.

Lemma Forall2_combine_index {A B} (x : list A) (y : list B)
  (idx : list (nat * nat)) (xs : list A) (ys : list B) :
  Forall2 (fun i a => nth_error x i = Some a) (map fst idx) xs ->
  Forall2 (fun j b => nth_error y j = Some b) (map snd idx) ys ->
  Forall2 (fun ij ab => nth_error x (fst ij) = Some (fst ab) /\
                        nth_error y (snd ij) = Some (snd ab))
          idx (combine xs ys).
Proof.
  revert xs ys. induction idx as [|ij idx IH]; intros xs ys Hx Hy;
    cbn [map] in *.
  - inversion Hx; subst. constructor.
  - inversion Hx as [|? a ? xs' Ha Hxs]; subst.
    inversion Hy as [|? b ? ys' Hb Hys]; subst.
    cbn [combine]. constructor; [split; assumption|]. now apply IH.
Qed.

(** C2.  [close_contacts] returns two aligned arrays, and the emitted pairs
    are exactly the pairs of positions [(i, j)] with
    [cutoff_low < distance(x[i], y[j]) <= cutoff]: each such position is
    emitted once, nothing else is emitted, a pair at distance exactly
    [cutoff_low] is left out and, in a window with [cutoff_low < cutoff], a
    pair at distance exactly [cutoff] is emitted. *)
Theorem close_contacts_window (point_distance : point -> point -> fnum)
  {A B : Type} (x : list A) (y : list B) (cutoff : fnum)
  (x_column : A -> point) (y_column : B -> point) (cutoff_low : fnum) :
  let index := contact_index point_distance x y cutoff x_column y_column
                             cutoff_low in
  let d := fun a b => point_distance (x_column a) (y_column b) in
  exists xs ys,
    close_contacts point_distance x y cutoff x_column y_column cutoff_low
      = Ok (xs, ys) /\
    length xs = length ys /\
    NoDup index /\
    Forall2 (fun ij ab => nth_error x (fst ij) = Some (fst ab) /\
                          nth_error y (snd ij) = Some (snd ab))
            index (combine xs ys) /\
    (forall i j,
        In (i, j) index <->
        exists a b, nth_error x i = Some a /\ nth_error y j = Some b /\
                    fgt (d a b) cutoff_low = true /\
                    fle (d a b) cutoff = true) /\
    (forall i j a b,
        nth_error x i = Some a -> nth_error y j = Some b ->
        d a b = cutoff_low -> ~ In (i, j) index) /\
    (forall i j a b lo hi,
        nth_error x i = Some a -> nth_error y j = Some b ->
        cutoff_low = Fin lo -> cutoff = Fin hi -> lo < hi ->
        d a b = cutoff -> In (i, j) index).
Proof.
  intros index d.
  destruct (close_contacts_Ok point_distance x y cutoff x_column y_column
              cutoff_low) as (xs & ys & Hcc & Hx & Hy).
  fold index in Hx, Hy.
  assert (Hin : forall i j,
             In (i, j) index <->
             exists a b, nth_error x i = Some a /\ nth_error y j = Some b /\
                         fgt (d a b) cutoff_low = true /\
                         fle (d a b) cutoff = true).
  { intros i j. unfold index. rewrite contact_index_In.
    split; intros (a & b & Ha & Hb & Hw); exists a, b;
      (split; [assumption|]); (split; [assumption|]);
      now apply in_window_true. }
  exists xs, ys. split; [exact Hcc|].
  split; [eapply close_contacts_aligned; exact Hcc|].
  split; [apply contact_index_NoDup|].
  split; [now apply Forall2_combine_index|].
  split; [exact Hin|]. split.
  - intros i j a b Ha Hb Hd Hmem.
    apply Hin in Hmem as (a' & b' & Ha' & Hb' & Hgt & _).
    rewrite Ha in Ha'. rewrite Hb in Hb'.
    injection Ha' as <-. injection Hb' as <-.
    rewrite Hd in Hgt. unfold fgt in Hgt. rewrite flt_irrefl in Hgt.
    discriminate.
  - intros i j a b lo hi Ha Hb -> -> Hlt Hd. apply Hin. exists a, b.
    split; [assumption|]. split; [assumption|]. rewrite Hd. split.
    + now apply fgt_Fin.
    + apply fle_Fin. apply Qle_refl.
Qed.

(** ** Aligned arrays *)

Lemma combine_nth_error {A B} (xs : list A) (ys : list B) k a b :
  nth_error xs k = Some a -> nth_error ys k = Some b ->
  nth_error (combine xs ys) k = Some (a, b).
Proof.
  revert ys k. induction xs as [|x xs IH]; intros [|y ys] [|k] Ha Hb;
    cbn in *; try discriminate.
  - now injection Ha as ->; injection Hb as ->.
  - auto.
Qed.

Lemma zip_with_combine {A B C} (f : A -> B -> C) xs ys :
  zip_with f xs ys = map (fun ab => f (fst ab) (snd ab)) (combine xs ys).
Proof.
  revert ys. induction xs as [|x xs IH]; intros [|y ys]; cbn;
    try reflexivity.
  now rewrite IH.
Qed.

Lemma zip_with_map_same {A B C D} (f : B -> C -> D) (g : A -> B) (h : A -> C)
  (l : list A) :
  zip_with f (map g l) (map h l) = map (fun v => f (g v) (h v)) l.
Proof. induction l as [|v l IH]; cbn; [reflexivity|]. now rewrite IH. Qed.

Lemma combine_length_eq {A B} (xs : list A) (ys : list B) :
  length xs = length ys -> length (combine xs ys) = length xs.
Proof. intro H. rewrite length_combine, <- H. apply Nat.min_id. Qed.

Lemma zip_rows_length {A B C D E} (f : A * B -> C) (g : C -> D -> E)
  (xs : list A) (ys : list B) (l : list D) :
  length xs = length ys -> length l = length xs ->
  length (zip_with g (map f (combine xs ys)) l) = length xs.
Proof.
  intros H1 H2. rewrite zip_with_length;
    rewrite length_map, combine_length_eq; congruence.
Qed.

Section GeometryFacts.

Variable point_angle : point -> point -> point -> fnum.
Variable vector_angle : point -> point -> fnum.
Variable coords_dtype : dtype.

Lemma angle_newaxis_acceptor_side (a d : list atom) :
  angle_newaxis point_angle (map coords d) (map coords a) (map neighbors a) =
  map (fun ad => acceptor_side_angles point_angle (fst ad) (snd ad))
      (combine a d).
Proof.
  revert d. induction a as [|ak a IH]; intros [|dk d]; cbn; try reflexivity.
  now rewrite IH.
Qed.

Lemma angle_newaxis_partner_side (a d : list atom) :
  angle_newaxis point_angle (map coords a) (map coords d) (map neighbors d) =
  map (fun ad => partner_side_angles point_angle (fst ad) (snd ad))
      (combine a d).
Proof.
  revert d. induction a as [|ak a IH]; intros [|dk d]; cbn; try reflexivity.
  now rewrite IH.
Qed.

Lemma angle_2v_normals (r1 r2 : list ring) :
  angle_2v vector_angle (map vector r1) (map vector r2) =
  map (fun ab => normals_angle vector_angle (fst ab) (snd ab))
      (combine r1 r2).
Proof.
  unfold angle_2v. revert r2.
  induction r1 as [|ra r1 IH]; intros [|rb r2]; cbn; try reflexivity.
  now rewrite IH.
Qed.

Lemma angle_centroids (r1 r2 : list ring) :
  angle point_angle (zip_with (padd coords_dtype) (map vector r1) (map centroid r1))
        (map centroid r1) (map centroid r2) =
  map (fun ab => centroid_angle point_angle coords_dtype (fst ab) (snd ab))
      (combine r1 r2).
Proof.
  revert r2. induction r1 as [|ra r1 IH]; intros [|rb r2]; cbn;
    try reflexivity.
  rewrite IH. reflexivity.
Qed.

(** *** The two-sided strictness computation *)

Lemma two_sided_strict_aligned (a d : list atom) (t : fnum) :
  length a = length d ->
  two_sided_strict point_angle a d t =
  (ia <- mapM (np_take BASE_ANGLES) (map hybridization a) ;;
   id <- mapM (np_take BASE_ANGLES) (map hybridization d) ;;
   Ok (zip_with andb
         (zip_with (row_strict t)
            (map (fun ad => acceptor_side_angles point_angle (fst ad) (snd ad))
                 (combine a d)) ia)
         (zip_with (row_strict t)
            (map (fun ad => partner_side_angles point_angle (fst ad) (snd ad))
                 (combine a d)) id))).
Proof.
  intro Hlen. unfold two_sided_strict.
  rewrite angle_newaxis_acceptor_side, angle_newaxis_partner_side.
  rewrite !check_angles_aligned
    by (rewrite !length_map, combine_length_eq; congruence).
  destruct (mapM (np_take BASE_ANGLES) (map hybridization a)) as [ia|e] eqn:Ea;
    cbn [bind]; [|reflexivity].
  destruct (mapM (np_take BASE_ANGLES) (map hybridization d)) as [id|e] eqn:Ed;
    cbn [bind]; [|reflexivity].
  apply broadcast2_aligned.
  apply mapM_Ok_length in Ea, Ed. rewrite length_map in Ea, Ed.
  rewrite !zip_rows_length; congruence.
Qed.

Lemma two_sided_strict_total (a d : list atom) (t : fnum) :
  length a = length d ->
  Forall (fun v => valid_code (hybridization v)) a ->
  Forall (fun v => valid_code (hybridization v)) d ->
  exists strict,
    two_sided_strict point_angle a d t = Ok strict /\
    length strict = length a /\
    forall k ak dk,
      nth_error a k = Some ak -> nth_error d k = Some dk ->
      exists s1 s2,
        _check_angles [acceptor_side_angles point_angle ak dk]
                      [hybridization ak] t = Ok [s1] /\
        _check_angles [partner_side_angles point_angle ak dk]
                      [hybridization dk] t = Ok [s2] /\
        nth_error strict k = Some (s1 && s2).
Proof.
  intros Hlen Ha Hd. rewrite two_sided_strict_aligned by assumption.
  assert (Hva : Forall valid_code (map hybridization a))
    by (apply Forall_map; exact Ha).
  assert (Hvd : Forall valid_code (map hybridization d))
    by (apply Forall_map; exact Hd).
  destruct (ideal_angles_total Hva) as [ia Eia].
  destruct (ideal_angles_total Hvd) as [id Eid].
  rewrite Eia, Eid. cbn [bind]. eexists. split; [reflexivity|].
  assert (Lia : length ia = length a)
    by (apply mapM_Ok_length in Eia; now rewrite length_map in Eia).
  assert (Lid : length id = length d)
    by (apply mapM_Ok_length in Eid; now rewrite length_map in Eid).
  split.
  { rewrite zip_with_length; rewrite !zip_rows_length; congruence. }
  intros k ak dk Hak Hdk.
  apply mapM_Ok_Forall2 in Eia, Eid.
  destruct (Forall2_nth_error_l _ Eia (map_nth_error hybridization _ _ Hak))
    as (i1 & Hi1 & Ht1).
  destruct (Forall2_nth_error_l _ Eid (map_nth_error hybridization _ _ Hdk))
    as (i2 & Hi2 & Ht2).
  exists (row_strict t (acceptor_side_angles point_angle ak dk) i1),
         (row_strict t (partner_side_angles point_angle ak dk) i2).
  rewrite !check_angles_aligned by reflexivity. cbn [mapM bind].
  rewrite Ht1, Ht2. cbn [bind zip_with].
  split; [reflexivity|]. split; [reflexivity|].
  pose proof (combine_nth_error _ _ _ Hak Hdk) as Hc.
  apply zip_with_nth_error.
  - apply zip_with_nth_error; [|assumption].
    now rewrite (map_nth_error _ _ _ Hc).
  - apply zip_with_nth_error; [|assumption].
    now rewrite (map_nth_error _ _ _ Hc).
Qed.

Lemma two_sided_strict_flags (a d : list atom) (t : fnum) :
  length a = length d ->
  Forall (fun v => valid_code (hybridization v)) a ->
  Forall (fun v => valid_code (hybridization v)) d ->
  exists strict,
    two_sided_strict point_angle a d t = Ok strict /\
    length strict = length a /\
    forall k ak dk,
      nth_error a k = Some ak -> nth_error d k = Some dk ->
      exists ia id,
        np_take BASE_ANGLES (hybridization ak) = Ok ia /\
        np_take BASE_ANGLES (hybridization dk) = Ok id /\
        nth_error strict k =
          Some (row_strict t (acceptor_side_angles point_angle ak dk) ia &&
                row_strict t (partner_side_angles point_angle ak dk) id).
Proof.
  intros Hlen Ha Hd. rewrite two_sided_strict_aligned by assumption.
  assert (Hva : Forall valid_code (map hybridization a))
    by (apply Forall_map; exact Ha).
  assert (Hvd : Forall valid_code (map hybridization d))
    by (apply Forall_map; exact Hd).
  destruct (ideal_angles_total Hva) as [ia Eia].
  destruct (ideal_angles_total Hvd) as [id Eid].
  rewrite Eia, Eid. cbn [bind]. eexists. split; [reflexivity|].
  assert (Lia : length ia = length a)
    by (apply mapM_Ok_length in Eia; now rewrite length_map in Eia).
  assert (Lid : length id = length d)
    by (apply mapM_Ok_length in Eid; now rewrite length_map in Eid).
  split.
  { rewrite zip_with_length; rewrite !zip_rows_length; congruence. }
  intros k ak dk Hak Hdk.
  apply mapM_Ok_Forall2 in Eia, Eid.
  destruct (Forall2_nth_error_l _ Eia (map_nth_error hybridization _ _ Hak))
    as (i1 & Hi1 & Ht1).
  destruct (Forall2_nth_error_l _ Eid (map_nth_error hybridization _ _ Hdk))
    as (i2 & Hi2 & Ht2).
  exists i1, i2. split; [exact Ht1|]. split; [exact Ht2|].
  pose proof (combine_nth_error _ _ _ Hak Hdk) as Hc.
  apply zip_with_nth_error.
  - apply zip_with_nth_error; [|assumption].
    now rewrite (map_nth_error _ _ _ Hc).
  - apply zip_with_nth_error; [|assumption].
    now rewrite (map_nth_error _ _ _ Hc).
Qed.

Lemma two_sided_strict_raise (a d : list atom) (t : fnum) :
  length a = length d ->
  Exists (fun v => ~ valid_code (hybridization v)) a \/
  Exists (fun v => ~ valid_code (hybridization v)) d ->
  two_sided_strict point_angle a d t = Raise IndexError.
Proof.
  intros Hlen Hbad. rewrite two_sided_strict_aligned by assumption.
  assert (Hcases : forall l,
    (exists r, mapM (np_take BASE_ANGLES) (map hybridization l) = Ok r) \/
    mapM (np_take BASE_ANGLES) (map hybridization l) = Raise IndexError).
  { intro l. induction l as [|v l IH]; cbn; [left; eauto|].
    destruct (np_take_BASE_cases (hybridization v)) as [[q ->]| ->];
      cbn [bind]; [|now right].
    destruct IH as [[r ->]| ->]; cbn [bind]; [left; eauto|now right]. }
  assert (Hraise : forall l,
    Exists (fun v => ~ valid_code (hybridization v)) l ->
    mapM (np_take BASE_ANGLES) (map hybridization l) = Raise IndexError).
  { intros l H. apply ideal_angles_raise. apply Exists_exists in H.
    destruct H as (v & Hin & Hv). apply Exists_exists.
    exists (hybridization v). split; [now apply in_map|assumption]. }
  destruct Hbad as [Hbad|Hbad].
  - now rewrite (Hraise a Hbad).
  - rewrite (Hraise d Hbad).
    destruct (Hcases a) as [[r ->]| ->]; reflexivity.
Qed.

End GeometryFacts.

(** ** Detectors *)

Section DetectorFacts.

Variable point_distance : point -> point -> fnum.
Variable point_angle : point -> point -> point -> fnum.
Variable vector_angle : point -> point -> fnum.
Variable coords_dtype : dtype.

Lemma hbond_acceptor_donor_pairs (mol1 mol2 : Molecule) (cutoff t : fnum)
  (a d : list atom) :
  close_contacts point_distance (filter isacceptor (atom_dict mol1))
    (filter isdonor (atom_dict mol2)) cutoff coords coords cutoff_low_default
    = Ok (a, d) ->
  hbond_acceptor_donor point_distance point_angle mol1 mol2 cutoff t =
  (strict <- two_sided_strict point_angle a d t ;; Ok (a, d, strict)).
Proof.
  intro H. unfold hbond_acceptor_donor. rewrite H. cbn [bind].
  pose proof H as Hlen. apply close_contacts_aligned in Hlen as [Hlen _].
  destruct a as [|ak a], d as [|dk d]; try discriminate; [reflexivity|].
  cbn [length Nat.ltb Nat.leb andb]. unfold two_sided_strict.
  destruct (_check_angles _ _ _); cbn [bind]; [|reflexivity].
  destruct (_check_angles _ _ _); cbn [bind]; reflexivity.
Qed.

Lemma halogenbond_acceptor_halogen_pairs (mol1 mol2 : Molecule)
  (t cutoff : fnum) (a h : list atom) :
  close_contacts point_distance (filter isacceptor (atom_dict mol1))
    (filter ishalogen (atom_dict mol2)) cutoff coords coords
    cutoff_low_default = Ok (a, h) ->
  halogenbond_acceptor_halogen point_distance point_angle mol1 mol2 t cutoff =
  (strict <- two_sided_strict point_angle a h t ;; Ok (a, h, strict)).
Proof.
  intro H. unfold halogenbond_acceptor_halogen. rewrite H. cbn [bind].
  pose proof H as Hlen. apply close_contacts_aligned in Hlen as [Hlen _].
  destruct a as [|ak a], h as [|hk h]; try discriminate; [reflexivity|].
  cbn [length Nat.ltb Nat.leb andb]. unfold two_sided_strict.
  destruct (_check_angles _ _ _); cbn [bind]; [|reflexivity].
  destruct (_check_angles _ _ _); cbn [bind]; reflexivity.
Qed.

Lemma acceptor_metal_pairs (mol1 mol2 : Molecule) (t cutoff : fnum)
  (a m : list atom) :
  close_contacts point_distance (filter isacceptor (atom_dict mol1))
    (filter ismetal (atom_dict mol2)) cutoff coords coords cutoff_low_default
    = Ok (a, m) ->
  acceptor_metal point_distance point_angle mol1 mol2 t cutoff =
  (strict <- _check_angles
               (map (fun am =>
                       acceptor_side_angles point_angle (fst am) (snd am))
                    (combine a m))
               (map hybridization a) t ;;
   Ok (a, m, strict)).
Proof.
  intro H. unfold acceptor_metal. rewrite H. cbn [bind].
  pose proof H as Hlen. apply close_contacts_aligned in Hlen as [Hlen _].
  destruct a as [|ak a], m as [|mk m]; try discriminate; [reflexivity|].
  cbn [length Nat.ltb Nat.leb andb].
  now rewrite angle_newaxis_acceptor_side.
Qed.

(** The two flag arrays of [pi_stacking] on the aligned rings. *)
Lemma pi_stacking_pairs (mol1 mol2 : Molecule) (cutoff t : fnum)
  (r1 r2 : list ring) :
  close_contacts point_distance (ring_dict mol1) (ring_dict mol2) cutoff
    centroid centroid cutoff_low_default = Ok (r1, r2) ->
  pi_stacking point_distance point_angle vector_angle coords_dtype mol1 mol2 cutoff t =
  Ok (r1, r2,
      map (fun ab =>
             near_axis coords_dtype t (normals_angle vector_angle (fst ab) (snd ab)) &&
             near_axis coords_dtype t (centroid_angle point_angle coords_dtype (fst ab) (snd ab)))
          (combine r1 r2),
      map (fun ab =>
             near_normal coords_dtype t (normals_angle vector_angle (fst ab) (snd ab)) &&
             near_axis coords_dtype t (centroid_angle point_angle coords_dtype (fst ab) (snd ab)))
          (combine r1 r2)).
Proof.
  intro H. unfold pi_stacking. rewrite H. cbn [bind].
  pose proof H as Hlen. apply close_contacts_aligned in Hlen as [Hlen _].
  destruct r1 as [|ra r1], r2 as [|rb r2]; try discriminate; [reflexivity|].
  cbn [length Nat.ltb Nat.leb andb].
  rewrite angle_2v_normals, angle_centroids, !map_map.
  rewrite !broadcast2_aligned by (now rewrite !length_map).
  cbn [bind]. now rewrite !zip_with_map_same.
Qed.

(** C3.  A detector whose selected subset is empty on either side, the second
    included, returns empty arrays for the pairs and for every strictness
    flag, and does not raise.  For the three detectors that search in both
    directions the subsets of both searches are concerned. *)
Theorem detectors_on_empty_subsets (mol1 mol2 : Molecule)
  (cutoff tolerance : fnum) :
  let acc m := filter isacceptor (atom_dict m) in
  let don m := filter isdonor (atom_dict m) in
  let hal m := filter ishalogen (atom_dict m) in
  let plus m := filter isplus (atom_dict m) in
  let minus m := filter isminus (atom_dict m) in
  let hyd m := filter ishydrophobe (atom_dict m) in
  let met m := filter ismetal (atom_dict m) in
  (forall (A B : Type) (x : list A) (y : list B) xc yc lo,
      x = [] \/ y = [] ->
      close_contacts point_distance x y cutoff xc yc lo = Ok ([], [])) /\
  (acc mol1 = [] \/ don mol2 = [] ->
   hbond_acceptor_donor point_distance point_angle mol1 mol2 cutoff tolerance
     = Ok ([], [], [])) /\
  (acc mol1 = [] \/ hal mol2 = [] ->
   halogenbond_acceptor_halogen point_distance point_angle mol1 mol2
     tolerance cutoff = Ok ([], [], [])) /\
  (ring_dict mol1 = [] \/ ring_dict mol2 = [] ->
   pi_stacking point_distance point_angle vector_angle coords_dtype mol1 mol2 cutoff
     tolerance = Ok ([], [], [], [])) /\
  (plus mol1 = [] \/ minus mol2 = [] ->
   salt_bridge_plus_minus point_distance mol1 mol2 cutoff = Ok ([], [])) /\
  (hyd mol1 = [] \/ hyd mol2 = [] ->
   hydrophobic_contacts point_distance mol1 mol2 cutoff = Ok ([], [])) /\
  (ring_dict mol1 = [] \/ plus mol2 = [] ->
   pi_cation point_distance vector_angle coords_dtype mol1 mol2 cutoff tolerance
     = Ok ([], [], [])) /\
  (acc mol1 = [] \/ met mol2 = [] ->
   acceptor_metal point_distance point_angle mol1 mol2 tolerance cutoff
     = Ok ([], [], [])) /\
  (ring_dict mol1 = [] \/ met mol2 = [] ->
   pi_metal point_distance vector_angle coords_dtype mol1 mol2 cutoff tolerance
     = Ok ([], [], [])) /\
  ((acc mol1 = [] \/ don mol2 = []) /\ (acc mol2 = [] \/ don mol1 = []) ->
   hbonds point_distance point_angle mol1 mol2 cutoff tolerance
     = Ok ([], [], [])) /\
  ((acc mol1 = [] \/ hal mol2 = []) /\ (acc mol2 = [] \/ hal mol1 = []) ->
   halogenbonds point_distance point_angle mol1 mol2 cutoff tolerance
     = Ok ([], [], [])) /\
  ((plus mol1 = [] \/ minus mol2 = []) /\
   (plus mol2 = [] \/ minus mol1 = []) ->
   salt_bridges point_distance mol1 mol2 cutoff = Ok ([], [])).
Proof.
  cbv zeta.
  assert (Hcc : forall (A B : Type) (x : list A) (y : list B) c xc yc lo,
             x = [] \/ y = [] ->
             close_contacts point_distance x y c xc yc lo = Ok ([], [])).
  { intros. now apply close_contacts_empty. }
  assert (Hhb : forall m1 m2,
             filter isacceptor (atom_dict m1) = [] \/
             filter isdonor (atom_dict m2) = [] ->
             hbond_acceptor_donor point_distance point_angle m1 m2 cutoff
               tolerance = Ok ([], [], [])).
  { intros m1 m2 H. unfold hbond_acceptor_donor.
    now rewrite (Hcc _ _ _ _ cutoff coords coords cutoff_low_default H). }
  assert (Hxb : forall m1 m2,
             filter isacceptor (atom_dict m1) = [] \/
             filter ishalogen (atom_dict m2) = [] ->
             halogenbond_acceptor_halogen point_distance point_angle m1 m2
               tolerance cutoff = Ok ([], [], [])).
  { intros m1 m2 H. unfold halogenbond_acceptor_halogen.
    now rewrite (Hcc _ _ _ _ cutoff coords coords cutoff_low_default H). }
  assert (Hsb : forall m1 m2,
             filter isplus (atom_dict m1) = [] \/
             filter isminus (atom_dict m2) = [] ->
             salt_bridge_plus_minus point_distance m1 m2 cutoff
               = Ok ([], [])).
  { intros m1 m2 H. unfold salt_bridge_plus_minus.
    now rewrite (Hcc _ _ _ _ cutoff coords coords cutoff_low_default H). }
  split; [intros; now apply Hcc|].
  split; [apply Hhb|]. split; [apply Hxb|].
  split.
  { intro H. unfold pi_stacking.
    now rewrite (Hcc _ _ _ _ cutoff centroid centroid cutoff_low_default H). }
  split; [apply Hsb|].
  split.
  { intro H. unfold hydrophobic_contacts.
    now rewrite (Hcc _ _ _ _ cutoff coords coords cutoff_low_default H). }
  split.
  { intro H. unfold pi_cation.
    now rewrite (Hcc _ _ _ _ cutoff centroid coords cutoff_low_default H). }
  split.
  { intro H. unfold acceptor_metal.
    now rewrite (Hcc _ _ _ _ cutoff coords coords cutoff_low_default H). }
  split.
  { intro H. unfold pi_metal.
    now rewrite (Hcc _ _ _ _ cutoff centroid coords cutoff_low_default H). }
  split.
  { intros [H1 H2]. unfold hbonds. now rewrite (Hhb _ _ H1), (Hhb _ _ H2). }
  split.
  { intros [H1 H2]. unfold halogenbonds.
    now rewrite (Hxb _ _ H1), (Hxb _ _ H2). }
  intros [H1 H2]. unfold salt_bridges. now rewrite (Hsb _ _ H1), (Hsb _ _ H2).
Qed.

Lemma two_sided_strict_length (a d : list atom) (t : fnum) (s : list bool) :
  length a = length d ->
  two_sided_strict point_angle a d t = Ok s -> length s = length a.
Proof.
  intros Hlen. rewrite two_sided_strict_aligned by assumption.
  destruct (mapM _ (map hybridization a)) as [ia|e] eqn:Ea; cbn [bind];
    [|discriminate].
  destruct (mapM _ (map hybridization d)) as [id|e] eqn:Ed; cbn [bind];
    [|discriminate].
  intro H. injection H as <-.
  apply mapM_Ok_length in Ea, Ed. rewrite length_map in Ea, Ed.
  rewrite zip_with_length; rewrite !zip_rows_length; congruence.
Qed.

Lemma atoms_of_filter (mol : Molecule) (f : atom -> bool) (l : list atom) :
  Forall (fun v => In v (filter f (atom_dict mol))) l -> atoms_of mol l.
Proof.
  unfold atoms_of. intro H. eapply Forall_impl; [|exact H].
  intros v Hv. now apply filter_In in Hv.
Qed.

Lemma valid_codes_sub (mol : Molecule) (l : list atom) :
  valid_codes mol -> atoms_of mol l ->
  Forall (fun v => valid_code (hybridization v)) l.
Proof.
  unfold valid_codes, atoms_of. rewrite !Forall_forall. auto.
Qed.

Lemma hbond_acceptor_donor_sound (cutoff t : fnum) :
  single_sided_sound
    (fun m1 m2 =>
       hbond_acceptor_donor point_distance point_angle m1 m2 cutoff t).
Proof.
  intros mol1 mol2 a d s H.
  destruct (close_contacts_Ok point_distance
              (filter isacceptor (atom_dict mol1))
              (filter isdonor (atom_dict mol2)) cutoff coords coords
              cutoff_low_default) as (a' & d' & Hcc & _).
  rewrite (@hbond_acceptor_donor_pairs mol1 mol2 cutoff t a' d' Hcc) in H.
  destruct (two_sided_strict point_angle a' d' t) as [s'|e] eqn:Es;
    cbn [bind] in H; [|discriminate].
  injection H as <- <- <-.
  pose proof Hcc as Hal. apply close_contacts_aligned in Hal
    as (Hlen & Ha & Hd).
  split; [congruence|]. split; [now apply two_sided_strict_length in Es|].
  split; eapply atoms_of_filter; eassumption.
Qed.

Lemma halogenbond_acceptor_halogen_sound (t cutoff : fnum) :
  single_sided_sound
    (fun m1 m2 =>
       halogenbond_acceptor_halogen point_distance point_angle m1 m2 t cutoff).
Proof.
  intros mol1 mol2 a d s H.
  destruct (close_contacts_Ok point_distance
              (filter isacceptor (atom_dict mol1))
              (filter ishalogen (atom_dict mol2)) cutoff coords coords
              cutoff_low_default) as (a' & d' & Hcc & _).
  rewrite (@halogenbond_acceptor_halogen_pairs mol1 mol2 t cutoff a' d' Hcc) in H.
  destruct (two_sided_strict point_angle a' d' t) as [s'|e] eqn:Es;
    cbn [bind] in H; [|discriminate].
  injection H as <- <- <-.
  pose proof Hcc as Hal. apply close_contacts_aligned in Hal
    as (Hlen & Ha & Hd).
  split; [congruence|]. split; [now apply two_sided_strict_length in Es|].
  split; eapply atoms_of_filter; eassumption.
Qed.

Lemma hbond_acceptor_donor_total (mol1 mol2 : Molecule) (cutoff t : fnum) :
  valid_codes mol1 -> valid_codes mol2 ->
  exists r,
    hbond_acceptor_donor point_distance point_angle mol1 mol2 cutoff t = Ok r.
Proof.
  intros Hv1 Hv2.
  destruct (close_contacts_Ok point_distance
              (filter isacceptor (atom_dict mol1))
              (filter isdonor (atom_dict mol2)) cutoff coords coords
              cutoff_low_default) as (a & d & Hcc & _).
  rewrite (@hbond_acceptor_donor_pairs mol1 mol2 cutoff t a d Hcc).
  pose proof Hcc as Hal. apply close_contacts_aligned in Hal
    as (Hlen & Ha & Hd).
  destruct (@two_sided_strict_total point_angle a d t Hlen) as (s & Hs & _).
  - eapply valid_codes_sub; [exact Hv1|]. eapply atoms_of_filter; eassumption.
  - eapply valid_codes_sub; [exact Hv2|]. eapply atoms_of_filter; eassumption.
  - rewrite Hs. cbn [bind]. eauto.
Qed.

Lemma halogenbond_acceptor_halogen_total (mol1 mol2 : Molecule)
  (t cutoff : fnum) :
  valid_codes mol1 -> valid_codes mol2 ->
  exists r,
    halogenbond_acceptor_halogen point_distance point_angle mol1 mol2 t cutoff
      = Ok r.
Proof.
  intros Hv1 Hv2.
  destruct (close_contacts_Ok point_distance
              (filter isacceptor (atom_dict mol1))
              (filter ishalogen (atom_dict mol2)) cutoff coords coords
              cutoff_low_default) as (a & d & Hcc & _).
  rewrite (@halogenbond_acceptor_halogen_pairs mol1 mol2 t cutoff a d Hcc).
  pose proof Hcc as Hal. apply close_contacts_aligned in Hal
    as (Hlen & Ha & Hd).
  destruct (@two_sided_strict_total point_angle a d t Hlen) as (s & Hs & _).
  - eapply valid_codes_sub; [exact Hv1|]. eapply atoms_of_filter; eassumption.
  - eapply valid_codes_sub; [exact Hv2|]. eapply atoms_of_filter; eassumption.
  - rewrite Hs. cbn [bind]. eauto.
Qed.

End DetectorFacts.

(** ** Searching in both directions *)

Section Symmetry.

Variable single : Molecule -> Molecule ->
                  result (list atom * list atom * list bool).
Hypothesis single_sound : single_sided_sound single.
Hypothesis single_total :
  forall mol1 mol2, valid_codes mol1 -> valid_codes mol2 ->
                    exists r, single mol1 mol2 = Ok r.

Lemma symmetrize_count (mol1 mol2 : Molecule) :
  pair_count3 (symmetrize single mol1 mol2) =
  pair_count3 (symmetrize single mol2 mol1).
Proof.
  unfold symmetrize.
  destruct (single mol1 mol2) as [[[a1 d1] s1]|e1] eqn:E1;
    destruct (single mol2 mol1) as [[[a2 d2] s2]|e2] eqn:E2;
    cbn; try reflexivity.
  apply single_sound in E1 as (L1 & _), E2 as (L2 & _).
  f_equal. rewrite !length_app. lia.
Qed.

Lemma symmetrize_spec (mol1 mol2 : Molecule) :
  bidirectional_spec single (symmetrize single) mol1 mol2.
Proof.
  split; [apply symmetrize_count|]. split.
  - intros Hv1 Hv2. unfold symmetrize.
    destruct (single_total Hv1 Hv2) as [[[a1 d1] s1] ->].
    destruct (single_total Hv2 Hv1) as [[[a2 d2] s2] ->].
    cbn. eauto.
  - intros m1s m2s s. unfold symmetrize.
    destruct (single mol1 mol2) as [[[a1 d1] s1]|e1] eqn:E1; cbn [bind];
      [|discriminate].
    destruct (single mol2 mol1) as [[[a2 d2] s2]|e2] eqn:E2; cbn [bind];
      [|discriminate].
    intro H. injection H as <- <- <-.
    exists a1, d1, s1, a2, d2, s2.
    apply single_sound in E1 as (L1 & S1 & A1 & D1).
    apply single_sound in E2 as (L2 & S2 & A2 & D2).
    repeat (split; [reflexivity|]).
    split; [apply Forall_app; split; assumption|].
    split; [apply Forall_app; split; assumption|].
    rewrite !length_app. split; lia.
Qed.

End Symmetry.

Section DetectorClaims.

Variable point_distance : point -> point -> fnum.
Variable point_angle : point -> point -> point -> fnum.
Variable vector_angle : point -> point -> fnum.
Variable coords_dtype : dtype.

Lemma salt_bridge_plus_minus_Ok (mol1 mol2 : Molecule) (cutoff : fnum) :
  exists p n,
    salt_bridge_plus_minus point_distance mol1 mol2 cutoff = Ok (p, n) /\
    length n = length p /\ atoms_of mol1 p /\ atoms_of mol2 n.
Proof.
  unfold salt_bridge_plus_minus.
  destruct (close_contacts_Ok point_distance
              (filter isplus (atom_dict mol1))
              (filter isminus (atom_dict mol2)) cutoff coords coords
              cutoff_low_default) as (p & n & Hcc & _).
  rewrite Hcc. cbn [bind]. exists p, n. split; [reflexivity|].
  apply close_contacts_aligned in Hcc as (Hlen & Hp & Hn).
  split; [congruence|]. split; eapply atoms_of_filter; eassumption.
Qed.

(** C6.  [hbonds] and [halogenbonds] concatenate the result of the direct
    single-sided call with that of the call on swapped structures, and so does
    [salt_bridges]: the first returned array holds atoms of [mol1] only, the
    second atoms of [mol2] only, and the detector returns as many pairs on
    [(mol1, mol2)] as on [(mol2, mol1)]. *)
Theorem bidirectional_detectors (mol1 mol2 : Molecule)
  (cutoff tolerance : fnum) :
  bidirectional_spec
    (fun m1 m2 => hbond_acceptor_donor point_distance point_angle m1 m2
                    cutoff tolerance)
    (fun m1 m2 => hbonds point_distance point_angle m1 m2 cutoff tolerance)
    mol1 mol2 /\
  bidirectional_spec
    (fun m1 m2 => halogenbond_acceptor_halogen point_distance point_angle
                    m1 m2 tolerance cutoff)
    (fun m1 m2 => halogenbonds point_distance point_angle m1 m2 cutoff
                    tolerance)
    mol1 mol2 /\
  pair_count2 (salt_bridges point_distance mol1 mol2 cutoff) =
  pair_count2 (salt_bridges point_distance mol2 mol1 cutoff) /\
  exists m1_plus m2_minus m2_plus m1_minus,
    salt_bridge_plus_minus point_distance mol1 mol2 cutoff
      = Ok (m1_plus, m2_minus) /\
    salt_bridge_plus_minus point_distance mol2 mol1 cutoff
      = Ok (m2_plus, m1_minus) /\
    salt_bridges point_distance mol1 mol2 cutoff
      = Ok (m1_plus ++ m1_minus, m2_minus ++ m2_plus) /\
    atoms_of mol1 (m1_plus ++ m1_minus) /\
    atoms_of mol2 (m2_minus ++ m2_plus) /\
    length (m2_minus ++ m2_plus) = length (m1_plus ++ m1_minus).
Proof.
  split; [|split].
  - apply (symmetrize_spec
             (hbond_acceptor_donor_sound point_distance point_angle
                cutoff tolerance)).
    intros m1 m2. apply hbond_acceptor_donor_total.
  - apply (symmetrize_spec
             (halogenbond_acceptor_halogen_sound point_distance point_angle
                tolerance cutoff)).
    intros m1 m2. apply halogenbond_acceptor_halogen_total.
  - destruct (salt_bridge_plus_minus_Ok mol1 mol2 cutoff)
      as (p1 & n2 & E1 & L1 & P1 & N2).
    destruct (salt_bridge_plus_minus_Ok mol2 mol1 cutoff)
      as (p2 & n1 & E2 & L2 & P2 & N1).
    unfold salt_bridges. rewrite E1, E2. cbn [bind pair_count2].
    split; [f_equal; rewrite !length_app; lia|].
    exists p1, n2, p2, n1. repeat (split; [reflexivity|]).
    split; [apply Forall_app; split; assumption|].
    split; [apply Forall_app; split; assumption|].
    rewrite !length_app. lia.
Qed.

Lemma close_contacts_single {A B : Type} (a : A) (b : B) (cutoff : fnum)
  (x_column : A -> point) (y_column : B -> point) (cutoff_low : fnum) :
  in_window cutoff_low cutoff (point_distance (x_column a) (y_column b))
    = true ->
  close_contacts point_distance [a] [b] cutoff x_column y_column cutoff_low
    = Ok ([a], [b]).
Proof.
  intro H. rewrite close_contacts_unguarded. unfold contact_index.
  rewrite window_mask_distance. cbn [map]. rewrite H. reflexivity.
Qed.

Lemma row_strict_zero_tolerance (row : list fnum) (ideal : fnum) :
  row_strict (Fin 0) row ideal = false.
Proof.
  destruct (row_strict (Fin 0) row ideal) eqn:E; [|reflexivity].
  apply row_strict_true in E as (a & _ & Hband).
  apply in_band_inv in Hband as (i & x & v & _ & Hx & _ & Hlo & Hhi).
  injection Hx as <-.
  assert (E : round_double (i - 0) == round_double (i + 0))
    by (apply round_double_comp; ring).
  lra.
Qed.

Lemma code_above_table_invalid {T} (code : T -> Z) (l : list T) :
  Exists (fun v => (5 <= code v)%Z) l ->
  Exists (fun v => ~ valid_code (code v)) l.
Proof.
  intro H. eapply Exists_impl; [|exact H].
  unfold valid_code. intros v Hv. cbv beta in *. lia.
Qed.

(** C10.  The ideal angle is read with a bounds-checked [np.take]: a
    hybridization code of 5 or more makes [_check_angles] raise [IndexError],
    and with it each of the three detectors that classify by hybridization,
    as soon as an emitted pair carries such a code on a side whose
    hybridization is read. *)
Theorem code_above_table_raises :
  (forall angles hybs t,
      Exists (fun h => (5 <= h)%Z) hybs ->
      _check_angles angles hybs t = Raise IndexError) /\
  (forall mol1 mol2 cutoff t a d,
      close_contacts point_distance (filter isacceptor (atom_dict mol1))
        (filter isdonor (atom_dict mol2)) cutoff coords coords
        cutoff_low_default = Ok (a, d) ->
      Exists (fun v => (5 <= hybridization v)%Z) a \/
      Exists (fun v => (5 <= hybridization v)%Z) d ->
      hbond_acceptor_donor point_distance point_angle mol1 mol2 cutoff t
        = Raise IndexError) /\
  (forall mol1 mol2 cutoff t a h,
      close_contacts point_distance (filter isacceptor (atom_dict mol1))
        (filter ishalogen (atom_dict mol2)) cutoff coords coords
        cutoff_low_default = Ok (a, h) ->
      Exists (fun v => (5 <= hybridization v)%Z) a \/
      Exists (fun v => (5 <= hybridization v)%Z) h ->
      halogenbond_acceptor_halogen point_distance point_angle mol1 mol2
        t cutoff = Raise IndexError) /\
  (forall mol1 mol2 cutoff t a m,
      close_contacts point_distance (filter isacceptor (atom_dict mol1))
        (filter ismetal (atom_dict mol2)) cutoff coords coords
        cutoff_low_default = Ok (a, m) ->
      Exists (fun v => (5 <= hybridization v)%Z) a ->
      acceptor_metal point_distance point_angle mol1 mol2 t cutoff
        = Raise IndexError).
Proof.
  split; [|split; [|split]].
  - intros angles hybs t H. apply check_angles_raise.
    now apply (code_above_table_invalid (fun h => h)).
  - intros mol1 mol2 cutoff t a d Hcc Hbad.
    rewrite (@hbond_acceptor_donor_pairs point_distance point_angle
               mol1 mol2 cutoff t a d Hcc).
    apply close_contacts_aligned in Hcc as (Hlen & _).
    rewrite two_sided_strict_raise; [reflexivity|assumption|].
    destruct Hbad as [H|H]; [left|right];
      now apply code_above_table_invalid.
  - intros mol1 mol2 cutoff t a h Hcc Hbad.
    rewrite (@halogenbond_acceptor_halogen_pairs point_distance point_angle
               mol1 mol2 t cutoff a h Hcc).
    apply close_contacts_aligned in Hcc as (Hlen & _).
    rewrite two_sided_strict_raise; [reflexivity|assumption|].
    destruct Hbad as [H|H]; [left|right];
      now apply code_above_table_invalid.
  - intros mol1 mol2 cutoff t a m Hcc Hbad.
    rewrite (@acceptor_metal_pairs point_distance point_angle
               mol1 mol2 t cutoff a m Hcc).
    rewrite check_angles_raise; [reflexivity|].
    apply code_above_table_invalid in Hbad.
    apply Exists_exists in Hbad as (v & Hin & Hv). apply Exists_exists.
    exists (hybridization v). split; [now apply in_map|assumption].
Qed.

(** C8.  On structures with valid hybridization codes
    [hbond_acceptor_donor] returns the pairs of [close_contacts] together
    with one flag per pair, and the flag of a pair is true exactly when both
    sides pass: on the acceptor side one of the angles donor - acceptor -
    acceptor's neighbor lies strictly between [ideal - t] and [ideal + t]
    for the ideal angle of the acceptor's hybridization, and on the donor
    side one of the angles acceptor - donor - donor's neighbor does so for
    the ideal angle of the donor's hybridization.  A NaN slot takes part as
    the angle 0.0; where 0.0 is outside the band of a side that has a NaN
    slot, the flag is the conjunction of the two checks on the measured
    angles alone.  An acceptor and a donor 3.0 apart are emitted at cutoff
    3.5; when on each of the two sides a slot measures 179 degrees and the
    ideal angle is 180 (code 1), the pair is strict at tolerance 30; at
    tolerance 0 it is not strict, whatever the angles. *)
Theorem hbond_strict_is_conjunction :
  (forall mol1 mol2 cutoff t,
      valid_codes mol1 -> valid_codes mol2 ->
      exists a d strict,
        hbond_acceptor_donor point_distance point_angle mol1 mol2 cutoff t
          = Ok (a, d, strict) /\
        close_contacts point_distance (filter isacceptor (atom_dict mol1))
          (filter isdonor (atom_dict mol2)) cutoff coords coords
          cutoff_low_default = Ok (a, d) /\
        length d = length a /\ length strict = length a /\
        forall k ak dk,
          nth_error a k = Some ak -> nth_error d k = Some dk ->
          let acceptor_side := acceptor_side_angles point_angle ak dk in
          let donor_side := partner_side_angles point_angle ak dk in
          exists ideal_a ideal_d flag,
            np_take BASE_ANGLES (hybridization ak) = Ok ideal_a /\
            np_take BASE_ANGLES (hybridization dk) = Ok ideal_d /\
            nth_error strict k = Some flag /\
            (flag = true <->
             side_passes ideal_a t acceptor_side /\
             side_passes ideal_d t donor_side) /\
            ((In NaN acceptor_side -> in_band ideal_a t (Fin 0) = false) ->
             (In NaN donor_side -> in_band ideal_d t (Fin 0) = false) ->
             (flag = true <->
              measured_in_band ideal_a t acceptor_side /\
              measured_in_band ideal_d t donor_side))) /\
  (forall mol1 mol2 ak dk,
      filter isacceptor (atom_dict mol1) = [ak] ->
      filter isdonor (atom_dict mol2) = [dk] ->
      point_distance (coords ak) (coords dk) = Fin 3 ->
      hybridization ak = 1%Z -> hybridization dk = 1%Z ->
      (In (Fin 179) (acceptor_side_angles point_angle ak dk) ->
       In (Fin 179) (partner_side_angles point_angle ak dk) ->
       hbond_acceptor_donor point_distance point_angle mol1 mol2
         hbond_cutoff_default (Fin 30) = Ok ([ak], [dk], [true])) /\
      hbond_acceptor_donor point_distance point_angle mol1 mol2
        hbond_cutoff_default (Fin 0) = Ok ([ak], [dk], [false])).
Proof.
  split.
  - intros mol1 mol2 cutoff t Hv1 Hv2.
    destruct (close_contacts_Ok point_distance
                (filter isacceptor (atom_dict mol1))
                (filter isdonor (atom_dict mol2)) cutoff coords coords
                cutoff_low_default) as (a & d & Hcc & _).
    pose proof Hcc as Hal. apply close_contacts_aligned in Hal
      as (Hlen & Ha & Hd).
    destruct (@two_sided_strict_flags point_angle a d t Hlen)
      as (strict & Hs & Hls & Hk).
    { eapply valid_codes_sub; [exact Hv1|].
      eapply atoms_of_filter; eassumption. }
    { eapply valid_codes_sub; [exact Hv2|].
      eapply atoms_of_filter; eassumption. }
    exists a, d, strict.
    rewrite (@hbond_acceptor_donor_pairs point_distance point_angle
               mol1 mol2 cutoff t a d Hcc), Hs.
    cbn [bind]. split; [reflexivity|]. split; [exact Hcc|].
    split; [congruence|]. split; [exact Hls|].
    intros k ak dk Hak Hdk. cbv zeta.
    destruct (Hk k ak dk Hak Hdk) as (ia & id & Hia & Hid & Hflag).
    exists ia, id. eexists. split; [exact Hia|]. split; [exact Hid|].
    split; [exact Hflag|].
    rewrite andb_true_iff, !row_strict_side_passes.
    split; [reflexivity|]. intros Hna Hnd.
    now rewrite (side_passes_measured _ _ _ Hna),
                (side_passes_measured _ _ _ Hnd).
  - intros mol1 mol2 ak dk Hacc Hdon Hdist Hha Hhd.
    assert (Hcc : close_contacts point_distance
                    (filter isacceptor (atom_dict mol1))
                    (filter isdonor (atom_dict mol2)) hbond_cutoff_default
                    coords coords cutoff_low_default = Ok ([ak], [dk])).
    { rewrite Hacc, Hdon. apply close_contacts_single.
      rewrite Hdist. reflexivity. }
    assert (Hrows : forall t,
      two_sided_strict point_angle [ak] [dk] t =
      Ok [row_strict t (acceptor_side_angles point_angle ak dk) (Fin 180) &&
          row_strict t (partner_side_angles point_angle ak dk) (Fin 180)]).
    { intro t. rewrite two_sided_strict_aligned by reflexivity.
      cbn [map mapM]. rewrite Hha, Hhd. reflexivity. }
    split.
    + intros Hin1 Hin2.
      rewrite (@hbond_acceptor_donor_pairs point_distance point_angle
                 mol1 mol2 hbond_cutoff_default (Fin 30) [ak] [dk] Hcc).
      rewrite Hrows. cbn [bind].
      assert (Hs : forall row, In (Fin 179) row ->
                               row_strict (Fin 30) row (Fin 180) = true).
      { intros row Hrow. apply row_strict_true. exists (Fin 179).
        split; [assumption|reflexivity]. }
      now rewrite (Hs _ Hin1), (Hs _ Hin2).
    + rewrite (@hbond_acceptor_donor_pairs point_distance point_angle
                 mol1 mol2 hbond_cutoff_default (Fin 0) [ak] [dk] Hcc).
      rewrite Hrows. cbn [bind].
      now rewrite !row_strict_zero_tolerance.
Qed.

Lemma cast_round_mono (d : dtype) (x y : Q) :
  x <= y ->
  round_dtype d (round_double x) <=
  round_dtype d (round_double y).
Proof.
  intro H. apply round_dtype_mono. now apply round_double_mono.
Qed.

Lemma cast_round_45 (d : dtype) :
  round_dtype d (round_double 45) == 45.
Proof. destruct d; vm_compute; reflexivity. Qed.

Lemma cast_round_135 (d : dtype) :
  round_dtype d (round_double 135) == 135.
Proof. destruct d; vm_compute; reflexivity. Qed.

Lemma cast_45 (d : dtype) : round_dtype d 45 == 45.
Proof. destruct d; vm_compute; reflexivity. Qed.

Lemma near_axis_normal_disjoint (t a : fnum) :
  fle t (Fin 45) = true ->
  near_axis coords_dtype t a = true ->
  near_normal coords_dtype t a = true -> False.
Proof.
  intros Ht Haxis Hnormal.
  apply fle_true_inv in Ht as (x & y & -> & Hy & Hx). injection Hy as <-.
  unfold near_normal in Hnormal. apply andb_true_iff in Hnormal as [Hlo Hhi].
  cbn [fsub fadd fcast] in Hlo, Hhi.
  apply flt_true_inv in Hhi as (v & u & -> & Hu & Hhi). injection Hu as <-.
  apply fgt_Fin in Hlo.
  pose proof (@cast_round_mono coords_dtype 45 (90 - x)) as L1.
  pose proof (@cast_round_mono coords_dtype (90 + x) 135) as L2.
  pose proof (@cast_round_mono coords_dtype 135 (180 - x)) as L3.
  pose proof (round_dtype_mono coords_dtype x 45 Hx) as L4.
  pose proof (cast_round_45 coords_dtype) as E45.
  pose proof (cast_round_135 coords_dtype) as E135.
  pose proof (cast_45 coords_dtype) as E45'.
  assert (A1 : 45 <= 90 - x) by lra. assert (A2 : 90 + x <= 135) by lra.
  assert (A3 : 135 <= 180 - x) by lra.
  specialize (L1 A1). specialize (L2 A2). specialize (L3 A3).
  unfold near_axis in Haxis. cbn [fsub fcast] in Haxis.
  apply orb_true_iff in Haxis as [H|H].
  - apply fgt_Fin in H. lra.
  - apply flt_Fin in H. lra.
Qed.

Lemma fgt_cast_inject (d : dtype) (a : fnum) (x : Q) (z : Z) :
  (Z.abs z < 2 ^ 24)%Z -> x == inject_Z z ->
  fgt a (Fin (round_dtype d (round_double x))) = fgt a (Fin x).
Proof.
  intros Hz E. destruct a as [|q]; [reflexivity|].
  unfold fgt, flt. apply Qlt_bool_comp; [|reflexivity].
  rewrite (cast_round_inject d x z Hz E). now symmetry.
Qed.

Lemma flt_cast_inject (d : dtype) (a : fnum) (x : Q) (z : Z) :
  (Z.abs z < 2 ^ 24)%Z -> x == inject_Z z ->
  flt a (Fin (round_dtype d (round_double x))) = flt a (Fin x).
Proof.
  intros Hz E. destruct a as [|q]; [reflexivity|].
  unfold flt. apply Qlt_bool_comp; [reflexivity|].
  rewrite (cast_round_inject d x z Hz E). now symmetry.
Qed.

(** For a whole number of degrees the four bounds of the ring detectors are
    computed and converted without rounding. *)
Lemma ring_bounds_exact (n : Z) (a : fnum) :
  (0 <= n <= 180)%Z ->
  fgt a (fcast coords_dtype (fsub (Fin 180) (Fin (inject_Z n))))
    = fgt a (Fin (180 - inject_Z n)) /\
  flt a (fcast coords_dtype (Fin (inject_Z n))) = flt a (Fin (inject_Z n)) /\
  fgt a (fcast coords_dtype (fsub (Fin 90) (Fin (inject_Z n))))
    = fgt a (Fin (90 - inject_Z n)) /\
  flt a (fcast coords_dtype (fadd (Fin 90) (Fin (inject_Z n))))
    = flt a (Fin (90 + inject_Z n)).
Proof.
  intro Hn. cbn [fcast fsub fadd]. repeat split.
  - apply (@fgt_cast_inject coords_dtype a (180 - inject_Z n) (180 - n));
      [lia|].
    unfold Z.sub. rewrite inject_Z_plus, inject_Z_opp. reflexivity.
  - destruct a as [|q]; [reflexivity|]. unfold flt.
    apply Qlt_bool_comp; [reflexivity|].
    apply round_dtype_inject. lia.
  - apply (@fgt_cast_inject coords_dtype a (90 - inject_Z n) (90 - n));
      [lia|].
    unfold Z.sub. rewrite inject_Z_plus, inject_Z_opp. reflexivity.
  - apply (@flt_cast_inject coords_dtype a (90 + inject_Z n) (90 + n));
      [lia|]. rewrite inject_Z_plus. reflexivity.
Qed.

(** C5.  [pi_stacking] returns the ring pairs of [close_contacts] and two
    flag arrays aligned with them.  For the pair at position [k], with [a1]
    the angle between the two normals and [a2] the angle at the first
    centroid between the endpoint of its normal and the second centroid:
    [strict_parallel] is [(a1 > 180 - t or a1 < t) and (a2 > 180 - t or
    a2 < t)], [strict_perpendicular] is [(90 - t < a1 < 90 + t) and
    (a2 > 180 - t or a2 < t)], where [180 - t], [90 - t] and [90 + t] are
    the results of the double precision operations, converted like [t] to
    the dtype of the angle arrays.  For a tolerance that is a whole number
    of degrees between 0 and 180 these bounds are the exact differences and
    sums, so the flags are the stated comparisons on the nose.  Two rings
    with centroids 4.0 apart and [a1 = a2 = 0] give, at cutoff 5 and
    tolerance 30, parallel true and perpendicular false. *)
Theorem pi_stacking_flags :
  (forall mol1 mol2 cutoff t,
      exists r1 r2 strict_parallel strict_perpendicular,
        pi_stacking point_distance point_angle vector_angle coords_dtype
          mol1 mol2 cutoff t
          = Ok (r1, r2, strict_parallel, strict_perpendicular) /\
        close_contacts point_distance (ring_dict mol1) (ring_dict mol2)
          cutoff centroid centroid cutoff_low_default = Ok (r1, r2) /\
        length r2 = length r1 /\
        length strict_parallel = length r1 /\
        length strict_perpendicular = length r1 /\
        forall k ra rb,
          nth_error r1 k = Some ra -> nth_error r2 k = Some rb ->
          let a1 := normals_angle vector_angle ra rb in
          let a2 := centroid_angle point_angle coords_dtype ra rb in
          let above_180_t a :=
            fgt a (fcast coords_dtype (fsub (Fin 180) t)) in
          let below_t a := flt a (fcast coords_dtype t) in
          let above_90_t a :=
            fgt a (fcast coords_dtype (fsub (Fin 90) t)) in
          let below_90_t a :=
            flt a (fcast coords_dtype (fadd (Fin 90) t)) in
          nth_error strict_parallel k =
            Some ((above_180_t a1 || below_t a1) &&
                  (above_180_t a2 || below_t a2)) /\
          nth_error strict_perpendicular k =
            Some ((above_90_t a1 && below_90_t a1) &&
                  (above_180_t a2 || below_t a2))) /\
  (forall mol1 mol2 cutoff (n : Z),
      (0 <= n <= 180)%Z ->
      let t := inject_Z n in
      exists r1 r2 strict_parallel strict_perpendicular,
        pi_stacking point_distance point_angle vector_angle coords_dtype
          mol1 mol2 cutoff (Fin t)
          = Ok (r1, r2, strict_parallel, strict_perpendicular) /\
        forall k ra rb,
          nth_error r1 k = Some ra -> nth_error r2 k = Some rb ->
          let a1 := normals_angle vector_angle ra rb in
          let a2 := centroid_angle point_angle coords_dtype ra rb in
          nth_error strict_parallel k =
            Some ((fgt a1 (Fin (180 - t)) || flt a1 (Fin t)) &&
                  (fgt a2 (Fin (180 - t)) || flt a2 (Fin t))) /\
          nth_error strict_perpendicular k =
            Some ((fgt a1 (Fin (90 - t)) && flt a1 (Fin (90 + t))) &&
                  (fgt a2 (Fin (180 - t)) || flt a2 (Fin t)))) /\
  (forall mol1 mol2 ra rb,
      ring_dict mol1 = [ra] -> ring_dict mol2 = [rb] ->
      point_distance (centroid ra) (centroid rb) = Fin 4 ->
      normals_angle vector_angle ra rb = Fin 0 ->
      centroid_angle point_angle coords_dtype ra rb = Fin 0 ->
      pi_stacking point_distance point_angle vector_angle coords_dtype
        mol1 mol2 pi_cutoff_default tolerance_default
        = Ok ([ra], [rb], [true], [false])).
Proof.
  split; [|split].
  - intros mol1 mol2 cutoff t.
    destruct (close_contacts_Ok point_distance (ring_dict mol1)
                (ring_dict mol2) cutoff centroid centroid cutoff_low_default)
      as (r1 & r2 & Hcc & _).
    pose proof Hcc as Hal. apply close_contacts_aligned in Hal as (Hlen & _).
    rewrite (@pi_stacking_pairs point_distance point_angle vector_angle
               coords_dtype mol1 mol2 cutoff t r1 r2 Hcc).
    do 4 eexists. split; [reflexivity|]. split; [exact Hcc|].
    split; [congruence|].
    split; [now rewrite length_map, combine_length_eq|].
    split; [now rewrite length_map, combine_length_eq|].
    intros k ra rb Hra Hrb. cbv zeta.
    pose proof (combine_nth_error _ _ _ Hra Hrb) as Hc.
    split; now rewrite (map_nth_error _ _ _ Hc).
  - intros mol1 mol2 cutoff n Hn. cbv zeta.
    destruct (close_contacts_Ok point_distance (ring_dict mol1)
                (ring_dict mol2) cutoff centroid centroid cutoff_low_default)
      as (r1 & r2 & Hcc & _).
    rewrite (@pi_stacking_pairs point_distance point_angle vector_angle
               coords_dtype mol1 mol2 cutoff (Fin (inject_Z n)) r1 r2 Hcc).
    do 4 eexists. split; [reflexivity|].
    intros k ra rb Hra Hrb.
    pose proof (combine_nth_error _ _ _ Hra Hrb) as Hc.
    rewrite !(map_nth_error _ _ _ Hc). cbn [fst snd].
    unfold near_axis, near_normal.
    destruct (@ring_bounds_exact n (normals_angle vector_angle ra rb) Hn)
      as (E1 & E2 & E3 & E4).
    destruct (@ring_bounds_exact n
                (centroid_angle point_angle coords_dtype ra rb) Hn)
      as (F1 & F2 & _ & _).
    rewrite E1, E2, E3, E4, F1, F2. split; reflexivity.
  - intros mol1 mol2 ra rb H1 H2 Hd Ha1 Ha2.
    assert (Hcc : close_contacts point_distance (ring_dict mol1)
                    (ring_dict mol2) pi_cutoff_default centroid centroid
                    cutoff_low_default = Ok ([ra], [rb])).
    { rewrite H1, H2. apply close_contacts_single. now rewrite Hd. }
    rewrite (@pi_stacking_pairs point_distance point_angle vector_angle
               coords_dtype mol1 mol2 pi_cutoff_default tolerance_default
               [ra] [rb] Hcc).
    cbn [combine map fst snd]. rewrite Ha1, Ha2.
    destruct coords_dtype; reflexivity.
Qed.

(** C9.  For a tolerance of at most 45 degrees, the default of 30 included,
    [pi_stacking] flags no ring pair as both parallel and perpendicular: the
    condition on the normals' angle for parallel (below [t] or above
    [180 - t]) excludes the one for perpendicular (strictly between [90 - t]
    and [90 + t]). *)
Theorem pi_stacking_parallel_excludes_perpendicular
  (mol1 mol2 : Molecule) (cutoff t : fnum) :
  fle t (Fin 45) = true ->
  exists r1 r2 strict_parallel strict_perpendicular,
    pi_stacking point_distance point_angle vector_angle coords_dtype mol1 mol2 cutoff t
      = Ok (r1, r2, strict_parallel, strict_perpendicular) /\
    length strict_parallel = length r1 /\
    length strict_perpendicular = length r1 /\
    (forall k, ~ (nth_error strict_parallel k = Some true /\
                  nth_error strict_perpendicular k = Some true)) /\
    (forall a, near_axis coords_dtype t a && near_normal coords_dtype t a = false).
Proof.
  intro Ht.
  destruct (close_contacts_Ok point_distance (ring_dict mol1)
              (ring_dict mol2) cutoff centroid centroid cutoff_low_default)
    as (r1 & r2 & Hcc & _).
  pose proof Hcc as Hal. apply close_contacts_aligned in Hal as (Hlen & _).
  rewrite (@pi_stacking_pairs point_distance point_angle vector_angle coords_dtype
             mol1 mol2 cutoff t r1 r2 Hcc).
  do 4 eexists. split; [reflexivity|].
  split; [now rewrite length_map, combine_length_eq|].
  split; [now rewrite length_map, combine_length_eq|].
  split.
  - intros k [Hp Hq]. rewrite nth_error_map in Hp, Hq.
    destruct (nth_error (combine r1 r2) k) as [[ra rb]|]; [|discriminate].
    cbn [option_map fst snd] in Hp, Hq.
    injection Hp as Hp. injection Hq as Hq.
    apply andb_true_iff in Hp as [Hp _]. apply andb_true_iff in Hq as [Hq _].
    exact (near_axis_normal_disjoint _ _ Ht Hp Hq).
  - intro a. destruct (near_axis coords_dtype t a) eqn:E1; [|reflexivity].
    destruct (near_normal coords_dtype t a) eqn:E2; [|reflexivity].
    exfalso. exact (near_axis_normal_disjoint _ _ Ht E1 E2).
Qed.

End DetectorClaims.

(** ** The statements on the sample structures *)

Lemma sample_valid_codes : valid_codes sample_mol1 /\ valid_codes sample_mol2.
Proof.
  unfold valid_codes, valid_code. split; repeat constructor; cbn; lia.
Qed.

Lemma close_contacts_window_witness :
  ~ In (0%nat, 0%nat)
       (contact_index distance_3 [sample_acceptor] [sample_donor] (Fin 4)
                      coords coords (Fin 3)) /\
  In (0%nat, 0%nat)
     (contact_index distance_3 [sample_acceptor] [sample_donor] (Fin 3)
                    coords coords (Fin 0)).
Proof.
  split.
  - destruct (close_contacts_window distance_3 [sample_acceptor]
                [sample_donor] (Fin 4) coords coords (Fin 3))
      as (xs & ys & _ & _ & _ & _ & _ & Hlow & _).
    apply (Hlow 0%nat 0%nat sample_acceptor sample_donor); reflexivity.
  - destruct (close_contacts_window distance_3 [sample_acceptor]
                [sample_donor] (Fin 3) coords coords (Fin 0))
      as (xs & ys & _ & _ & _ & _ & _ & _ & Hhigh).
    apply (Hhigh 0%nat 0%nat sample_acceptor sample_donor 0 3);
      reflexivity.
Defined.

Lemma detectors_on_empty_subsets_witness :
  hbond_acceptor_donor distance_3 angle_179 sample_mol1 empty_mol
    (Fin 4) (Fin 30) = Ok ([], [], []) /\
  pi_stacking distance_3 angle_0 angle_2v_0 float32 sample_mol1 empty_mol
    (Fin 4) (Fin 30) = Ok ([], [], [], []) /\
  hbonds distance_3 angle_179 empty_mol sample_mol2 (Fin 4) (Fin 30)
    = Ok ([], [], []).
Proof.
  pose proof (detectors_on_empty_subsets distance_3 angle_179 angle_2v_0
                float32 sample_mol1 empty_mol (Fin 4) (Fin 30)) as H1.
  pose proof (detectors_on_empty_subsets distance_3 angle_0 angle_2v_0
                float32 sample_mol1 empty_mol (Fin 4) (Fin 30)) as H2.
  pose proof (detectors_on_empty_subsets distance_3 angle_179 angle_2v_0
                float32 empty_mol sample_mol2 (Fin 4) (Fin 30)) as H3.
  cbv zeta in H1, H2, H3.
  destruct H1 as (_ & Hhb & _).
  destruct H2 as (_ & _ & _ & Hpi & _).
  destruct H3 as (_ & _ & _ & _ & _ & _ & _ & _ & _ & Hboth & _).
  split; [apply Hhb; right; reflexivity|].
  split; [apply Hpi; right; reflexivity|].
  apply Hboth. split; left; reflexivity.
Defined.

Lemma pi_stacking_flags_witness :
  pi_stacking distance_4 angle_0 angle_2v_0 float32 sample_mol1 sample_mol2
    pi_cutoff_default tolerance_default
  = Ok ([sample_ring_a], [sample_ring_b], [true], [false]).
Proof.
  apply (proj2 (proj2 (pi_stacking_flags distance_4 angle_0 angle_2v_0
                          float32)));
    reflexivity.
Defined.

Lemma bidirectional_detectors_witness :
  exists r, hbonds distance_3 angle_179 sample_mol1 sample_mol2
              hbond_cutoff_default tolerance_default = Ok r.
Proof.
  destruct (bidirectional_detectors distance_3 angle_179 sample_mol1
              sample_mol2 hbond_cutoff_default tolerance_default)
    as ((_ & Htotal & _) & _).
  apply Htotal; apply sample_valid_codes.
Defined.

(** The bounds of the ring detectors are rounded: at an angle of 180
    degrees a tolerance of [2^-60] is lost in [180 - t] whatever the dtype,
    and a tolerance of [2^-17] is lost on float32 data, where [180 - t]
    rounds to 180, but not on float64 data; at an angle of 0 a tolerance of
    [2^-150] underflows to 0 on float32 data, so that [0 < t] fails. *)
Lemma near_axis_small_tolerance :
  near_axis float64 (Fin (pow2 (-60))) (Fin 180) = false /\
  near_axis float32 (Fin (pow2 (-60))) (Fin 180) = false /\
  near_axis float32 (Fin (pow2 (-17))) (Fin 180) = false /\
  near_axis float64 (Fin (pow2 (-17))) (Fin 180) = true /\
  near_axis float32 (Fin (pow2 (-150))) (Fin 0) = false /\
  near_axis float64 (Fin (pow2 (-150))) (Fin 0) = true.
Proof. repeat split; vm_compute; reflexivity. Qed.

(** C8, with the 179 degrees on the donor side only: an acceptor and a donor
    3.0 apart, both of hybridization code 1 (ideal angle 180), the donor's
    only neighbor placing the angle acceptor - donor - neighbor at 179
    degrees, which lies in the band of tolerance 30.  The acceptor has no
    neighbor, so the acceptor-side check fails and the pair, emitted at
    cutoff 3.5, is not strict at tolerance 30. *)
Lemma hbond_donor_side_179_not_strict :
  distance_3 (coords sample_acceptor_bare) (coords sample_donor) = Fin 3 /\
  hybridization sample_donor = 1%Z /\
  np_take BASE_ANGLES (hybridization sample_donor) = Ok (Fin 180) /\
  partner_side_angles angle_179_measured sample_acceptor_bare sample_donor
    = [Fin 179] /\
  in_band (Fin 180) (Fin 30) (Fin 179) = true /\
  acceptor_side_angles angle_179_measured sample_acceptor_bare sample_donor
    = [NaN] /\
  hbond_acceptor_donor distance_3 angle_179_measured sample_mol_bare
    sample_mol2 hbond_cutoff_default (Fin 30)
    = Ok ([sample_acceptor_bare], [sample_donor], [false]).
Proof. repeat split; reflexivity. Qed.

Lemma hbond_strict_is_conjunction_witness :
  hbond_acceptor_donor distance_3 angle_179 sample_mol1 sample_mol2
    hbond_cutoff_default (Fin 30)
    = Ok ([sample_acceptor], [sample_donor], [true]) /\
  hbond_acceptor_donor distance_3 angle_179 sample_mol1 sample_mol2
    hbond_cutoff_default (Fin 0)
    = Ok ([sample_acceptor], [sample_donor], [false]).
Proof.
  destruct (proj2 (hbond_strict_is_conjunction distance_3 angle_179)
              sample_mol1 sample_mol2 sample_acceptor sample_donor
              eq_refl eq_refl eq_refl eq_refl eq_refl) as [H30 H0].
  split; [apply H30; left; reflexivity|exact H0].
Defined.

Lemma pi_stacking_parallel_excludes_perpendicular_witness :
  exists r1 r2 strict_parallel strict_perpendicular,
    pi_stacking distance_4 angle_0 angle_2v_0 float32 sample_mol1 sample_mol2
      pi_cutoff_default tolerance_default
      = Ok (r1, r2, strict_parallel, strict_perpendicular) /\
    length strict_parallel = length r1 /\
    length strict_perpendicular = length r1 /\
    (forall k, ~ (nth_error strict_parallel k = Some true /\
                  nth_error strict_perpendicular k = Some true)) /\
    (forall a, near_axis float32 tolerance_default a &&
               near_normal float32 tolerance_default a = false).
Proof.
  apply pi_stacking_parallel_excludes_perpendicular. reflexivity.
Defined.

Lemma code_above_table_raises_witness :
  _check_angles [[Fin 100]] [7%Z] (Fin 30) = Raise IndexError /\
  acceptor_metal distance_3 angle_179 sample_mol_code7
    (mkmol [sample_metal] []) (Fin 30) (Fin 4) = Raise IndexError.
Proof.
  destruct (code_above_table_raises distance_3 angle_179)
    as (Hcheck & _ & _ & Hmetal).
  split.
  - apply Hcheck. constructor. lia.
  - eapply Hmetal; [reflexivity|]. constructor. cbn. lia.
Defined.

(** * Further properties of the module *)

(** ** Order, size and symmetry of close_contacts *)

Lemma StronglySorted_app {T} (R : T -> T -> Prop) (l1 l2 : list T) :
  StronglySorted R l1 -> StronglySorted R l2 ->
  (forall a b, In a l1 -> In b l2 -> R a b) ->
  StronglySorted R (l1 ++ l2).
Proof.
  intros H1 H2 H12. induction H1 as [|a l1 Hs IH Ha]; cbn; [assumption|].
  constructor.
  - apply IH. intros a' b Ha' Hb. apply H12; [now right|assumption].
  - apply Forall_app. split; [assumption|].
    apply Forall_forall. intros b Hb. apply H12; [now left|assumption].
Qed.

Lemma argwhere_row_sorted (i j0 : nat) (row : list bool) :
  StronglySorted row_major_lt (argwhere_row i j0 row).
Proof.
  revert j0. induction row as [|b row IH]; intro j0; cbn [argwhere_row].
  - constructor.
  - destruct b; [|apply IH]. constructor; [apply IH|].
    apply Forall_forall. intros p Hp.
    apply argwhere_row_In in Hp as (j & -> & _).
    right. cbn. split; [reflexivity|lia].
Qed.

Lemma argwhere_from_sorted (i0 : nat) (m : list (list bool)) :
  StronglySorted row_major_lt (argwhere_from i0 m).
Proof.
  revert i0. induction m as [|r m IH]; intro i0; cbn [argwhere_from].
  - constructor.
  - apply StronglySorted_app; [apply argwhere_row_sorted|apply IH|].
    intros a b Ha Hb.
    apply argwhere_row_In in Ha as (j & -> & _).
    apply argwhere_from_In in Hb as (i & row & Hp & _).
    left. cbn. lia.
Qed.

Section MoreContactFacts.

Variable point_distance : point -> point -> fnum.
Context {A B : Type}.
Variables (x : list A) (y : list B).
Variables (x_column : A -> point) (y_column : B -> point).

(** X1.  The pairs come out in row-major order of the distance matrix: all
    pairs of [x[0]] before all pairs of [x[1]], and for one row of [x] by
    increasing position in [y]. *)
Theorem close_contacts_row_major (cutoff cutoff_low : fnum) :
  let index := contact_index point_distance x y cutoff x_column y_column
                             cutoff_low in
  exists xs ys,
    close_contacts point_distance x y cutoff x_column y_column cutoff_low
      = Ok (xs, ys) /\
    Forall2 (fun ij ab => nth_error x (fst ij) = Some (fst ab) /\
                          nth_error y (snd ij) = Some (snd ab))
            index (combine xs ys) /\
    StronglySorted row_major_lt index.
Proof.
  intro index.
  destruct (close_contacts_Ok point_distance x y cutoff x_column y_column
              cutoff_low) as (xs & ys & Hcc & Hx & Hy).
  exists xs, ys. split; [exact Hcc|].
  split; [now apply Forall2_combine_index|].
  apply argwhere_from_sorted.
Qed.

(** X2.  No position is emitted twice, so there are at most
    [len(x) * len(y)] pairs. *)
Theorem close_contacts_at_most_all_pairs (cutoff cutoff_low : fnum) :
  exists xs ys,
    close_contacts point_distance x y cutoff x_column y_column cutoff_low
      = Ok (xs, ys) /\
    length ys = length xs /\
    (length xs <= length x * length y)%nat.
Proof.
  destruct (close_contacts_Ok point_distance x y cutoff x_column y_column
              cutoff_low) as (xs & ys & Hcc & Hx & Hy).
  exists xs, ys. split; [exact Hcc|].
  apply Forall2_length in Hx, Hy. rewrite length_map in Hx, Hy.
  split; [congruence|]. rewrite <- Hx.
  assert (Hall : length (list_prod (seq 0 (length x)) (seq 0 (length y)))
                 = (length x * length y)%nat)
    by (now rewrite length_prod, !length_seq).
  rewrite <- Hall.
  apply NoDup_incl_length; [apply contact_index_NoDup|].
  intros [i j] Hin.
  apply contact_index_In in Hin as (a & b & Ha & Hb & _).
  apply in_prod; apply in_seq; split; try lia; cbn;
    apply nth_error_Some; congruence.
Qed.

(** X3.  An empty window gives no pair: when [cutoff_low < cutoff] does not
    hold (the cutoff is not above the lower cutoff, or one of the two is
    NaN), the result is empty. *)
Theorem close_contacts_empty_window (cutoff cutoff_low : fnum) :
  flt cutoff_low cutoff = false ->
  close_contacts point_distance x y cutoff x_column y_column cutoff_low
    = Ok ([], []).
Proof.
  intro Hw.
  destruct (close_contacts_Ok point_distance x y cutoff x_column y_column
              cutoff_low) as (xs & ys & Hcc & Hx & Hy).
  rewrite Hcc.
  destruct (contact_index point_distance x y cutoff x_column y_column
              cutoff_low) as [|[i j] rest] eqn:E.
  - inversion Hx. inversion Hy. reflexivity.
  - exfalso.
    assert (Hin : In (i, j) (contact_index point_distance x y cutoff x_column
                               y_column cutoff_low))
      by (rewrite E; now left).
    apply contact_index_In in Hin as (a & b & _ & _ & Hwin).
    apply in_window_true in Hwin as [Hgt Hle].
    apply flt_true_inv in Hgt as (lo & d & -> & Hd & Hlt).
    rewrite Hd in Hle.
    apply fle_true_inv in Hle as (d' & hi & Hd' & -> & Hdle).
    injection Hd' as <-.
    assert (Hfalse : flt (Fin lo) (Fin hi) = true) by (apply flt_Fin; lra).
    congruence.
Qed.

(** X4.  Windows compose: for [lo <= mid <= hi] a position lies in the
    window [(lo, hi]] exactly when it lies in [(lo, mid]] or in [(mid, hi]],
    and never in both.  In particular raising the cutoff only adds pairs. *)
Theorem close_contacts_window_split (lo mid hi : fnum) (i j : nat) :
  fle lo mid = true -> fle mid hi = true ->
  let index := fun lo hi =>
    contact_index point_distance x y hi x_column y_column lo in
  (In (i, j) (index lo hi) <->
   In (i, j) (index lo mid) \/ In (i, j) (index mid hi)) /\
  ~ (In (i, j) (index lo mid) /\ In (i, j) (index mid hi)).
Proof.
  intros Hlm Hmh index. unfold index.
  apply fle_true_inv in Hlm as (l & m & -> & -> & Hlm).
  apply fle_true_inv in Hmh as (m' & h & Hm & -> & Hmh).
  injection Hm as <-.
  rewrite !contact_index_In.
  assert (Hwin : forall d,
    (in_window (Fin l) (Fin h) d = true <->
     in_window (Fin l) (Fin m) d = true \/
     in_window (Fin m) (Fin h) d = true) /\
    ~ (in_window (Fin l) (Fin m) d = true /\
       in_window (Fin m) (Fin h) d = true)).
  { intros [|d].
    - unfold in_window; cbn. split; [split; [discriminate|]|];
        intuition discriminate.
    - rewrite !in_window_true, !fgt_Fin, !fle_Fin.
      destruct (Qlt_le_dec m d); split; try split; intros; lra. }
  split; [split|].
  - intros (a & b & Ha & Hb & Hw).
    destruct (Hwin (point_distance (x_column a) (y_column b))) as [Hiff _].
    apply Hiff in Hw as [Hw|Hw]; [left|right]; exists a, b; auto.
  - intros [(a & b & Ha & Hb & Hw)|(a & b & Ha & Hb & Hw)];
      exists a, b; (split; [assumption|]); (split; [assumption|]);
      destruct (Hwin (point_distance (x_column a) (y_column b)))
        as [Hiff _]; apply Hiff; auto.
  - intros [(a & b & Ha & Hb & Hw) (a' & b' & Ha' & Hb' & Hw')].
    rewrite Ha in Ha'. rewrite Hb in Hb'.
    injection Ha' as <-. injection Hb' as <-.
    destruct (Hwin (point_distance (x_column a) (y_column b))) as [_ Hno].
    apply Hno. split; assumption.
Qed.

End MoreContactFacts.

Lemma map_Some_inj {T} (l l' : list T) : map Some l = map Some l' -> l = l'.
Proof.
  revert l'. induction l as [|a l IH]; intros [|b l'] H; cbn in H;
    try discriminate; [reflexivity|].
  injection H as -> H. f_equal. now apply IH.
Qed.

Lemma Permutation_map_Some {T} (l l' : list T) :
  Permutation (map Some l) (map Some l') -> Permutation l l'.
Proof.
  intro H. apply Permutation_map_inv in H as (l3 & Heq & Hperm).
  apply map_Some_inj in Heq. subst l3. now symmetry.
Qed.

(** The pair of records at a position of the distance matrix. *)
Lemma positions_to_records {T U} (x : list T) (y : list U)
  (idx : list (nat * nat)) (l : list (T * U)) :
  Forall2 (fun ij ab => nth_error x (fst ij) = Some (fst ab) /\
                        nth_error y (snd ij) = Some (snd ab)) idx l ->
  map (fun ij => match nth_error x (fst ij), nth_error y (snd ij) with
                 | Some a, Some b => Some (a, b)
                 | _, _ => None
                 end) idx = map Some l.
Proof.
  induction 1 as [|ij [a b] idx l [Ha Hb] _ IH]; cbn [map]; [reflexivity|].
  cbn [fst snd] in Ha, Hb. now rewrite Ha, Hb, IH.
Qed.

Lemma contact_index_transpose (point_distance : point -> point -> fnum)
  {A B : Type} (x : list A) (y : list B) (cutoff : fnum)
  (x_column : A -> point) (y_column : B -> point) (cutoff_low : fnum) :
  (forall p q, point_distance p q = point_distance q p) ->
  Permutation
    (map transpose_position
       (contact_index point_distance x y cutoff x_column y_column cutoff_low))
    (contact_index point_distance y x cutoff y_column x_column cutoff_low).
Proof.
  intro Hsym. apply NoDup_Permutation.
  - apply Injective_map_NoDup; [|apply contact_index_NoDup].
    intros [i j] [i' j'] H. injection H as -> ->. reflexivity.
  - apply contact_index_NoDup.
  - intros [j i]. rewrite in_map_iff, contact_index_In. split.
    + intros ([i' j'] & Heq & Hin). injection Heq as -> ->.
      apply contact_index_In in Hin as (a & b & Ha & Hb & Hw).
      exists b, a. rewrite Hsym. auto.
    + intros (b & a & Hb & Ha & Hw). exists (i, j). split; [reflexivity|].
      apply contact_index_In. exists a, b. rewrite Hsym. auto.
Qed.

(** X5.  The join is symmetric in content: with a symmetric distance,
    [close_contacts(y, x)] returns the pairs of [close_contacts(x, y)] with
    the two sides exchanged, possibly in another order. *)
Theorem close_contacts_swap (point_distance : point -> point -> fnum)
  {A B : Type} (x : list A) (y : list B) (cutoff : fnum)
  (x_column : A -> point) (y_column : B -> point) (cutoff_low : fnum) :
  (forall p q, point_distance p q = point_distance q p) ->
  exists xs ys ys' xs',
    close_contacts point_distance x y cutoff x_column y_column cutoff_low
      = Ok (xs, ys) /\
    close_contacts point_distance y x cutoff y_column x_column cutoff_low
      = Ok (ys', xs') /\
    length ys = length xs /\ length xs' = length ys' /\
    Permutation (combine xs ys)
                (map (fun ba => (snd ba, fst ba)) (combine ys' xs')).
Proof.
  intro Hsym.
  destruct (close_contacts_Ok point_distance x y cutoff x_column y_column
              cutoff_low) as (xs & ys & Hcc & Hx & Hy).
  destruct (close_contacts_Ok point_distance y x cutoff y_column x_column
              cutoff_low) as (ys' & xs' & Hcc' & Hy' & Hx').
  exists xs, ys, ys', xs'. split; [exact Hcc|]. split; [exact Hcc'|].
  pose proof Hcc as Hal. apply close_contacts_aligned in Hal as (Hlen & _).
  pose proof Hcc' as Hal. apply close_contacts_aligned in Hal as (Hlen' & _).
  split; [congruence|]. split; [congruence|].
  pose proof (Forall2_combine_index _ _ _ Hx Hy) as E.
  apply positions_to_records in E.
  pose proof (Forall2_combine_index _ _ _ Hy' Hx') as E'.
  apply positions_to_records in E'.
  apply Permutation_map_Some. rewrite <- E.
  replace (map Some (map (fun ba : B * A => (snd ba, fst ba))
                         (combine ys' xs')))
    with (map (option_map (fun ba : B * A => (snd ba, fst ba)))
              (map Some (combine ys' xs')))
    by (rewrite !map_map; reflexivity).
  rewrite <- E'.
  pose proof (@contact_index_transpose point_distance A B x y cutoff
                x_column y_column cutoff_low Hsym) as Hperm.
  apply (Permutation_map
           (fun ji => option_map (fun ba : B * A => (snd ba, fst ba))
                        match nth_error y (fst ji), nth_error x (snd ji) with
                        | Some b, Some a => Some (b, a)
                        | _, _ => None
                        end)) in Hperm.
  rewrite !map_map in Hperm. rewrite !map_map.
  erewrite map_ext; [exact Hperm|].
  intros [i j]. cbn [transpose_position fst snd].
  destruct (nth_error x i), (nth_error y j); reflexivity.
Qed.

Lemma distance_x_symmetric (p q : point) : distance_x p q = distance_x q p.
Proof.
  unfold distance_x. destruct (px p), (px q); try reflexivity.
  now rewrite Qabs_Qminus.
Qed.

Lemma close_contacts_swap_witness :
  exists xs ys ys' xs',
    close_contacts distance_x [sample_acceptor; sample_donor]
      [sample_donor; sample_metal] (Fin 4) coords coords (Fin 0)
      = Ok (xs, ys) /\
    close_contacts distance_x [sample_donor; sample_metal]
      [sample_acceptor; sample_donor] (Fin 4) coords coords (Fin 0)
      = Ok (ys', xs') /\
    length ys = length xs /\ length xs' = length ys' /\
    Permutation (combine xs ys)
                (map (fun ba => (snd ba, fst ba)) (combine ys' xs')).
Proof.
  apply close_contacts_swap. exact distance_x_symmetric.
Defined.

(** ** What the detectors pair *)

Lemma close_contacts_pairs (point_distance : point -> point -> fnum)
  {A B : Type} (x : list A) (y : list B) (cutoff : fnum)
  (x_column : A -> point) (y_column : B -> point) (cutoff_low : fnum)
  (xs : list A) (ys : list B) :
  close_contacts point_distance x y cutoff x_column y_column cutoff_low
    = Ok (xs, ys) ->
  Forall2 (fun a b =>
             In a x /\ In b y /\
             in_window cutoff_low cutoff
               (point_distance (x_column a) (y_column b)) = true) xs ys.
Proof.
  intro H.
  destruct (close_contacts_Ok point_distance x y cutoff x_column y_column
              cutoff_low) as (xs' & ys' & Hcc & Hx & Hy).
  rewrite H in Hcc. injection Hcc as <- <-.
  assert (Hall : forall ij,
    In ij (contact_index point_distance x y cutoff x_column y_column
             cutoff_low) ->
    exists a b, nth_error x (fst ij) = Some a /\
                nth_error y (snd ij) = Some b /\
                in_window cutoff_low cutoff
                  (point_distance (x_column a) (y_column b)) = true).
  { intros [i j] Hin. now apply contact_index_In in Hin. }
  revert Hall Hx Hy.
  generalize (contact_index point_distance x y cutoff x_column y_column
                cutoff_low) as idx.
  clear H. intro idx. revert xs ys.
  induction idx as [|ij idx IH]; intros xs ys Hall Hx Hy; cbn [map] in *.
  - inversion Hx; inversion Hy; subst. constructor.
  - inversion Hx as [|? a ? xs' Ha Hxs]; subst.
    inversion Hy as [|? b ? ys' Hb Hys]; subst.
    constructor.
    + destruct (Hall ij (or_introl eq_refl)) as (a' & b' & Ha' & Hb' & Hw).
      rewrite Ha in Ha'. rewrite Hb in Hb'.
      injection Ha' as <-. injection Hb' as <-.
      split; [eapply nth_error_In; eassumption|].
      split; [eapply nth_error_In; eassumption|assumption].
    + apply IH; [|assumption|assumption].
      intros ij' Hin. apply Hall. now right.
Qed.

Section PairedAtoms.

Variable point_distance : point -> point -> fnum.
Variable point_angle : point -> point -> point -> fnum.

Lemma filtered_contacts (mol1 mol2 : Molecule) (f g : atom -> bool)
  (cutoff : fnum) (xs ys : list atom) :
  close_contacts point_distance (filter f (atom_dict mol1))
    (filter g (atom_dict mol2)) cutoff coords coords cutoff_low_default
    = Ok (xs, ys) ->
  Forall2 (contact_of point_distance cutoff mol1 mol2 f g) xs ys.
Proof.
  intro H. apply close_contacts_pairs in H.
  eapply Forall2_impl; [|exact H].
  intros a b (Ha & Hb & Hw). cbv beta in *.
  apply filter_In in Ha as [Ha Hfa]. apply filter_In in Hb as [Hb Hgb].
  apply in_window_true in Hw as [Hgt Hle].
  unfold contact_of. auto 10.
Qed.

Lemma hbond_acceptor_donor_contacts (mol1 mol2 : Molecule)
  (cutoff t : fnum) (a d : list atom) (s : list bool) :
  hbond_acceptor_donor point_distance point_angle mol1 mol2 cutoff t
    = Ok (a, d, s) ->
  close_contacts point_distance (filter isacceptor (atom_dict mol1))
    (filter isdonor (atom_dict mol2)) cutoff coords coords cutoff_low_default
    = Ok (a, d).
Proof.
  intro H.
  destruct (close_contacts_Ok point_distance
              (filter isacceptor (atom_dict mol1))
              (filter isdonor (atom_dict mol2)) cutoff coords coords
              cutoff_low_default) as (a' & d' & Hcc & _).
  rewrite (@hbond_acceptor_donor_pairs point_distance point_angle
             mol1 mol2 cutoff t a' d' Hcc) in H.
  destruct (two_sided_strict point_angle a' d' t); cbn [bind] in H;
    [|discriminate].
  injection H as <- <- <-. exact Hcc.
Qed.

Lemma halogenbond_acceptor_halogen_contacts (mol1 mol2 : Molecule)
  (t cutoff : fnum) (a h : list atom) (s : list bool) :
  halogenbond_acceptor_halogen point_distance point_angle mol1 mol2 t cutoff
    = Ok (a, h, s) ->
  close_contacts point_distance (filter isacceptor (atom_dict mol1))
    (filter ishalogen (atom_dict mol2)) cutoff coords coords
    cutoff_low_default = Ok (a, h).
Proof.
  intro H.
  destruct (close_contacts_Ok point_distance
              (filter isacceptor (atom_dict mol1))
              (filter ishalogen (atom_dict mol2)) cutoff coords coords
              cutoff_low_default) as (a' & h' & Hcc & _).
  rewrite (@halogenbond_acceptor_halogen_pairs point_distance point_angle
             mol1 mol2 t cutoff a' h' Hcc) in H.
  destruct (two_sided_strict point_angle a' h' t); cbn [bind] in H;
    [|discriminate].
  injection H as <- <- <-. exact Hcc.
Qed.

Lemma acceptor_metal_contacts (mol1 mol2 : Molecule)
  (t cutoff : fnum) (a m : list atom) (s : list bool) :
  acceptor_metal point_distance point_angle mol1 mol2 t cutoff
    = Ok (a, m, s) ->
  close_contacts point_distance (filter isacceptor (atom_dict mol1))
    (filter ismetal (atom_dict mol2)) cutoff coords coords
    cutoff_low_default = Ok (a, m).
Proof.
  intro H.
  destruct (close_contacts_Ok point_distance
              (filter isacceptor (atom_dict mol1))
              (filter ismetal (atom_dict mol2)) cutoff coords coords
              cutoff_low_default) as (a' & m' & Hcc & _).
  rewrite (@acceptor_metal_pairs point_distance point_angle
             mol1 mol2 t cutoff a' m' Hcc) in H.
  destruct (_check_angles _ _ _); cbn [bind] in H; [|discriminate].
  injection H as <- <- <-. exact Hcc.
Qed.

Lemma salt_bridge_plus_minus_contacts (mol1 mol2 : Molecule)
  (cutoff : fnum) :
  exists p n,
    salt_bridge_plus_minus point_distance mol1 mol2 cutoff = Ok (p, n) /\
    Forall2 (contact_of point_distance cutoff mol1 mol2 isplus isminus) p n.
Proof.
  unfold salt_bridge_plus_minus.
  destruct (close_contacts_Ok point_distance
              (filter isplus (atom_dict mol1))
              (filter isminus (atom_dict mol2)) cutoff coords coords
              cutoff_low_default) as (p & n & Hcc & _).
  rewrite Hcc. cbn [bind]. exists p, n. split; [reflexivity|].
  now apply filtered_contacts.
Qed.

(** X6.  The two distance-only detectors always return, and each returned
    pair is a contact of the selected kind: [hydrophobic_contacts] pairs a
    hydrophobe of [mol1] with a hydrophobe of [mol2],
    [salt_bridge_plus_minus] a cation of [mol1] with an anion of [mol2], at a
    distance in [(0, cutoff]]. *)
Theorem distance_only_detectors_pairs (mol1 mol2 : Molecule)
  (cutoff : fnum) :
  (exists h1 h2,
      hydrophobic_contacts point_distance mol1 mol2 cutoff = Ok (h1, h2) /\
      Forall2 (contact_of point_distance cutoff mol1 mol2
                          ishydrophobe ishydrophobe) h1 h2) /\
  (exists p n,
      salt_bridge_plus_minus point_distance mol1 mol2 cutoff = Ok (p, n) /\
      Forall2 (contact_of point_distance cutoff mol1 mol2 isplus isminus)
              p n).
Proof.
  split.
  - unfold hydrophobic_contacts.
    destruct (close_contacts_Ok point_distance
                (filter ishydrophobe (atom_dict mol1))
                (filter ishydrophobe (atom_dict mol2)) cutoff coords coords
                cutoff_low_default) as (h1 & h2 & Hcc & _).
    rewrite Hcc. cbn [bind]. exists h1, h2. split; [reflexivity|].
    now apply filtered_contacts.
  - apply salt_bridge_plus_minus_contacts.
Qed.

(** X7.  Every pair returned by [salt_bridges] joins a cation and an anion
    within the cutoff, the first of [mol1] and the second of [mol2]: either
    the cation is the atom of [mol1], or it is the atom of [mol2]. *)
Theorem salt_bridges_pairs (mol1 mol2 : Molecule) (cutoff : fnum) :
  exists m1s m2s,
    salt_bridges point_distance mol1 mol2 cutoff = Ok (m1s, m2s) /\
    Forall2 (fun u v =>
               contact_of point_distance cutoff mol1 mol2 isplus isminus u v
               \/
               contact_of point_distance cutoff mol2 mol1 isplus isminus v u)
            m1s m2s.
Proof.
  destruct (salt_bridge_plus_minus_contacts mol1 mol2 cutoff)
    as (p1 & n2 & E1 & F1).
  destruct (salt_bridge_plus_minus_contacts mol2 mol1 cutoff)
    as (p2 & n1 & E2 & F2).
  unfold salt_bridges. rewrite E1, E2. cbn [bind].
  do 2 eexists. split; [reflexivity|].
  apply Forall2_app.
  - eapply Forall2_impl; [|exact F1]. intros u v H. now left.
  - apply Forall2_flip in F2. eapply Forall2_impl; [|exact F2].
    intros u v H. now right.
Qed.

(** X8.  When a detector that classifies by hybridization returns, it has
    paired atoms of the roles it searches for, within the cutoff:
    acceptor and donor, acceptor and halogen, acceptor and metal; the
    detectors that search in both directions return each pair with the atom
    of [mol1] first, whichever of the two carries which role. *)
Theorem classifying_detectors_pairs (mol1 mol2 : Molecule)
  (cutoff t : fnum) :
  (forall a d s,
      hbond_acceptor_donor point_distance point_angle mol1 mol2 cutoff t
        = Ok (a, d, s) ->
      Forall2 (contact_of point_distance cutoff mol1 mol2
                          isacceptor isdonor) a d) /\
  (forall a h s,
      halogenbond_acceptor_halogen point_distance point_angle mol1 mol2
        t cutoff = Ok (a, h, s) ->
      Forall2 (contact_of point_distance cutoff mol1 mol2
                          isacceptor ishalogen) a h) /\
  (forall a m s,
      acceptor_metal point_distance point_angle mol1 mol2 t cutoff
        = Ok (a, m, s) ->
      Forall2 (contact_of point_distance cutoff mol1 mol2
                          isacceptor ismetal) a m) /\
  (forall u v s,
      hbonds point_distance point_angle mol1 mol2 cutoff t = Ok (u, v, s) ->
      Forall2 (fun u v =>
                 contact_of point_distance cutoff mol1 mol2
                            isacceptor isdonor u v \/
                 contact_of point_distance cutoff mol2 mol1
                            isacceptor isdonor v u) u v) /\
  (forall u v s,
      halogenbonds point_distance point_angle mol1 mol2 cutoff t
        = Ok (u, v, s) ->
      Forall2 (fun u v =>
                 contact_of point_distance cutoff mol1 mol2
                            isacceptor ishalogen u v \/
                 contact_of point_distance cutoff mol2 mol1
                            isacceptor ishalogen v u) u v).
Proof.
  assert (Hhb : forall m1 m2 a d s,
    hbond_acceptor_donor point_distance point_angle m1 m2 cutoff t
      = Ok (a, d, s) ->
    Forall2 (contact_of point_distance cutoff m1 m2 isacceptor isdonor) a d).
  { intros m1 m2 a d s H. apply hbond_acceptor_donor_contacts in H.
    now apply filtered_contacts. }
  assert (Hxb : forall m1 m2 a h s,
    halogenbond_acceptor_halogen point_distance point_angle m1 m2 t cutoff
      = Ok (a, h, s) ->
    Forall2 (contact_of point_distance cutoff m1 m2 isacceptor ishalogen)
            a h).
  { intros m1 m2 a h s H. apply halogenbond_acceptor_halogen_contacts in H.
    now apply filtered_contacts. }
  split; [apply Hhb|]. split; [apply Hxb|]. split; [|split].
  - intros a m s H. apply acceptor_metal_contacts in H.
    now apply filtered_contacts.
  - intros u v s H. unfold hbonds in H.
    destruct (hbond_acceptor_donor _ _ mol1 mol2 _ _)
      as [[[a1 d1] s1]|e] eqn:E1; cbn [bind] in H; [|discriminate].
    destruct (hbond_acceptor_donor _ _ mol2 mol1 _ _)
      as [[[a2 d2] s2]|e] eqn:E2; cbn [bind] in H; [|discriminate].
    injection H as <- <- <-. apply Forall2_app.
    + eapply Forall2_impl; [|exact (Hhb _ _ _ _ _ E1)]. intros; now left.
    + apply Hhb in E2. apply Forall2_flip in E2.
      eapply Forall2_impl; [|exact E2]. intros; now right.
  - intros u v s H. unfold halogenbonds in H.
    destruct (halogenbond_acceptor_halogen _ _ mol1 mol2 _ _)
      as [[[a1 d1] s1]|e] eqn:E1; cbn [bind] in H; [|discriminate].
    destruct (halogenbond_acceptor_halogen _ _ mol2 mol1 _ _)
      as [[[a2 d2] s2]|e] eqn:E2; cbn [bind] in H; [|discriminate].
    injection H as <- <- <-. apply Forall2_app.
    + eapply Forall2_impl; [|exact (Hxb _ _ _ _ _ E1)]. intros; now left.
    + apply Hxb in E2. apply Forall2_flip in E2.
      eapply Forall2_impl; [|exact E2]. intros; now right.
Qed.

End PairedAtoms.

(** ** The ring detectors *)

Lemma Forall2_map_same {T} (R : bool -> bool -> Prop) (f g : T -> bool)
  (l : list T) :
  (forall v, R (f v) (g v)) -> Forall2 R (map f l) (map g l).
Proof. intro H. induction l; cbn; constructor; auto. Qed.

Lemma near_axis_mono (coords_dtype : dtype) (t1 t2 a : fnum) :
  fle t1 t2 = true ->
  flag_le (near_axis coords_dtype t1 a) (near_axis coords_dtype t2 a).
Proof.
  intros Hle H. apply fle_true_inv in Hle as (x & y & -> & -> & Hxy).
  unfold near_axis in *. cbn [fsub fcast] in *.
  assert (A : 180 - y <= 180 - x) by lra.
  pose proof (@cast_round_mono coords_dtype _ _ A) as L1.
  pose proof (round_dtype_mono coords_dtype x y Hxy) as L2.
  apply orb_true_iff in H. apply orb_true_iff. destruct H as [H|H].
  - left. unfold fgt in H.
    apply flt_true_inv in H as (u & v & Hu & -> & Huv).
    injection Hu as <-. apply fgt_Fin. lra.
  - right. apply flt_true_inv in H as (v & u & -> & Hu & Huv).
    injection Hu as <-. apply flt_Fin. lra.
Qed.

Lemma near_normal_mono (coords_dtype : dtype) (t1 t2 a : fnum) :
  fle t1 t2 = true ->
  flag_le (near_normal coords_dtype t1 a) (near_normal coords_dtype t2 a).
Proof.
  intros Hle H. apply fle_true_inv in Hle as (x & y & -> & -> & Hxy).
  unfold near_normal in *. cbn [fsub fadd fcast] in *.
  assert (A : 90 - y <= 90 - x) by lra.
  assert (B : 90 + x <= 90 + y) by lra.
  pose proof (@cast_round_mono coords_dtype _ _ A) as L1.
  pose proof (@cast_round_mono coords_dtype _ _ B) as L2.
  apply andb_true_iff in H as [Hlo Hhi]. apply andb_true_iff.
  apply flt_true_inv in Hhi as (v & u & -> & Hu & Hhi). injection Hu as <-.
  apply fgt_Fin in Hlo. split; [apply fgt_Fin|apply flt_Fin]; lra.
Qed.

Section RingDetectors.

Variable point_distance : point -> point -> fnum.
Variable point_angle : point -> point -> point -> fnum.
Variable vector_angle : point -> point -> fnum.
Variable coords_dtype : dtype.

(** [pi_cation] and [pi_metal] differ in the selector only. *)
Lemma ring_atom_detector (g : atom -> bool) (mol1 mol2 : Molecule)
  (cutoff t : fnum) :
  exists r1 m,
    close_contacts point_distance (ring_dict mol1)
      (filter g (atom_dict mol2)) cutoff centroid coords cutoff_low_default
      = Ok (r1, m) /\
    ('(r1, m) <- close_contacts point_distance (ring_dict mol1)
                   (filter g (atom_dict mol2)) cutoff centroid coords
                   cutoff_low_default ;;
     if (0 <? length r1) && (0 <? length m) then
       Ok (r1, m,
           map (near_axis coords_dtype t)
               (angle_2v vector_angle (map vector r1)
                         (zip_with (psub coords_dtype) (map coords m) (map centroid r1))))
     else Ok (r1, m, []))
    = Ok (r1, m,
          map (fun rm => near_axis coords_dtype t
                           (ring_atom_angle vector_angle coords_dtype (fst rm) (snd rm)))
              (combine r1 m)) /\
    length m = length r1 /\
    Forall2 (ring_contact_of point_distance cutoff mol1 mol2 g) r1 m.
Proof.
  destruct (close_contacts_Ok point_distance (ring_dict mol1)
              (filter g (atom_dict mol2)) cutoff centroid coords
              cutoff_low_default) as (r1 & m & Hcc & _).
  exists r1, m. split; [exact Hcc|]. rewrite Hcc. cbn [bind].
  pose proof Hcc as Hal. apply close_contacts_aligned in Hal as (Hlen & _).
  split; [|split; [congruence|]].
  - assert (E : forall l l',
      map (near_axis coords_dtype t)
          (angle_2v vector_angle (map vector l)
                    (zip_with (psub coords_dtype) (map coords l') (map centroid l))) =
      map (fun rm => near_axis coords_dtype t
                       (ring_atom_angle vector_angle coords_dtype (fst rm) (snd rm)))
          (combine l l')).
    { unfold angle_2v, ring_atom_angle.
      induction l as [|ra l IH]; intros [|mk l']; cbn; try reflexivity.
      now rewrite <- IH. }
    destruct r1 as [|ra r1], m as [|mk m]; try discriminate;
      [reflexivity|].
    cbn [length Nat.ltb Nat.leb andb]. now rewrite E.
  - apply close_contacts_pairs in Hcc.
    eapply Forall2_impl; [|exact Hcc].
    intros ra b (Hra & Hb & Hw). cbv beta in *.
    apply filter_In in Hb as [Hb Hgb].
    apply in_window_true in Hw as [Hgt Hle].
    unfold ring_contact_of. auto 10.
Qed.

(** X9.  [pi_cation] and [pi_metal] always return: each pair joins a ring of
    [mol1] and a cation (resp. metal) of [mol2] whose distance from the ring
    centroid is in [(0, cutoff]], and the flag of a pair is
    [(a > 180 - t) or (a < t)] for the angle [a] between the ring normal and
    the vector from the centroid to the atom, [180 - t] being the double
    precision difference and both bounds being converted to the dtype of the
    angle array; for a whole number of degrees between 0 and 180 the bounds
    are the exact ones.  No hybridization code is read. *)
Theorem pi_cation_and_pi_metal (mol1 mol2 : Molecule) (cutoff t : fnum) :
  (exists r1 plus2 strict,
      pi_cation point_distance vector_angle coords_dtype mol1 mol2 cutoff t
        = Ok (r1, plus2, strict) /\
      length plus2 = length r1 /\ length strict = length r1 /\
      Forall2 (ring_contact_of point_distance cutoff mol1 mol2 isplus)
              r1 plus2 /\
      forall k ra b,
        nth_error r1 k = Some ra -> nth_error plus2 k = Some b ->
        let a := ring_atom_angle vector_angle coords_dtype ra b in
        nth_error strict k =
          Some (fgt a (fcast coords_dtype (fsub (Fin 180) t)) ||
                flt a (fcast coords_dtype t)) /\
        forall n : Z,
          (0 <= n <= 180)%Z -> t = Fin (inject_Z n) ->
          nth_error strict k =
            Some (fgt a (Fin (180 - inject_Z n)) ||
                  flt a (Fin (inject_Z n)))) /\
  (exists r1 m strict,
      pi_metal point_distance vector_angle coords_dtype mol1 mol2 cutoff t
        = Ok (r1, m, strict) /\
      length m = length r1 /\ length strict = length r1 /\
      Forall2 (ring_contact_of point_distance cutoff mol1 mol2 ismetal)
              r1 m /\
      forall k ra b,
        nth_error r1 k = Some ra -> nth_error m k = Some b ->
        let a := ring_atom_angle vector_angle coords_dtype ra b in
        nth_error strict k =
          Some (fgt a (fcast coords_dtype (fsub (Fin 180) t)) ||
                flt a (fcast coords_dtype t)) /\
        forall n : Z,
          (0 <= n <= 180)%Z -> t = Fin (inject_Z n) ->
          nth_error strict k =
            Some (fgt a (Fin (180 - inject_Z n)) ||
                  flt a (Fin (inject_Z n)))).
Proof.
  assert (Hflag : forall (l : list (ring * atom)) k rm,
    nth_error l k = Some rm ->
    let a := ring_atom_angle vector_angle coords_dtype (fst rm) (snd rm) in
    let strict := map (fun rm => near_axis coords_dtype t
                         (ring_atom_angle vector_angle coords_dtype
                            (fst rm) (snd rm))) l in
    nth_error strict k =
      Some (fgt a (fcast coords_dtype (fsub (Fin 180) t)) ||
            flt a (fcast coords_dtype t)) /\
    forall n : Z,
      (0 <= n <= 180)%Z -> t = Fin (inject_Z n) ->
      nth_error strict k =
        Some (fgt a (Fin (180 - inject_Z n)) || flt a (Fin (inject_Z n)))).
  { intros l k rm Hk. cbv zeta. rewrite (map_nth_error _ _ _ Hk).
    split; [reflexivity|]. intros n Hn ->. unfold near_axis.
    destruct (@ring_bounds_exact coords_dtype n
                (ring_atom_angle vector_angle coords_dtype (fst rm) (snd rm))
                Hn) as (E1 & E2 & _).
    now rewrite E1, E2. }
  split.
  - destruct (ring_atom_detector isplus mol1 mol2 cutoff t)
      as (r1 & m & _ & Hdet & Hlen & Hpairs).
    exists r1, m. eexists. split; [exact Hdet|]. split; [exact Hlen|].
    split; [now rewrite length_map, combine_length_eq|].
    split; [exact Hpairs|].
    intros k ra b Hra Hb.
    exact (Hflag _ k (ra, b) (combine_nth_error _ _ _ Hra Hb)).
  - destruct (ring_atom_detector ismetal mol1 mol2 cutoff t)
      as (r1 & m & _ & Hdet & Hlen & Hpairs).
    exists r1, m. eexists. split; [exact Hdet|]. split; [exact Hlen|].
    split; [now rewrite length_map, combine_length_eq|].
    split; [exact Hpairs|].
    intros k ra b Hra Hb.
    exact (Hflag _ k (ra, b) (combine_nth_error _ _ _ Hra Hb)).
Qed.

(** X10.  The flags of the ring detectors are monotone in the tolerance: for
    [t1 <= t2] the detector returns the same pairs at both tolerances, and a
    pair flagged at [t1] (parallel or perpendicular for [pi_stacking],
    strict for [pi_cation] and [pi_metal]) is flagged at [t2]. *)
Theorem ring_detectors_monotone_in_tolerance (mol1 mol2 : Molecule)
  (cutoff t1 t2 : fnum) :
  fle t1 t2 = true ->
  (exists r1 r2 par1 per1 par2 per2,
      pi_stacking point_distance point_angle vector_angle coords_dtype mol1 mol2
        cutoff t1 = Ok (r1, r2, par1, per1) /\
      pi_stacking point_distance point_angle vector_angle coords_dtype mol1 mol2
        cutoff t2 = Ok (r1, r2, par2, per2) /\
      Forall2 flag_le par1 par2 /\ Forall2 flag_le per1 per2) /\
  (exists r1 plus2 s1 s2,
      pi_cation point_distance vector_angle coords_dtype mol1 mol2 cutoff t1
        = Ok (r1, plus2, s1) /\
      pi_cation point_distance vector_angle coords_dtype mol1 mol2 cutoff t2
        = Ok (r1, plus2, s2) /\
      Forall2 flag_le s1 s2) /\
  (exists r1 m s1 s2,
      pi_metal point_distance vector_angle coords_dtype mol1 mol2 cutoff t1
        = Ok (r1, m, s1) /\
      pi_metal point_distance vector_angle coords_dtype mol1 mol2 cutoff t2
        = Ok (r1, m, s2) /\
      Forall2 flag_le s1 s2).
Proof.
  intro Hle. split; [|split].
  - destruct (close_contacts_Ok point_distance (ring_dict mol1)
                (ring_dict mol2) cutoff centroid centroid cutoff_low_default)
      as (r1 & r2 & Hcc & _).
    exists r1, r2. do 4 eexists.
    rewrite !(@pi_stacking_pairs point_distance point_angle vector_angle coords_dtype
                mol1 mol2 cutoff _ r1 r2 Hcc).
    split; [reflexivity|]. split; [reflexivity|].
    split; apply Forall2_map_same; intros [ra rb]; unfold flag_le;
      cbn [fst snd]; intro H; apply andb_true_iff in H as [H1 H2];
      apply andb_true_iff; split;
      first [ eapply near_axis_mono; eassumption
            | eapply near_normal_mono; eassumption ].
  - destruct (ring_atom_detector isplus mol1 mol2 cutoff t1)
      as (r1 & m & Hcc & Hdet1 & _).
    destruct (ring_atom_detector isplus mol1 mol2 cutoff t2)
      as (r1' & m' & Hcc' & Hdet2 & _).
    rewrite Hcc in Hcc'. injection Hcc' as <- <-.
    exists r1, m. do 2 eexists. split; [exact Hdet1|].
    split; [exact Hdet2|].
    apply Forall2_map_same. intros rm. apply near_axis_mono. exact Hle.
  - destruct (ring_atom_detector ismetal mol1 mol2 cutoff t1)
      as (r1 & m & Hcc & Hdet1 & _).
    destruct (ring_atom_detector ismetal mol1 mol2 cutoff t2)
      as (r1' & m' & Hcc' & Hdet2 & _).
    rewrite Hcc in Hcc'. injection Hcc' as <- <-.
    exists r1, m. do 2 eexists. split; [exact Hdet1|].
    split; [exact Hdet2|].
    apply Forall2_map_same. intros rm. apply near_axis_mono. exact Hle.
Qed.

Lemma near_axis_nan (t : fnum) : near_axis coords_dtype t NaN = false.
Proof.
  unfold near_axis, fgt.
  now destruct (fcast coords_dtype (fsub (Fin 180) t)), (fcast coords_dtype t).
Qed.

Lemma near_normal_nan (t : fnum) : near_normal coords_dtype t NaN = false.
Proof.
  unfold near_normal, fgt.
  now destruct (fcast coords_dtype (fsub (Fin 90) t)).
Qed.

(** X11.  In the ring detectors an undefined angle never counts: a ring pair
    one of whose two angles is NaN is flagged neither parallel nor
    perpendicular by [pi_stacking], and a ring-atom pair whose angle is NaN
    is not strict for [pi_cation] and [pi_metal]. *)
Theorem ring_detectors_nan_not_strict (mol1 mol2 : Molecule)
  (cutoff t : fnum) :
  (exists r1 r2 par per,
      pi_stacking point_distance point_angle vector_angle coords_dtype mol1 mol2
        cutoff t = Ok (r1, r2, par, per) /\
      forall k ra rb,
        nth_error r1 k = Some ra -> nth_error r2 k = Some rb ->
        normals_angle vector_angle ra rb = NaN \/
        centroid_angle point_angle coords_dtype ra rb = NaN ->
        nth_error par k = Some false /\ nth_error per k = Some false) /\
  (exists r1 plus2 strict,
      pi_cation point_distance vector_angle coords_dtype mol1 mol2 cutoff t
        = Ok (r1, plus2, strict) /\
      forall k ra b,
        nth_error r1 k = Some ra -> nth_error plus2 k = Some b ->
        ring_atom_angle vector_angle coords_dtype ra b = NaN ->
        nth_error strict k = Some false) /\
  (exists r1 m strict,
      pi_metal point_distance vector_angle coords_dtype mol1 mol2 cutoff t
        = Ok (r1, m, strict) /\
      forall k ra b,
        nth_error r1 k = Some ra -> nth_error m k = Some b ->
        ring_atom_angle vector_angle coords_dtype ra b = NaN ->
        nth_error strict k = Some false).
Proof.
  split; [|split].
  - destruct (close_contacts_Ok point_distance (ring_dict mol1)
                (ring_dict mol2) cutoff centroid centroid cutoff_low_default)
      as (r1 & r2 & Hcc & _).
    exists r1, r2. do 2 eexists.
    rewrite (@pi_stacking_pairs point_distance point_angle vector_angle coords_dtype
               mol1 mol2 cutoff t r1 r2 Hcc).
    split; [reflexivity|].
    intros k ra rb Hra Hrb Hnan.
    rewrite !(map_nth_error _ _ _ (combine_nth_error _ _ _ Hra Hrb)).
    cbn [fst snd].
    destruct Hnan as [-> | ->];
      rewrite ?near_axis_nan, ?near_normal_nan, ?andb_false_r; auto.
  - destruct (ring_atom_detector isplus mol1 mol2 cutoff t)
      as (r1 & m & _ & Hdet & _).
    exists r1, m. eexists. split; [exact Hdet|].
    intros k ra b Hra Hb Hnan.
    rewrite (map_nth_error _ _ _ (combine_nth_error _ _ _ Hra Hb)).
    cbn [fst snd]. now rewrite Hnan, near_axis_nan.
  - destruct (ring_atom_detector ismetal mol1 mol2 cutoff t)
      as (r1 & m & _ & Hdet & _).
    exists r1, m. eexists. split; [exact Hdet|].
    intros k ra b Hra Hb Hnan.
    rewrite (map_nth_error _ _ _ (combine_nth_error _ _ _ Hra Hb)).
    cbn [fst snd]. now rewrite Hnan, near_axis_nan.
Qed.

(** X12.  The parallel and perpendicular conditions of [pi_stacking] overlap
    above 45 degrees.  From a tolerance of 46 on, whatever the dtype of the
    coordinates, a ring pair within the cutoff whose normals make 45 degrees
    and whose centroid angle is 0 is flagged both parallel and perpendicular.
    Between 45 and 46 the outcome depends on the rounding of the bounds: at
    [45 + 2^-20] the pair gets both flags on float64 data and neither on
    float32 data, where the four bounds round to 45 and 135. *)
Theorem pi_stacking_overlap_above_45 (mol1 mol2 : Molecule)
  (ra rb : ring) (cutoff : fnum) :
  ring_dict mol1 = [ra] -> ring_dict mol2 = [rb] ->
  in_window cutoff_low_default cutoff
    (point_distance (centroid ra) (centroid rb)) = true ->
  normals_angle vector_angle ra rb = Fin 45 ->
  (forall q : Q,
      46 <= q ->
      centroid_angle point_angle coords_dtype ra rb = Fin 0 ->
      pi_stacking point_distance point_angle vector_angle coords_dtype
        mol1 mol2 cutoff (Fin q) = Ok ([ra], [rb], [true], [true])) /\
  (centroid_angle point_angle float64 ra rb = Fin 0 ->
   pi_stacking point_distance point_angle vector_angle float64
     mol1 mol2 cutoff (Fin (45 + pow2 (-20)))
     = Ok ([ra], [rb], [true], [true])) /\
  (centroid_angle point_angle float32 ra rb = Fin 0 ->
   pi_stacking point_distance point_angle vector_angle float32
     mol1 mol2 cutoff (Fin (45 + pow2 (-20)))
     = Ok ([ra], [rb], [false], [false])).
Proof.
  intros H1 H2 Hw Ha1.
  assert (Hcc : close_contacts point_distance (ring_dict mol1)
                  (ring_dict mol2) cutoff centroid centroid
                  cutoff_low_default = Ok ([ra], [rb])).
  { rewrite H1, H2. now apply close_contacts_single. }
  split; [|split].
  - intros q Hq Ha2.
    rewrite (@pi_stacking_pairs point_distance point_angle vector_angle
               coords_dtype mol1 mol2 cutoff (Fin q) [ra] [rb] Hcc).
    cbn [combine map fst snd]. rewrite Ha1, Ha2.
    assert (E46 : round_dtype coords_dtype 46 == 46)
      by (destruct coords_dtype; vm_compute; reflexivity).
    assert (E44 : round_dtype coords_dtype (round_double 44) == 44)
      by (destruct coords_dtype; vm_compute; reflexivity).
    assert (E136 : round_dtype coords_dtype (round_double 136) == 136)
      by (destruct coords_dtype; vm_compute; reflexivity).
    pose proof (round_dtype_mono coords_dtype 46 q Hq) as L1.
    assert (A : 90 - q <= 44) by lra. assert (B : 136 <= 90 + q) by lra.
    pose proof (@cast_round_mono coords_dtype _ _ A) as L2.
    pose proof (@cast_round_mono coords_dtype _ _ B) as L3.
    assert (E1 : near_axis coords_dtype (Fin q) (Fin 45) = true).
    { unfold near_axis. cbn [fcast fsub]. apply orb_true_iff. right.
      apply flt_Fin. lra. }
    assert (E2 : near_axis coords_dtype (Fin q) (Fin 0) = true).
    { unfold near_axis. cbn [fcast fsub]. apply orb_true_iff. right.
      apply flt_Fin. lra. }
    assert (E3 : near_normal coords_dtype (Fin q) (Fin 45) = true).
    { unfold near_normal. cbn [fcast fsub fadd]. apply andb_true_iff.
      split; [apply fgt_Fin|apply flt_Fin]; lra. }
    now rewrite E1, E2, E3.
  - intro Ha2.
    rewrite (@pi_stacking_pairs point_distance point_angle vector_angle
               float64 mol1 mol2 cutoff _ [ra] [rb] Hcc).
    cbn [combine map fst snd]. rewrite Ha1, Ha2. reflexivity.
  - intro Ha2.
    rewrite (@pi_stacking_pairs point_distance point_angle vector_angle
               float32 mol1 mol2 cutoff _ [ra] [rb] Hcc).
    cbn [combine map fst snd]. rewrite Ha1, Ha2. reflexivity.
Qed.

End RingDetectors.

(** ** Hybridization codes and tolerance *)

Lemma np_take_BASE_wrap (h : Z) :
  (0 <= h < 5)%Z -> np_take BASE_ANGLES (h - 5) = np_take BASE_ANGLES h.
Proof.
  intro H.
  assert (Hc : (h = 0 \/ h = 1 \/ h = 2 \/ h = 3 \/ h = 4)%Z) by lia.
  repeat (destruct Hc as [-> | Hc]); try subst h; reflexivity.
Qed.

Lemma Forall_valid_code_dec (l : list Z) :
  {Forall valid_code l} + {~ Forall valid_code l}.
Proof. apply Forall_dec. apply valid_code_dec. Qed.

Lemma invalid_code_exists (l : list Z) :
  ~ Forall valid_code l -> Exists (fun h => ~ valid_code h) l.
Proof. apply neg_Forall_Exists_neg. apply valid_code_dec. Qed.

(** X13.  With one hybridization code per pair, [_check_angles] returns
    exactly when every code lies in [-5, 5), the range [np.take] accepts on
    the five-entry table, and raises [IndexError] otherwise, never
    [ValueError]; a negative code reads the table from its end, so that the
    codes [h - 5] and [h] give the same verdicts. *)
Theorem check_angles_code_range (angles : list (list fnum)) (hybs : list Z)
  (t : fnum) :
  (length angles = length hybs ->
   (Forall valid_code hybs ->
    exists res, _check_angles angles hybs t = Ok res /\
                length res = length angles) /\
   (~ Forall valid_code hybs ->
    _check_angles angles hybs t = Raise IndexError)) /\
  (Forall (fun h => (0 <= h < 5)%Z) hybs ->
   _check_angles angles (map (fun h => (h - 5)%Z) hybs) t =
   _check_angles angles hybs t).
Proof.
  split.
  - intro Hlen. split.
    + intro Hv. now apply check_angles_total.
    + intro Hn. apply check_angles_raise. now apply invalid_code_exists.
  - intro Hr. rewrite !check_angles_rows. f_equal.
    induction Hr as [|h l Hh _ IH]; cbn [map mapM]; [reflexivity|].
    now rewrite (np_take_BASE_wrap Hh), IH.
Qed.

Lemma check_angles_code_range_witness :
  (exists res, _check_angles [[Fin 100]; [NaN]] [-2; 4]%Z (Fin 30) = Ok res /\
               length res = 2%nat) /\
  _check_angles [[Fin 100]; [NaN]] [-6; 4]%Z (Fin 30) = Raise IndexError /\
  _check_angles [[Fin 100]; [NaN]] (map (fun h => (h - 5)%Z) [3; 4]%Z)
                (Fin 30)
  = _check_angles [[Fin 100]; [NaN]] [3; 4]%Z (Fin 30).
Proof.
  split; [|split].
  - apply (proj1 (check_angles_code_range [[Fin 100]; [NaN]] [-2; 4]%Z
                    (Fin 30))); [reflexivity|].
    unfold valid_code. repeat constructor; lia.
  - apply (proj1 (check_angles_code_range [[Fin 100]; [NaN]] [-6; 4]%Z
                    (Fin 30))); [reflexivity|].
    intro H. inversion H as [|? ? Hbad _]. unfold valid_code in Hbad. lia.
  - apply (proj2 (check_angles_code_range [[Fin 100]; [NaN]] [3; 4]%Z
                    (Fin 30))).
    repeat constructor; lia.
Defined.

Lemma in_band_nonpositive (ideal t a : fnum) :
  fle t (Fin 0) = true -> in_band ideal t a = false.
Proof.
  intro Ht. destruct (in_band ideal t a) eqn:E; [|reflexivity].
  apply in_band_inv in E as (i & x & v & _ & -> & _ & Hlo & Hhi).
  apply fle_Fin in Ht.
  assert (A : i + x <= i - x) by lra.
  apply round_double_mono in A. lra.
Qed.

Lemma row_strict_nonpositive (t : fnum) (row : list fnum) (ideal : fnum) :
  fle t (Fin 0) = true -> row_strict t row ideal = false.
Proof.
  intro Ht. unfold row_strict. induction row as [|a row IH]; cbn;
    [reflexivity|].
  now rewrite in_band_nonpositive, IH.
Qed.

Lemma broadcast2_Forall {T U V} (f : T -> U -> V) (P : T -> Prop)
  (Q : V -> Prop) (xs : list T) (ys : list U) (r : list V) :
  (forall x y, P x -> Q (f x y)) ->
  Forall P xs -> broadcast2 f xs ys = Ok r -> Forall Q r.
Proof.
  intros Hf HP.
  assert (Hzip : forall l l', Forall P l -> Forall Q (zip_with f l l')).
  { induction l as [|a l IH]; intros [|b l'] Hl; cbn; constructor;
      inversion Hl; subst; auto. }
  assert (Hin : forall v, In v xs -> P v) by (now apply Forall_forall).
  unfold broadcast2.
  destruct xs as [|x [|x' xs]], ys as [|y [|y' ys]];
    cbv beta iota; cbn [length Nat.eqb]; intro H;
    try discriminate;
    try (destruct (Nat.eqb (length xs) (length ys)); [|discriminate]);
    injection H as <-;
    repeat (apply Forall_cons; [apply Hf; apply Hin; cbn; auto|]);
    first [ apply Forall_nil
          | apply Hzip; apply Forall_forall; intros v Hv; apply Hin;
            cbn; auto
          | apply Forall_forall; intros v Hv;
            apply in_map_iff in Hv as (u & <- & Hu); apply Hf; apply Hin;
            cbn; auto ].
Qed.

Section HybridizationDetectors.

Variable point_distance : point -> point -> fnum.
Variable point_angle : point -> point -> point -> fnum.

Lemma atom_codes_dec (l : list atom) :
  {Forall (fun v => valid_code (hybridization v)) l} +
  {Exists (fun v => ~ valid_code (hybridization v)) l}.
Proof.
  destruct (Forall_dec (fun v => valid_code (hybridization v))
              (fun v => valid_code_dec (hybridization v)) l) as [H|H].
  - now left.
  - right. apply neg_Forall_Exists_neg; [|exact H].
    intro v. apply valid_code_dec.
Qed.

Lemma one_sided_strict_total (a m : list atom) (t : fnum) :
  length a = length m ->
  Forall (fun v => valid_code (hybridization v)) a ->
  exists strict,
    _check_angles
      (map (fun am => acceptor_side_angles point_angle (fst am) (snd am))
           (combine a m))
      (map hybridization a) t = Ok strict /\
    length strict = length a /\
    forall k ak mk,
      nth_error a k = Some ak -> nth_error m k = Some mk ->
      exists s1,
        _check_angles [acceptor_side_angles point_angle ak mk]
                      [hybridization ak] t = Ok [s1] /\
        nth_error strict k = Some s1.
Proof.
  intros Hlen Ha.
  rewrite check_angles_aligned
    by (rewrite !length_map, combine_length_eq; congruence).
  assert (Hva : Forall valid_code (map hybridization a))
    by (apply Forall_map; exact Ha).
  destruct (ideal_angles_total Hva) as [ia Eia]. rewrite Eia. cbn [bind].
  assert (Lia : length ia = length a)
    by (apply mapM_Ok_length in Eia; now rewrite length_map in Eia).
  eexists. split; [reflexivity|].
  split; [rewrite zip_rows_length; congruence|].
  intros k ak mk Hak Hmk. apply mapM_Ok_Forall2 in Eia.
  destruct (Forall2_nth_error_l _ Eia (map_nth_error hybridization _ _ Hak))
    as (i1 & Hi1 & Ht1).
  exists (row_strict t (acceptor_side_angles point_angle ak mk) i1).
  rewrite check_angles_aligned by reflexivity. cbn [mapM bind].
  rewrite Ht1. cbn [bind zip_with]. split; [reflexivity|].
  apply zip_with_nth_error; [|assumption].
  now rewrite (map_nth_error _ _ _ (combine_nth_error _ _ _ Hak Hmk)).
Qed.

(** X14.  [acceptor_metal] classifies on the acceptor side only and never
    reads the hybridization of the metal: when the codes of [mol1] are valid
    it returns, whatever the codes of [mol2], and the flag of a pair is the
    verdict of [_check_angles] on the angles metal - acceptor - acceptor's
    neighbors with the acceptor's hybridization. *)
Theorem acceptor_metal_reads_acceptor_only (mol1 mol2 : Molecule)
  (t cutoff : fnum) :
  valid_codes mol1 ->
  exists a m strict,
    acceptor_metal point_distance point_angle mol1 mol2 t cutoff
      = Ok (a, m, strict) /\
    length m = length a /\ length strict = length a /\
    forall k ak mk,
      nth_error a k = Some ak -> nth_error m k = Some mk ->
      exists s1,
        _check_angles [acceptor_side_angles point_angle ak mk]
                      [hybridization ak] t = Ok [s1] /\
        nth_error strict k = Some s1.
Proof.
  intro Hv1.
  destruct (close_contacts_Ok point_distance
              (filter isacceptor (atom_dict mol1))
              (filter ismetal (atom_dict mol2)) cutoff coords coords
              cutoff_low_default) as (a & m & Hcc & _).
  rewrite (@acceptor_metal_pairs point_distance point_angle
             mol1 mol2 t cutoff a m Hcc).
  apply close_contacts_aligned in Hcc as (Hlen & Ha & _).
  destruct (@one_sided_strict_total a m t Hlen) as (strict & Hs & Hl & Hk).
  { eapply valid_codes_sub; [exact Hv1|].
    eapply atoms_of_filter; eassumption. }
  exists a, m, strict. rewrite Hs. cbn [bind].
  split; [reflexivity|]. split; [congruence|]. split; assumption.
Qed.

(** X15.  The detectors that classify by hybridization fail in one way only:
    they return when every emitted pair carries valid codes on the sides
    whose hybridization is read (both sides for hydrogen and halogen bonds,
    the acceptor for metal coordination), and raise [IndexError] otherwise.
    A code outside the table on an atom that is in no emitted pair is
    harmless. *)
Theorem classifying_detectors_raise_iff (mol1 mol2 : Molecule)
  (cutoff t : fnum) :
  let ok := Forall (fun v => valid_code (hybridization v)) in
  (exists a d,
      close_contacts point_distance (filter isacceptor (atom_dict mol1))
        (filter isdonor (atom_dict mol2)) cutoff coords coords
        cutoff_low_default = Ok (a, d) /\
      (ok a /\ ok d ->
       exists s, hbond_acceptor_donor point_distance point_angle mol1 mol2
                   cutoff t = Ok (a, d, s)) /\
      (~ (ok a /\ ok d) ->
       hbond_acceptor_donor point_distance point_angle mol1 mol2 cutoff t
         = Raise IndexError)) /\
  (exists a h,
      close_contacts point_distance (filter isacceptor (atom_dict mol1))
        (filter ishalogen (atom_dict mol2)) cutoff coords coords
        cutoff_low_default = Ok (a, h) /\
      (ok a /\ ok h ->
       exists s, halogenbond_acceptor_halogen point_distance point_angle
                   mol1 mol2 t cutoff = Ok (a, h, s)) /\
      (~ (ok a /\ ok h) ->
       halogenbond_acceptor_halogen point_distance point_angle mol1 mol2
         t cutoff = Raise IndexError)) /\
  (exists a m,
      close_contacts point_distance (filter isacceptor (atom_dict mol1))
        (filter ismetal (atom_dict mol2)) cutoff coords coords
        cutoff_low_default = Ok (a, m) /\
      (ok a ->
       exists s, acceptor_metal point_distance point_angle mol1 mol2
                   t cutoff = Ok (a, m, s)) /\
      (~ ok a ->
       acceptor_metal point_distance point_angle mol1 mol2 t cutoff
         = Raise IndexError)).
Proof.
  cbv zeta.
  assert (Htwo : forall a d,
    length a = length d ->
    (Forall (fun v => valid_code (hybridization v)) a /\
     Forall (fun v => valid_code (hybridization v)) d ->
     exists s, two_sided_strict point_angle a d t = Ok s) /\
    (~ (Forall (fun v => valid_code (hybridization v)) a /\
        Forall (fun v => valid_code (hybridization v)) d) ->
     two_sided_strict point_angle a d t = Raise IndexError)).
  { intros a d Hlen. split.
    - intros [Ha Hd].
      destruct (@two_sided_strict_total point_angle a d t Hlen Ha Hd)
        as (s & Hs & _). eauto.
    - intro Hn. apply two_sided_strict_raise; [assumption|].
      destruct (atom_codes_dec a) as [Ha|Ha]; [|now left].
      destruct (atom_codes_dec d) as [Hd|Hd]; [|now right].
      exfalso. apply Hn. now split. }
  split; [|split].
  - destruct (close_contacts_Ok point_distance
                (filter isacceptor (atom_dict mol1))
                (filter isdonor (atom_dict mol2)) cutoff coords coords
                cutoff_low_default) as (a & d & Hcc & _).
    exists a, d. split; [exact Hcc|].
    rewrite (@hbond_acceptor_donor_pairs point_distance point_angle
               mol1 mol2 cutoff t a d Hcc).
    apply close_contacts_aligned in Hcc as (Hlen & _).
    destruct (Htwo a d Hlen) as [Hok Hbad]. split.
    + intro H. destruct (Hok H) as [s ->]. cbn [bind]. eauto.
    + intro H. now rewrite (Hbad H).
  - destruct (close_contacts_Ok point_distance
                (filter isacceptor (atom_dict mol1))
                (filter ishalogen (atom_dict mol2)) cutoff coords coords
                cutoff_low_default) as (a & h & Hcc & _).
    exists a, h. split; [exact Hcc|].
    rewrite (@halogenbond_acceptor_halogen_pairs point_distance point_angle
               mol1 mol2 t cutoff a h Hcc).
    apply close_contacts_aligned in Hcc as (Hlen & _).
    destruct (Htwo a h Hlen) as [Hok Hbad]. split.
    + intro H. destruct (Hok H) as [s ->]. cbn [bind]. eauto.
    + intro H. now rewrite (Hbad H).
  - destruct (close_contacts_Ok point_distance
                (filter isacceptor (atom_dict mol1))
                (filter ismetal (atom_dict mol2)) cutoff coords coords
                cutoff_low_default) as (a & m & Hcc & _).
    exists a, m. split; [exact Hcc|].
    rewrite (@acceptor_metal_pairs point_distance point_angle
               mol1 mol2 t cutoff a m Hcc).
    apply close_contacts_aligned in Hcc as (Hlen & _). split.
    + intro Ha.
      destruct (@one_sided_strict_total a m t Hlen Ha) as (s & -> & _).
      cbn [bind]. eauto.
    + intro Hn. rewrite check_angles_raise; [reflexivity|].
      destruct (atom_codes_dec a) as [Ha|Ha]; [contradiction|].
      apply Exists_exists in Ha as (v & Hin & Hv). apply Exists_exists.
      exists (hybridization v). split; [now apply in_map|assumption].
Qed.

(** X16.  At a tolerance of zero or below nothing is strict: every flag
    [_check_angles] returns is false, and so is every flag of the three
    detectors that classify by hybridization. *)
Theorem nonpositive_tolerance_never_strict (t : fnum) :
  fle t (Fin 0) = true ->
  (forall angles hybs res,
      _check_angles angles hybs t = Ok res ->
      Forall (fun b => b = false) res) /\
  (forall mol1 mol2 cutoff a d s,
      hbond_acceptor_donor point_distance point_angle mol1 mol2 cutoff t
        = Ok (a, d, s) -> Forall (fun b => b = false) s) /\
  (forall mol1 mol2 cutoff a h s,
      halogenbond_acceptor_halogen point_distance point_angle mol1 mol2
        t cutoff = Ok (a, h, s) -> Forall (fun b => b = false) s) /\
  (forall mol1 mol2 cutoff a m s,
      acceptor_metal point_distance point_angle mol1 mol2 t cutoff
        = Ok (a, m, s) -> Forall (fun b => b = false) s).
Proof.
  intro Ht.
  assert (Hcheck : forall angles hybs res,
    _check_angles angles hybs t = Ok res -> Forall (fun b => b = false) res).
  { intros angles hybs res. rewrite check_angles_rows.
    destruct (mapM _ hybs) as [ideals|e]; cbn [bind]; [|discriminate].
    intro Hb.
    eapply (@broadcast2_Forall _ _ _ (row_strict t) (fun _ => True)
              (fun b => b = false)); [| |exact Hb].
    - intros row ideal _. now apply row_strict_nonpositive.
    - apply Forall_forall. auto. }
  assert (Htwo : forall a d s,
    two_sided_strict point_angle a d t = Ok s ->
    Forall (fun b => b = false) s).
  { intros a d s. unfold two_sided_strict.
    destruct (_check_angles _ (map hybridization a) t) as [s1|e] eqn:E1;
      cbn [bind]; [|discriminate].
    destruct (_check_angles _ (map hybridization d) t) as [s2|e] eqn:E2;
      cbn [bind]; [|discriminate].
    intro Hb.
    eapply (@broadcast2_Forall _ _ _ andb (fun b => b = false)
              (fun b => b = false)); [| |exact Hb].
    - now intros b1 b2 ->.
    - eapply Hcheck; eassumption. }
  split; [exact Hcheck|]. split; [|split].
  - intros mol1 mol2 cutoff a d s H.
    pose proof (hbond_acceptor_donor_contacts point_distance point_angle
                  _ _ _ _ H) as Hcc.
    rewrite (@hbond_acceptor_donor_pairs point_distance point_angle
               mol1 mol2 cutoff t a d Hcc) in H.
    destruct (two_sided_strict point_angle a d t) as [s'|e] eqn:E;
      cbn [bind] in H; [|discriminate].
    injection H as <-. eapply Htwo; eassumption.
  - intros mol1 mol2 cutoff a h s H.
    pose proof (halogenbond_acceptor_halogen_contacts point_distance
                  point_angle _ _ _ _ H) as Hcc.
    rewrite (@halogenbond_acceptor_halogen_pairs point_distance point_angle
               mol1 mol2 t cutoff a h Hcc) in H.
    destruct (two_sided_strict point_angle a h t) as [s'|e] eqn:E;
      cbn [bind] in H; [|discriminate].
    injection H as <-. eapply Htwo; eassumption.
  - intros mol1 mol2 cutoff a m s H.
    pose proof (acceptor_metal_contacts point_distance point_angle
                  _ _ _ _ H) as Hcc.
    rewrite (@acceptor_metal_pairs point_distance point_angle
               mol1 mol2 t cutoff a m Hcc) in H.
    destruct (_check_angles _ _ t) as [s'|e] eqn:E;
      cbn [bind] in H; [|discriminate].
    injection H as <-. eapply Hcheck; eassumption.
Qed.

(** X17.  The strictness of a halogen bond is a conjunction as well: on
    structures with valid hybridization codes
    [halogenbond_acceptor_halogen] returns one flag per pair, the verdict on
    the acceptor side (angles halogen - acceptor - acceptor's neighbors) and
    the verdict on the halogen side (angles acceptor - halogen - halogen's
    neighbors) taken together. *)
Theorem halogenbond_strict_is_conjunction (mol1 mol2 : Molecule)
  (t cutoff : fnum) :
  valid_codes mol1 -> valid_codes mol2 ->
  exists a h strict,
    halogenbond_acceptor_halogen point_distance point_angle mol1 mol2
      t cutoff = Ok (a, h, strict) /\
    length h = length a /\ length strict = length a /\
    forall k ak hk,
      nth_error a k = Some ak -> nth_error h k = Some hk ->
      exists s1 s2,
        _check_angles [acceptor_side_angles point_angle ak hk]
                      [hybridization ak] t = Ok [s1] /\
        _check_angles [partner_side_angles point_angle ak hk]
                      [hybridization hk] t = Ok [s2] /\
        nth_error strict k = Some (s1 && s2).
Proof.
  intros Hv1 Hv2.
  destruct (close_contacts_Ok point_distance
              (filter isacceptor (atom_dict mol1))
              (filter ishalogen (atom_dict mol2)) cutoff coords coords
              cutoff_low_default) as (a & h & Hcc & _).
  rewrite (@halogenbond_acceptor_halogen_pairs point_distance point_angle
             mol1 mol2 t cutoff a h Hcc).
  apply close_contacts_aligned in Hcc as (Hlen & Ha & Hh).
  destruct (@two_sided_strict_total point_angle a h t Hlen)
    as (strict & Hs & Hls & Hk).
  { eapply valid_codes_sub; [exact Hv1|].
    eapply atoms_of_filter; eassumption. }
  { eapply valid_codes_sub; [exact Hv2|].
    eapply atoms_of_filter; eassumption. }
  exists a, h, strict. rewrite Hs. cbn [bind].
  split; [reflexivity|]. split; [congruence|]. split; assumption.
Qed.

End HybridizationDetectors.

(** ** Swapping the two structures *)

Lemma combine_app_aligned {T U} (l1 l2 : list T) (l1' l2' : list U) :
  length l1 = length l1' ->
  combine (l1 ++ l2) (l1' ++ l2') = combine l1 l1' ++ combine l2 l2'.
Proof.
  revert l1'. induction l1 as [|a l1 IH]; intros [|b l1'] H; cbn in *;
    try discriminate; [reflexivity|].
  f_equal. apply IH. now injection H.
Qed.

Section SwapStructures.

Variable single : Molecule -> Molecule ->
                  result (list atom * list atom * list bool).
Hypothesis single_sound : single_sided_sound single.

Lemma symmetrize_swap (mol1 mol2 : Molecule) (u v : list atom)
  (s : list bool) :
  symmetrize single mol1 mol2 = Ok (u, v, s) ->
  exists v' u' s',
    symmetrize single mol2 mol1 = Ok (v', u', s') /\
    Permutation (combine (combine u v) s) (combine (combine u' v') s').
Proof.
  unfold symmetrize.
  destruct (single mol1 mol2) as [[[a1 d1] s1]|e1] eqn:E1; cbn [bind];
    [|discriminate].
  destruct (single mol2 mol1) as [[[a2 d2] s2]|e2] eqn:E2; cbn [bind];
    [|discriminate].
  intro H. injection H as <- <- <-.
  do 3 eexists. split; [reflexivity|].
  apply single_sound in E1 as (L1 & S1 & _).
  apply single_sound in E2 as (L2 & S2 & _).
  rewrite !(combine_app_aligned a1 d2 d1 a2) by congruence.
  rewrite !(combine_app_aligned d2 a1 a2 d1) by congruence.
  rewrite !combine_app_aligned
    by (rewrite length_combine; lia).
  apply Permutation_app_comm.
Qed.

End SwapStructures.

Section SwapDetectors.

Variable point_distance : point -> point -> fnum.
Variable point_angle : point -> point -> point -> fnum.

(** X18.  Swapping the structures exchanges the two arrays and nothing else:
    when [hbonds(mol1, mol2)] returns, [hbonds(mol2, mol1)] returns the same
    pairs with their flags, up to order, the atom of [mol2] now first; the
    same holds for [halogenbonds] and, without flags, for
    [salt_bridges]. *)
Theorem bidirectional_detectors_swap (mol1 mol2 : Molecule)
  (cutoff t : fnum) :
  (forall u v s,
      hbonds point_distance point_angle mol1 mol2 cutoff t = Ok (u, v, s) ->
      exists v' u' s',
        hbonds point_distance point_angle mol2 mol1 cutoff t
          = Ok (v', u', s') /\
        Permutation (combine (combine u v) s)
                    (combine (combine u' v') s')) /\
  (forall u v s,
      halogenbonds point_distance point_angle mol1 mol2 cutoff t
        = Ok (u, v, s) ->
      exists v' u' s',
        halogenbonds point_distance point_angle mol2 mol1 cutoff t
          = Ok (v', u', s') /\
        Permutation (combine (combine u v) s)
                    (combine (combine u' v') s')) /\
  (exists u v v' u',
      salt_bridges point_distance mol1 mol2 cutoff = Ok (u, v) /\
      salt_bridges point_distance mol2 mol1 cutoff = Ok (v', u') /\
      Permutation (combine u v) (combine u' v')).
Proof.
  split; [|split].
  - intros u v s H.
    apply (symmetrize_swap
             (hbond_acceptor_donor_sound point_distance point_angle
                cutoff t) mol1 mol2 H).
  - intros u v s H.
    apply (symmetrize_swap
             (halogenbond_acceptor_halogen_sound point_distance point_angle
                t cutoff) mol1 mol2 H).
  - destruct (salt_bridge_plus_minus_Ok point_distance mol1 mol2 cutoff)
      as (p1 & n2 & E1 & L1 & _).
    destruct (salt_bridge_plus_minus_Ok point_distance mol2 mol1 cutoff)
      as (p2 & n1 & E2 & L2 & _).
    unfold salt_bridges. rewrite E1, E2. cbn [bind].
    do 4 eexists. split; [reflexivity|]. split; [reflexivity|].
    rewrite !combine_app_aligned by congruence.
    apply Permutation_app_comm.
Qed.

(** X19.  Coincident atoms are never paired: the lower cutoff of every
    detector is 0 and excluded, so when a point is at no positive distance
    from itself, [hydrophobic_contacts] returns no pair of atoms with the
    same coordinates; in particular, run on a structure against itself, it
    does not pair an atom with itself. *)
Theorem hydrophobic_contacts_not_coincident (mol1 mol2 : Molecule)
  (cutoff : fnum) :
  (forall p, fgt (point_distance p p) (Fin 0) = false) ->
  exists h1 h2,
    hydrophobic_contacts point_distance mol1 mol2 cutoff = Ok (h1, h2) /\
    Forall2 (fun a b => coords a <> coords b /\ a <> b) h1 h2.
Proof.
  intro Hzero. unfold hydrophobic_contacts.
  destruct (close_contacts_Ok point_distance
              (filter ishydrophobe (atom_dict mol1))
              (filter ishydrophobe (atom_dict mol2)) cutoff coords coords
              cutoff_low_default) as (h1 & h2 & Hcc & _).
  rewrite Hcc. cbn [bind]. exists h1, h2. split; [reflexivity|].
  apply filtered_contacts in Hcc.
  eapply Forall2_impl; [|exact Hcc].
  intros a b (_ & _ & _ & _ & Hgt & _).
  assert (Hne : coords a <> coords b).
  { intro Heq. rewrite Heq in Hgt. unfold cutoff_low_default in Hgt.
    rewrite Hzero in Hgt. discriminate. }
  split; [exact Hne|]. intro Heq. apply Hne. now rewrite Heq.
Qed.

End SwapDetectors.

(** ** The further properties on the sample structures *)

Lemma distance_x_self (p : point) : fgt (distance_x p p) (Fin 0) = false.
Proof.
  unfold distance_x. destruct (px p) as [|a]; [reflexivity|].
  destruct (fgt (Fin (Qabs (a - a))) (Fin 0)) eqn:E; [|reflexivity].
  apply fgt_Fin in E.
  assert (H : Qabs (a - a) == 0).
  { rewrite (Qabs_wd (a - a) 0) by ring. reflexivity. }
  rewrite H in E. exfalso. apply (Qlt_irrefl _ E).
Qed.

Lemma close_contacts_empty_window_witness :
  close_contacts distance_3 [sample_acceptor] [sample_donor] (Fin 2)
    coords coords (Fin 4) = Ok ([], []) /\
  close_contacts distance_3 [sample_acceptor] [sample_donor] NaN
    coords coords (Fin 0) = Ok ([], []).
Proof.
  split; apply close_contacts_empty_window; reflexivity.
Defined.

Lemma close_contacts_window_split_witness :
  (In (0%nat, 0%nat)
      (contact_index distance_3 [sample_acceptor] [sample_donor] (Fin 4)
                     coords coords (Fin 0)) <->
   In (0%nat, 0%nat)
      (contact_index distance_3 [sample_acceptor] [sample_donor] (Fin 2)
                     coords coords (Fin 0)) \/
   In (0%nat, 0%nat)
      (contact_index distance_3 [sample_acceptor] [sample_donor] (Fin 4)
                     coords coords (Fin 2))) /\
  ~ (In (0%nat, 0%nat)
        (contact_index distance_3 [sample_acceptor] [sample_donor] (Fin 2)
                       coords coords (Fin 0)) /\
     In (0%nat, 0%nat)
        (contact_index distance_3 [sample_acceptor] [sample_donor] (Fin 4)
                       coords coords (Fin 2))).
Proof.
  apply (close_contacts_window_split distance_3 [sample_acceptor]
           [sample_donor] coords coords (Fin 0) (Fin 2) (Fin 4) 0 0);
    reflexivity.
Defined.

Lemma ring_detectors_monotone_in_tolerance_witness :
  exists r1 r2 par1 per1 par2 per2,
    pi_stacking distance_4 angle_0 angle_2v_0 float32 sample_mol1 sample_mol2
      pi_cutoff_default (Fin 10) = Ok (r1, r2, par1, per1) /\
    pi_stacking distance_4 angle_0 angle_2v_0 float32 sample_mol1 sample_mol2
      pi_cutoff_default (Fin 30) = Ok (r1, r2, par2, per2) /\
    Forall2 flag_le par1 par2 /\ Forall2 flag_le per1 per2.
Proof.
  apply (ring_detectors_monotone_in_tolerance distance_4 angle_0 angle_2v_0 float32
           sample_mol1 sample_mol2 pi_cutoff_default (Fin 10) (Fin 30)).
  reflexivity.
Defined.

Lemma pi_stacking_overlap_above_45_witness :
  pi_stacking distance_4 angle_0 (fun _ _ => Fin 45) float32
    sample_mol1 sample_mol2 pi_cutoff_default (Fin 60)
  = Ok ([sample_ring_a], [sample_ring_b], [true], [true]) /\
  pi_stacking distance_4 angle_0 (fun _ _ => Fin 45) float32
    sample_mol1 sample_mol2 pi_cutoff_default (Fin (45 + pow2 (-20)))
  = Ok ([sample_ring_a], [sample_ring_b], [false], [false]).
Proof.
  destruct (@pi_stacking_overlap_above_45 distance_4 angle_0
              (fun _ _ => Fin 45) float32 sample_mol1 sample_mol2
              sample_ring_a sample_ring_b pi_cutoff_default
              eq_refl eq_refl eq_refl eq_refl) as (H1 & _ & H3).
  split.
  - apply (H1 60); [discriminate|reflexivity].
  - apply H3. reflexivity.
Defined.

Lemma acceptor_metal_reads_acceptor_only_witness :
  exists a m strict,
    acceptor_metal distance_3 angle_179 sample_mol1
      (mkmol [sample_metal_code9] []) (Fin 30) (Fin 4)
      = Ok (a, m, strict) /\
    length m = length a /\ length strict = length a /\
    forall k ak mk,
      nth_error a k = Some ak -> nth_error m k = Some mk ->
      exists s1,
        _check_angles [acceptor_side_angles angle_179 ak mk]
                      [hybridization ak] (Fin 30) = Ok [s1] /\
        nth_error strict k = Some s1.
Proof.
  apply acceptor_metal_reads_acceptor_only. apply sample_valid_codes.
Defined.

Lemma nonpositive_tolerance_never_strict_witness :
  _check_angles [[Fin 180; NaN]; [Fin 0]] [1; 0]%Z (Fin 0)
    = Ok [false; false] /\
  Forall (fun b => b = false) [false; false].
Proof.
  split; [reflexivity|].
  apply (proj1 (nonpositive_tolerance_never_strict distance_3 angle_179
                  (Fin 0) eq_refl)
           [[Fin 180; NaN]; [Fin 0]] [1; 0]%Z).
  reflexivity.
Defined.

Lemma halogenbond_strict_is_conjunction_witness :
  exists a h strict,
    halogenbond_acceptor_halogen distance_3 angle_179 sample_mol1
      (mkmol [sample_halogen] []) (Fin 30) (Fin 4) = Ok (a, h, strict) /\
    length h = length a /\ length strict = length a /\
    forall k ak hk,
      nth_error a k = Some ak -> nth_error h k = Some hk ->
      exists s1 s2,
        _check_angles [acceptor_side_angles angle_179 ak hk]
                      [hybridization ak] (Fin 30) = Ok [s1] /\
        _check_angles [partner_side_angles angle_179 ak hk]
                      [hybridization hk] (Fin 30) = Ok [s2] /\
        nth_error strict k = Some (s1 && s2).
Proof.
  apply halogenbond_strict_is_conjunction.
  - apply sample_valid_codes.
  - unfold valid_codes, valid_code. repeat constructor; cbn; lia.
Defined.

Lemma hydrophobic_contacts_not_coincident_witness :
  exists h1 h2,
    hydrophobic_contacts distance_x sample_mol_hydrophobes
      sample_mol_hydrophobes (Fin 4) = Ok (h1, h2) /\
    Forall2 (fun a b => coords a <> coords b /\ a <> b) h1 h2.
Proof.
  apply hydrophobic_contacts_not_coincident. exact distance_x_self.
Defined.

Lemma classifying_detectors_pairs_witness :
  Forall2 (contact_of distance_3 hbond_cutoff_default sample_mol1 sample_mol2
                      isacceptor isdonor)
          [sample_acceptor] [sample_donor].
Proof.
  apply (proj1 (classifying_detectors_pairs distance_3 angle_179
                  sample_mol1 sample_mol2 hbond_cutoff_default (Fin 30))
           [sample_acceptor] [sample_donor] [true]).
  reflexivity.
Defined.

Lemma bidirectional_detectors_swap_witness :
  exists v' u' s',
    hbonds distance_3 angle_179 sample_mol2 sample_mol1
      hbond_cutoff_default (Fin 30) = Ok (v', u', s') /\
    Permutation
      (combine (combine [sample_acceptor] [sample_donor]) [true])
      (combine (combine u' v') s').
Proof.
  apply (proj1 (bidirectional_detectors_swap distance_3 angle_179
                  sample_mol1 sample_mol2 hbond_cutoff_default (Fin 30))
           [sample_acceptor] [sample_donor] [true]).
  reflexivity.
Defined.
